(** * iyisiniye API: search, restaurant detail and autocomplete routes

    A shallow embedding of the request handlers of [apps/api] (the search
    route, the restaurant detail route, the autocomplete route and the
    cache helpers of [lib/cache.ts]) together with the properties they are
    expected to satisfy.

    Layout: the first half holds the definitions, one module per source
    file; the second half holds the lemmas and theorems about them.

    Conventions of the embedding.
    - A JavaScript string is a [string]; each character stands for one
      UTF-16 code unit below 256.
    - A JavaScript number of a validated query is a canonical rational
      [Qc]; [Number(...)], [Number::toString] and the MD5 digest belong to
      the runtime and are the fields of the class [JsRuntime].
    - Where a handler divides and multiplies numbers the results are the
      doubles of IEEE 754, rationals rounded to 53 significant bits
      (module [Double]).
    - SQL [numeric(p,2)] columns are integers counting hundredths, a
      timestamp is an integer, [NULL] is [None].
    - Functions evaluated by PostgreSQL ([similarity], full-text match,
      [lower], [ST_Distance], [ST_DWithin]) are the fields of the class
      [Postgres]; the tables are lists of rows in physical order.
    - [await] is sequencing; the effects of a handler are the commands it
      sends to Redis and to the database, recorded in a log. *)

From Stdlib Require Import ZArith QArith Qcanon Qround Qabs Qpower.
From Stdlib Require Import String Ascii Bool Lia Lqa.
From Stdlib Require Import Permutation Sorted.
From Stdlib Require OrderedTypeEx.
From stdpp Require Import gmap strings list sorting pretty.

Open Scope string_scope.
Open Scope list_scope.

(* ===================================================================== *)
(** * Definitions *)
(* ===================================================================== *)

(** ** Stable sorting

    Both [Array.prototype.sort] and the model of [ORDER BY] are stable
    insertion sorts; [lt x y] says that [x] goes strictly before [y]. *)
Section StableSort.
Context {A : Type} (lt : A -> A -> bool).

Fixpoint sort_insert (x : A) (l : list A) : list A :=
  match l with
  | [] => [x]
  | y :: l' => if lt y x then y :: sort_insert x l' else x :: y :: l'
  end.

Fixpoint stable_sort (l : list A) : list A :=
  match l with
  | [] => []
  | x :: l' => sort_insert x (stable_sort l')
  end.

(** [a] may stand before [b]: [b] does not go strictly before [a]. *)
Definition inOrder (a b : A) : Prop := lt b a = false.
End StableSort.

(** ** JavaScript runtime: strings, default sort, JSON text *)

Module Js.

Definition code (c : ascii) : N := N_of_ascii c.

(** White space and line terminators stripped by [String.prototype.trim]
    (code units below 256): TAB, LF, VT, FF, CR, SPACE, NBSP. *)
Definition isWhiteSpace (c : ascii) : bool :=
  let n := code c in
  ((9 <=? n) && (n <=? 13) || (n =? 32) || (n =? 160))%N.

Fixpoint trimStart (s : string) : string :=
  match s with
  | EmptyString => EmptyString
  | String c s' => if isWhiteSpace c then trimStart s' else s
  end.

Definition trimEnd (s : string) : string :=
  String.rev (trimStart (String.rev s)).

Definition trim (s : string) : string := trimEnd (trimStart s).

(** A text that is empty or starts with a character [trim] keeps. *)
Definition startsClean (s : string) : bool :=
  match s with
  | EmptyString => true
  | String c _ => negb (isWhiteSpace c)
  end.

(** A text made of white space only. *)
Fixpoint blank (s : string) : bool :=
  match s with
  | EmptyString => true
  | String c s' => isWhiteSpace c && blank s'
  end.

(** [String.prototype.toLowerCase] on code units below 256. *)
Definition lowerChar (c : ascii) : ascii :=
  let n := code c in
  if ((65 <=? n) && (n <=? 90)
      || (192 <=? n) && (n <=? 222) && negb (n =? 215))%N
  then ascii_of_N (n + 32) else c.

Fixpoint toLowerCase (s : string) : string :=
  match s with
  | EmptyString => EmptyString
  | String c s' => String (lowerChar c) (toLowerCase s')
  end.

(** Truthiness of a string: the empty string is falsy. *)
Definition truthy_string (s : string) : bool :=
  match s with EmptyString => false | _ => true end.

(** Truthiness of a number: zero is falsy. *)
Definition truthy_number (x : Qc) : bool :=
  negb (Qeq_bool (this x) 0).

(** [s.includes(t)] *)
Fixpoint includes (s t : string) : bool :=
  String.prefix t s ||
  match s with
  | EmptyString => false
  | String _ s' => includes s' t
  end.

(** [Array.prototype.sort()] without a comparator: elements are compared
    by the code units of their string images; the sort is stable.
    [key] is the [ToString] of an element. *)
Definition sort {A : Type} (key : A -> string) (l : list A) : list A :=
  stable_sort (fun x y => String.ltb (key x) (key y)) l.

(** [Object.fromEntries(entries)] for keys that are not array indices:
    a key keeps the position of its first insertion, a later entry for
    the same key overwrites the value. The object is the list of its own
    properties in enumeration order, which is what [Object.entries] and
    [JSON.stringify] walk. *)
Section Objects.
Context {K V : Type} `{EqDecision K}.

Fixpoint setProperty (obj : list (K * V)) (k : K) (v : V) : list (K * V) :=
  match obj with
  | [] => [(k, v)]
  | (k', v') :: obj' =>
      if decide (k' = k) then (k', v) :: obj'
      else (k', v') :: setProperty obj' k v
  end.

Definition fromEntries (entries : list (K * V)) : list (K * V) :=
  fold_left (fun obj e => setProperty obj e.1 e.2) entries [].

Fixpoint getProperty (obj : list (K * V)) (k : K) : option V :=
  match obj with
  | [] => None
  | (k', v) :: obj' => if decide (k' = k) then Some v else getProperty obj' k
  end.
End Objects.

(** *** JSON text of a string ([QuoteJSONString]) *)

Definition dquote : ascii := "034"%char.
Definition backslash : ascii := "092"%char.

Definition hexDigit (n : N) : ascii :=
  if (n <? 10)%N then ascii_of_N (48 + n) else ascii_of_N (87 + n).

Definition escapeChar (c : ascii) : string :=
  let n := code c in
  if (n =? 8)%N then String backslash "b"
  else if (n =? 9)%N then String backslash "t"
  else if (n =? 10)%N then String backslash "n"
  else if (n =? 12)%N then String backslash "f"
  else if (n =? 13)%N then String backslash "r"
  else if (n =? 34)%N then String backslash (String dquote "")
  else if (n =? 92)%N then String backslash (String backslash "")
  else if (n <? 32)%N then
    String backslash
      ("u00" +:+ String (hexDigit (n / 16)) (String (hexDigit (n mod 16)) ""))
  else String c "".

Fixpoint escape (s : string) : string :=
  match s with
  | EmptyString => EmptyString
  | String c s' => escapeChar c +:+ escape s'
  end.

Definition quote (s : string) : string :=
  String dquote (escape s +:+ String dquote "").

(** One character of the body of a JSON string, read back. [None] at
    the closing quote and on a malformed escape. *)
Definition hexValue (c : ascii) : option N :=
  let n := code c in
  if ((48 <=? n) && (n <=? 57))%N then Some (n - 48)%N
  else if ((97 <=? n) && (n <=? 102))%N then Some (n - 87)%N
  else None.

Definition readChar (s : string) : option (ascii * string) :=
  match s with
  | EmptyString => None
  | String c t =>
      if (code c =? 34)%N then None
      else if (code c =? 92)%N then
        match t with
        | EmptyString => None
        | String e t' =>
            let n := code e in
            if (n =? 98)%N then Some (ascii_of_N 8, t')
            else if (n =? 116)%N then Some (ascii_of_N 9, t')
            else if (n =? 110)%N then Some (ascii_of_N 10, t')
            else if (n =? 102)%N then Some (ascii_of_N 12, t')
            else if (n =? 114)%N then Some (ascii_of_N 13, t')
            else if (n =? 34)%N then Some (dquote, t')
            else if (n =? 92)%N then Some (backslash, t')
            else if (n =? 117)%N then
              match t' with
              | String _ (String _ (String h (String l t''))) =>
                  match hexValue h, hexValue l with
                  | Some a, Some b => Some (ascii_of_N (16 * a + b), t'')
                  | _, _ => None
                  end
              | _ => None
              end
            else None
        end
      else Some (c, t)
  end.

End Js.

(** The parts of the runtime the routes call and this development does
    not look into. *)
Class JsRuntime := {
  (** [Number(s)] for a query-string value; [None] is [NaN] or an
      infinity, which [z.coerce.number()] rejects. *)
  Number : string -> option Qc;
  (** [Number::toString], used by [JSON.stringify] and by the default
      sort comparator. *)
  Number_toString : Qc -> string;
  (** [createHash("md5").update(s).digest("hex")] *)
  md5_hex : string -> string
}.

(** ** Effects: exceptions, the Redis server, the command log *)

Inductive Error := RedisError | SyntaxError.

(** The result of an [await]ed call: a value, or a rejection (a thrown
    exception). *)
Inductive Outcome (A : Type) :=
| Returned (a : A)
| Raised (e : Error).
Arguments Returned {A} a.
Arguments Raised {A} e.

Module Redis.

(** Commands sent by the cache helpers. *)
Inductive Command :=
| GET (key : string)
| SET (key : string) (seconds : Z).

(** The text kept under a key, up to what [JSON.parse] makes of it:
    [Json v] is a text that parses to [v], [Garbage] a text that
    [JSON.parse] rejects. *)
Inductive Text (T : Type) :=
| Json (v : T)
| Garbage.
Arguments Json {T} v.
Arguments Garbage {T}.

Record Entry (T : Type) := { value : Text T; ex : Z }.
Arguments value {T} _.
Arguments ex {T} _.

(** The server as the client sees it: the keyspace, and for the n-th
    command sent whether it fails (connection refused, timeout). *)
Record Server (T : Type) := {
  store : gmap string (Entry T);
  outage : nat -> bool;
  served : nat
}.
Arguments store {T} _.
Arguments outage {T} _.
Arguments served {T} _.

Section Commands.
Context {T : Type}.

Definition tick (s : Server T) (st : gmap string (Entry T)) : Server T :=
  {| store := st; outage := outage s; served := S (served s) |}.

(** [redis.get(key)] *)
Definition get (key : string) (s : Server T)
  : Outcome (option (Text T)) * Server T :=
  if outage s (served s) then (Raised RedisError, tick s (store s))
  else (Returned (value <$> store s !! key), tick s (store s)).

(** [redis.set(key, text, "EX", seconds)] *)
Definition set (key : string) (text : Text T) (seconds : Z) (s : Server T)
  : Outcome unit * Server T :=
  if outage s (served s) then (Raised RedisError, tick s (store s))
  else (Returned tt,
        tick s (<[key := {| value := text; ex := seconds |}]> (store s))).

(** A server that answers every command, with the given keyspace. *)
Definition healthy (st : gmap string (Entry T)) : Server T :=
  {| store := st; outage := fun _ => false; served := 0 |}.

(** A server that fails every command. *)
Definition unreachable (st : gmap string (Entry T)) : Server T :=
  {| store := st; outage := fun _ => true; served := 0 |}.
End Commands.

End Redis.

(** What a handler has sent out: Redis commands and SQL queries, in
    order. [Q] is the type of the route's queries. *)
Inductive Event (Q : Type) :=
| ToRedis (c : Redis.Command)
| ToDb (q : Q).
Arguments ToRedis {Q} c.
Arguments ToDb {Q} q.

Record World (Q T : Type) := {
  redis : Redis.Server T;
  log : list (Event Q)
}.
Arguments redis {Q T} _.
Arguments log {Q T} _.

(** Asynchronous code over a world: a state and exception monad. *)
Definition Task (Q T A : Type) : Type := World Q T -> Outcome A * World Q T.

Section TaskOps.
Context {Q T : Type}.

Definition ret {A} (a : A) : Task Q T A := fun w => (Returned a, w).

Definition bind {A B} (m : Task Q T A) (k : A -> Task Q T B) : Task Q T B :=
  fun w =>
    match m w with
    | (Returned a, w') => k a w'
    | (Raised e, w') => (Raised e, w')
    end.

Definition throw {A} (e : Error) : Task Q T A := fun w => (Raised e, w).

(** [try { m } catch { h }] *)
Definition try_catch {A} (m : Task Q T A) (h : Task Q T A) : Task Q T A :=
  fun w =>
    match m w with
    | (Returned a, w') => (Returned a, w')
    | (Raised _, w') => h w'
    end.

Definition emit (e : Event Q) : Task Q T unit :=
  fun w => (Returned tt, {| redis := redis w; log := log w ++ [e] |}).

(** The world after the statements [qs] have been sent. *)
Definition logged (w : World Q T) (qs : list Q) : World Q T :=
  {| redis := redis w; log := log w ++ (ToDb <$> qs) |}.

(** Run a Redis command against the server of the world. *)
Definition on_redis {A} (f : Redis.Server T -> Outcome A * Redis.Server T)
  : Task Q T A :=
  fun w =>
    let '(r, s') := f (redis w) in
    (r, {| redis := s'; log := log w |}).

Definition redis_get (key : string) : Task Q T (option (Redis.Text T)) :=
  bind (emit (ToRedis (Redis.GET key))) (fun _ => on_redis (Redis.get key)).

Definition redis_set (key : string) (text : Redis.Text T) (seconds : Z)
  : Task Q T unit :=
  bind (emit (ToRedis (Redis.SET key seconds)))
       (fun _ => on_redis (Redis.set key text seconds)).

(** [JSON.parse(text)] *)
Definition JSON_parse (text : Redis.Text T) : Task Q T T :=
  match text with
  | Redis.Json v => ret v
  | Redis.Garbage => throw SyntaxError
  end.

(** [JSON.stringify(data)] of a plain response object. *)
Definition JSON_stringify (data : T) : Redis.Text T := Redis.Json data.
End TaskOps.

Notation "'let!' x ':=' m 'in' k" := (bind m (fun x => k))
  (at level 10, x pattern, m at level 100, k at level 200).

(** ** [lib/cache.ts] *)

Module Cache.
Section Helpers.
Context {Q T : Type}.

(** [cacheGet]: [null] on a miss and on any error. *)
Definition cacheGet (key : string) : Task Q T (option T) :=
  try_catch
    (let! data := redis_get key in
     match data with
     | None => ret None
     | Some text => let! v := JSON_parse text in ret (Some v)
     end)
    (ret None).

(** [cacheSet]: errors are swallowed. *)
Definition cacheSet (key : string) (data : T) (ttlSeconds : Z)
  : Task Q T unit :=
  try_catch
    (redis_set key (JSON_stringify data) ttlSeconds)
    (ret tt).

(** What [cacheGet] finds: nothing when the command fails, when the
    key is absent and when the text does not parse. *)
Definition found (s : Redis.Server T) (key : string) : option T :=
  if Redis.outage s (Redis.served s) then None
  else match Redis.store s !! key with
       | Some {| Redis.value := Redis.Json v |} => Some v
       | _ => None
       end.

(** The world after [cacheGet]. *)
Definition afterGet (w : World Q T) (key : string) : World Q T :=
  {| redis := Redis.tick (redis w) (Redis.store (redis w));
     log := log w ++ [ToRedis (Redis.GET key)] |}.

(** The world after [cacheSet]: the entry is written unless the
    command fails. *)
Definition afterSet (w : World Q T) (key : string) (data : T) (seconds : Z)
  : World Q T :=
  {| redis :=
       Redis.tick (redis w)
         (if Redis.outage (redis w) (Redis.served (redis w))
          then Redis.store (redis w)
          else <[key := {| Redis.value := Redis.Json data;
                           Redis.ex := seconds |}]> (Redis.store (redis w)));
     log := log w ++ [ToRedis (Redis.SET key seconds)] |}.
End Helpers.
End Cache.

(** ** [lib/cache.ts]: the two functions that delete keys *)

Module Invalidation.

(** What the server does with [SCAN] and this development does not look
    into: the keys sit in a table of [S lastSlot] slots, a key in the
    slot [slotOf] gives it; a call with cursor [c] answers the keys of
    slot [c] that match the pattern, and the cursor of the next slot,
    [0] after the last one. [COUNT] is a hint on the work of one call
    and does not change what a full iteration returns. *)
Class Keyspace := {
  lastSlot : nat;
  slotOf : string -> nat;
  (** glob-style matching of a key against a [MATCH] pattern *)
  glob : string -> string -> bool
}.

(** The commands the two functions send. The cursor is the number the
    client holds as a decimal string; [cursor !== "0"] is [cursor <> 0]. *)
Inductive Command :=
| DEL (keys : list string)
| SCAN (cursor : nat) (pattern : string) (count : Z).

Section Commands.
Context {T : Type} {ks : Keyspace}.

Definition slot (k : string) : nat := slotOf k mod S lastSlot.

Definition nextCursor (cursor : nat) : nat :=
  if (cursor <? lastSlot)%nat then S cursor else 0%nat.

(** [redis.del(...keys)]; the count it answers is not used. *)
Definition del (keys : list string) (s : Redis.Server T)
  : Outcome unit * Redis.Server T :=
  if Redis.outage s (Redis.served s)
  then (Raised RedisError, Redis.tick s (Redis.store s))
  else (Returned tt, Redis.tick s (foldr delete (Redis.store s) keys)).

(** [redis.scan(cursor, "MATCH", pattern, "COUNT", count)] *)
Definition scan (cursor : nat) (pattern : string) (s : Redis.Server T)
  : Outcome (nat * list string) * Redis.Server T :=
  if Redis.outage s (Redis.served s)
  then (Raised RedisError, Redis.tick s (Redis.store s))
  else (Returned
          (nextCursor cursor,
           filter (fun k => slot k = cursor /\ glob pattern k = true)
                  (map_to_list (Redis.store s)).*1),
        Redis.tick s (Redis.store s)).

(** [cacheDelete]: the error of a failed [DEL] is swallowed. The result
    is what was sent and the server afterwards. *)
Definition cacheDelete (key : string) (s : Redis.Server T)
  : list Command * Redis.Server T :=
  match del [key] s with
  | (Returned _, s') => ([DEL [key]], s')
  | (Raised _, s') => ([DEL [key]], s')
  end.

(** The [do { ... } while (cursor !== "0")] loop of
    [cacheDeletePattern], from the call of [scan] with [cursor].
    [None]: the loop has not finished within [fuel] rounds. *)
Fixpoint scanLoop (fuel : nat) (pattern : string) (cursor : nat)
    (s : Redis.Server T)
  : option (Outcome unit * list Command * Redis.Server T) :=
  match fuel with
  | O => None
  | S fuel' =>
      match scan cursor pattern s with
      | (Raised e, s1) => Some (Raised e, [SCAN cursor pattern 100], s1)
      | (Returned (next, keys), s1) =>
          match keys with
          | [] =>
              if (next =? 0)%nat
              then Some (Returned tt, [SCAN cursor pattern 100], s1)
              else
                '(r, sent, s3) ← scanLoop fuel' pattern next s1;
                Some (r, SCAN cursor pattern 100 :: sent, s3)
          | _ :: _ =>
              match del keys s1 with
              | (Raised e, s2) =>
                  Some (Raised e, [SCAN cursor pattern 100; DEL keys], s2)
              | (Returned _, s2) =>
                  if (next =? 0)%nat
                  then Some (Returned tt,
                             [SCAN cursor pattern 100; DEL keys], s2)
                  else
                    '(r, sent, s3) ← scanLoop fuel' pattern next s2;
                    Some (r, SCAN cursor pattern 100 :: DEL keys :: sent, s3)
              end
          end
      end
  end.

(** [cacheDeletePattern]: the loop starts at cursor ["0"]; whatever it
    throws is swallowed. *)
Definition cacheDeletePattern (fuel : nat) (pattern : string)
    (s : Redis.Server T) : option (list Command * Redis.Server T) :=
  '(_, sent, s') ← scanLoop fuel pattern 0 s;
  Some (sent, s').
End Commands.

(** No command sent to the server fails from now on. *)
Definition up {T} (s : Redis.Server T) : Prop :=
  forall n, (Redis.served s <= n)%nat -> Redis.outage s n = false.

(** The keys a command asks to delete. *)
Definition deleted (c : Command) : list string :=
  match c with
  | DEL keys => keys
  | SCAN _ _ _ => []
  end.

End Invalidation.

(** ** The database: tables, PostgreSQL functions, [WHERE] and [ORDER BY] *)

Module Sql.

Record Point := { point_lat : Q; point_lng : Q }.

(** Table [restaurants] ([packages/db/src/schema.ts]). *)
Record Restaurant := {
  id : Z;
  name : string;
  slug : string;
  address : option string;
  district : option string;
  neighborhood : option string;
  location : option Point;
  phone : option string;
  website : option string;
  cuisineType : option (list string);
  priceRange : option Z;
  overallScore : option Z;
  totalReviews : Z;
  isActive : bool;
  imageUrl : option string;
  createdAt : Z;
  updatedAt : Z
}.

(** Table [food_scores]. The column [score] is declared [NOT NULL]; the
    search route still guards with [IS NOT NULL], so the model keeps the
    column nullable. *)
Record FoodScore := {
  fs_id : Z;
  fs_restaurantId : Z;
  fs_foodName : string;
  fs_score : option Z;
  fs_reviewCount : Z;
  fs_confidence : option Z;
  fs_sentimentDistribution : option (Z * Z * Z)
}.

(** Table [dishes]; [d_searchVector] is the text the [tsvector] column
    was built from. *)
Record Dish := {
  d_id : Z;
  d_name : string;
  d_slug : string;
  d_canonicalName : option string;
  d_category : option string;
  d_searchVector : option string
}.

(** Table [restaurant_platforms]. *)
Record Platform := {
  p_id : Z;
  p_restaurantId : Z;
  p_platform : string;
  p_externalUrl : option string;
  p_platformScore : option Z;
  p_platformReviews : Z
}.

(** Table [reviews]. *)
Record Review := {
  r_id : Z;
  r_restaurantPlatformId : Z;
  r_authorName : option string;
  r_rating : option Z;
  r_text : string;
  r_reviewDate : option Z
}.

(** Table [food_mentions]. *)
Record FoodMention := {
  m_id : Z;
  m_reviewId : Z;
  m_canonicalName : option string;
  m_sentiment : option string
}.

Record Database := {
  restaurants : list Restaurant;
  foodScores : list FoodScore;
  dishes : list Dish;
  restaurantPlatforms : list Platform;
  reviews : list Review;
  foodMentions : list FoodMention
}.

(** The database without the venues that are switched off. *)
Definition dropInactive (db : Database) : Database :=
  {| restaurants := filter (fun r => isActive r = true) (restaurants db);
     foodScores := foodScores db;
     dishes := dishes db;
     restaurantPlatforms := restaurantPlatforms db;
     reviews := reviews db;
     foodMentions := foodMentions db |}.

(** Functions evaluated inside PostgreSQL (pg_trgm, full-text search,
    unaccent, PostGIS). *)
Class Postgres := {
  (** [similarity(text, text)] of pg_trgm *)
  similarity : string -> string -> Q;
  (** [to_tsvector('turkish', doc) @@ plainto_tsquery('turkish', query)] *)
  fts_match : string -> string -> bool;
  unaccent : string -> string;
  lower : string -> string;
  (** [ST_Distance] over geographies, in metres *)
  ST_Distance : Point -> Point -> Q;
  (** [ST_DWithin] over geographies, radius in metres *)
  ST_DWithin : Point -> Point -> Z -> bool;
  (** what a [select()] hands over for a stored point: [fromDriver] of
      the custom type [geography] in [schema.ts], applied to the text
      the driver returns for the column; it answers [{ lat: 0, lng: 0 }]
      for a text without [POINT(lng lat)] *)
  geographyFromDriver : Point -> Point
}.

Definition Qltb (x y : Q) : bool := negb (Qle_bool y x).

(** [ST_SetSRID(ST_MakePoint(lng, lat), 4326)::geography] *)
Definition makePoint (lng lat : Qc) : Point :=
  {| point_lat := this lat; point_lng := this lng |}.

Definition coalesce (o : option string) (d : string) : string :=
  match o with Some s => s | None => d end.

(** *** [WHERE] fragments over [restaurants]

    One constructor per SQL fragment the routes build. A fragment that
    evaluates to [NULL] filters the row out, like [false]. *)
Inductive Condition :=
| IsActive
| SlugIs (s : string)
| TextMatch (q : string)
| NameMatch (q : string)
| DistrictIs (d : string)
| CuisineIs (c : string)
| PriceRangeIs (p : Qc)
| MinScore (m : Qc)
| WithinRadius (lng lat : Qc) (metres : Z).

Section Eval.
Context {pg : Postgres}.

Definition holds (c : Condition) (r : Restaurant) : bool :=
  match c with
  | IsActive => isActive r
  | SlugIs s => String.eqb (slug r) s
  | TextMatch q =>
      fts_match (name r +:+ " " +:+ coalesce (address r) "") (unaccent q)
      || Qltb (2 # 10) (similarity (name r) q)
  | NameMatch q =>
      Qltb (2 # 10) (similarity (name r) q)
      || fts_match (name r) (unaccent q)
  | DistrictIs d =>
      match district r with
      | Some x => String.eqb (lower x) (lower d)
      | None => false
      end
  | CuisineIs c =>
      match cuisineType r with
      | Some tags => existsb (String.eqb c) tags
      | None => false
      end
  | PriceRangeIs p =>
      match priceRange r with
      | Some x => Qeq_bool (inject_Z x) (this p)
      | None => false
      end
  | MinScore m =>
      match overallScore r with
      | Some s => Qle_bool (this m) (s # 100)
      | None => false
      end
  | WithinRadius lng lat metres =>
      match location r with
      | Some pt => ST_DWithin pt (makePoint lng lat) metres
      | None => false
      end
  end.

(** [sql.join(conditions, sql` AND `)] *)
Definition whereAll (conds : list Condition) (r : Restaurant) : bool :=
  forallb (fun c => holds c r) conds.
End Eval.

(** *** [ORDER BY] *)

Inductive Direction := Asc | Desc.
Inductive Nulls := NullsFirst | NullsLast.

(** PostgreSQL's default: [NULLS LAST] for [ASC], [NULLS FIRST] for
    [DESC]. *)
Definition defaultNulls (d : Direction) : Nulls :=
  match d with Asc => NullsLast | Desc => NullsFirst end.

Record Term (E : Type) := { expr : E; dir : Direction; nulls : Nulls }.
Arguments expr {E} _.
Arguments dir {E} _.
Arguments nulls {E} _.

Definition asc {E} (e : E) : Term E :=
  {| expr := e; dir := Asc; nulls := defaultNulls Asc |}.
Definition desc {E} (e : E) : Term E :=
  {| expr := e; dir := Desc; nulls := defaultNulls Desc |}.
Definition descNullsLast {E} (e : E) : Term E :=
  {| expr := e; dir := Desc; nulls := NullsLast |}.

(** [a] sorts strictly before [b] under one term. *)
Definition key_before (d : Direction) (n : Nulls) (a b : option Q) : bool :=
  match a, b with
  | None, None => false
  | None, Some _ => match n with NullsFirst => true | NullsLast => false end
  | Some _, None => match n with NullsFirst => false | NullsLast => true end
  | Some x, Some y => match d with Asc => Qltb x y | Desc => Qltb y x end
  end.

Section OrderBy.
Context {R E : Type} (eval : E -> R -> option Q).

Definition term_before (t : Term E) (a b : R) : bool :=
  key_before (dir t) (nulls t) (eval (expr t) a) (eval (expr t) b).

(** Lexicographic order over the terms of the clause. *)
Fixpoint row_before (ts : list (Term E)) (a b : R) : bool :=
  match ts with
  | [] => false
  | t :: ts' =>
      term_before t a b || (negb (term_before t b a) && row_before ts' a b)
  end.

(** Rows that tie on every term stay in physical order. *)
Definition orderBy (ts : list (Term E)) (rows : list R) : list R :=
  stable_sort (row_before ts) rows.
End OrderBy.

(** [LIMIT l OFFSET o] *)
Definition limitOffset {R} (l : option Z) (o : Z) (rows : list R) : list R :=
  let rest := drop (Z.to_nat o) rows in
  match l with
  | Some n => take (Z.to_nat n) rest
  | None => rest
  end.

(** Sort expressions over [restaurants]. *)
Inductive RestaurantExpr :=
| OverallScore
| CreatedAt
| DistanceTo (lng lat : Qc)
| SimilarityToName (q : string)
| NoValue.

(** Sort expressions over [dishes]. *)
Inductive DishExpr := SimilarityToDish (q : string).

(** Sort expressions over [reviews]. *)
Inductive ReviewExpr := ReviewDate.

Definition reviewKey {P} (e : ReviewExpr) (row : Review * P) : option Q :=
  match e with
  | ReviewDate => inject_Z <$> r_reviewDate row.1
  end.

(** Sort expressions over [food_scores]. *)
Inductive FoodScoreExpr := Score.

Definition foodScoreKey (e : FoodScoreExpr) (d : FoodScore) : option Q :=
  match e with
  | Score => (fun s => s # 100) <$> fs_score d
  end.

Section RestaurantQueries.
Context {pg : Postgres}.

Definition restaurantKey (e : RestaurantExpr) (r : Restaurant) : option Q :=
  match e with
  | OverallScore => (fun s => s # 100) <$> overallScore r
  | CreatedAt => Some (inject_Z (createdAt r))
  | DistanceTo lng lat =>
      (fun pt => ST_Distance pt (makePoint lng lat)) <$> location r
  | SimilarityToName q => Some (similarity (name r) q)
  | NoValue => None
  end.

(** [SELECT ... FROM restaurants WHERE .. ORDER BY .. LIMIT .. OFFSET ..] *)
Definition selectRestaurants (db : Database) (conds : list Condition)
    (order : list (Term RestaurantExpr)) (l : option Z) (o : Z)
  : list Restaurant :=
  limitOffset l o
    (orderBy restaurantKey order (filter (fun r => whereAll conds r = true)
                                         (restaurants db))).

(** [coalesce(canonical_name, name)] *)
Definition dishLabel (d : Dish) : string := coalesce (d_canonicalName d) (d_name d).

Definition dishKey (e : DishExpr) (d : Dish) : option Q :=
  match e with
  | SimilarityToDish q => Some (similarity (dishLabel d) q)
  end.

(** [SELECT count( * )::int FROM restaurants WHERE ..] *)
Definition countRestaurants (db : Database) (conds : list Condition) : Z :=
  Z.of_nat (length (filter (fun r => whereAll conds r = true)
                           (restaurants db))).
End RestaurantQueries.

End Sql.

(** ** Replies *)

(** An issue reported by the schema validator. *)
Inductive IssueCode := invalid_type | too_small | too_big | invalid_value.

Record Issue := { path : string; issue : IssueCode }.

(** What the client receives. [B] is the type of the route's body. *)
Inductive Reply (B : Type) :=
(** the handler returned [body]; status 200 *)
| Sent (xCache : string) (body : B)
(** [reply.status(statusCode).send({ statusCode, error, message })] *)
| Failed (statusCode : Z) (error : string) (message : string)
(** the validator compiled from the Zod schema refused the request:
    Fastify answers 400 Bad Request and the handler does not run *)
| Rejected (issues : list Issue).
Arguments Sent {B} xCache body.
Arguments Failed {B} statusCode error message.
Arguments Rejected {B} issues.

(** ** [routes/search.ts] *)

Module Search.

(** The keys of [SearchQuerySchema], in the order of the schema. *)
Inductive Field :=
| K_q | K_district | K_cuisine | K_price_range | K_min_score
| K_sort_by | K_page | K_limit | K_lat | K_lng.

#[global] Instance Field_eq_dec : EqDecision Field.
Proof. solve_decision. Defined.

Definition fieldName (f : Field) : string :=
  match f with
  | K_q => "q"
  | K_district => "district"
  | K_cuisine => "cuisine"
  | K_price_range => "price_range"
  | K_min_score => "min_score"
  | K_sort_by => "sort_by"
  | K_page => "page"
  | K_limit => "limit"
  | K_lat => "lat"
  | K_lng => "lng"
  end.

Definition schemaKeys : list Field :=
  [K_q; K_district; K_cuisine; K_price_range; K_min_score;
   K_sort_by; K_page; K_limit; K_lat; K_lng].

Inductive Value :=
| VString (s : string)
| VNumber (x : Qc).

(** [request.query] after validation: own properties in enumeration
    order. *)
Definition QueryObject : Type := list (Field * Value).

(** The raw query string as parsed by Fastify: parameter names and
    texts. *)
Definition RawQuery : Type := list (string * string).

Definition rawGet (raw : RawQuery) (k : string) : option string :=
  Js.getProperty raw k.

Definition cuisines : list string :=
  ["turk"; "kebap"; "balik"; "doner"; "pide_lahmacun"; "ev_yemekleri";
   "sokak_lezzetleri"; "tatli_pasta"; "kahvalti"; "italyan"; "uzakdogu";
   "fast_food"; "vegan"; "diger"].

Definition sortModes : list string := ["score"; "distance"; "newest"].

Definition ofZ (z : Z) : Qc := Q2Qc (inject_Z z).

Definition isInt (x : Qc) : bool := Pos.eqb (Qden (this x)) 1.

Definition toZ (x : Qc) : Z := Qfloor (this x).

(** *** [SearchQuerySchema] *)

(** The result of one property schema on its input. *)
Inductive Checked :=
| Absent
| Accepted (v : Value)
| Refused (c : IssueCode).

Section Schema.
Context {rt : JsRuntime}.

Definition member (s : string) (l : list string) : bool :=
  existsb (String.eqb s) l.

(** [z.coerce.number()] followed by the checks [ok]. *)
Definition coerceNumber (ok : Qc -> option IssueCode) (s : string)
  : Checked :=
  match Number s with
  | None => Refused invalid_type
  | Some x =>
      match ok x with
      | Some c => Refused c
      | None => Accepted (VNumber x)
      end
  end.

Definition intCheck (x : Qc) : option IssueCode :=
  if isInt x then None else Some invalid_type.

Definition minCheck (lo : Z) (x : Qc) : option IssueCode :=
  if Qle_bool (inject_Z lo) (this x) then None else Some too_small.

Definition maxCheck (hi : Z) (x : Qc) : option IssueCode :=
  if Qle_bool (this x) (inject_Z hi) then None else Some too_big.

Definition positiveCheck (x : Qc) : option IssueCode :=
  if Sql.Qltb 0 (this x) then None else Some too_small.

(** The first failing check, in the order the checks are chained. *)
Fixpoint checks (cs : list (Qc -> option IssueCode)) (x : Qc)
  : option IssueCode :=
  match cs with
  | [] => None
  | c :: cs' => match c x with Some i => Some i | None => checks cs' x end
  end.

Definition optional (f : string -> Checked) (input : option string)
  : Checked :=
  match input with None => Absent | Some s => f s end.

Definition withDefault (d : Value) (f : string -> Checked)
    (input : option string) : Checked :=
  match input with None => Accepted d | Some s => f s end.

Definition required (f : string -> Checked) (input : option string)
  : Checked :=
  match input with None => Refused invalid_type | Some s => f s end.

Definition enum (allowed : list string) (s : string) : Checked :=
  if member s allowed then Accepted (VString s) else Refused invalid_value.

(** [z.string().min(lo).max(hi)]: the length is the number of code
    units of the string as received. *)
Definition stringBetween (lo hi : nat) (s : string) : Checked :=
  if (String.length s <? lo)%nat then Refused too_small
  else if (hi <? String.length s)%nat then Refused too_big
  else Accepted (VString s).

Definition propertySchema (f : Field) : option string -> Checked :=
  match f with
  | K_q => required (stringBetween 2 100)
  | K_district => optional (stringBetween 0 100)
  | K_cuisine => optional (enum cuisines)
  | K_price_range =>
      optional (coerceNumber (checks [intCheck; minCheck 1; maxCheck 4]))
  | K_min_score =>
      optional (coerceNumber (checks [minCheck 1; maxCheck 10]))
  | K_sort_by => withDefault (VString "score") (enum sortModes)
  | K_page =>
      withDefault (VNumber (ofZ 1))
        (coerceNumber (checks [intCheck; positiveCheck]))
  | K_limit =>
      withDefault (VNumber (ofZ 20))
        (coerceNumber (checks [intCheck; minCheck 1; maxCheck 50]))
  | K_lat =>
      optional (coerceNumber (checks [minCheck (-90); maxCheck 90]))
  | K_lng =>
      optional (coerceNumber (checks [minCheck (-180); maxCheck 180]))
  end.

Definition checkField (raw : RawQuery) (f : Field) : Checked :=
  propertySchema f (rawGet raw (fieldName f)).

(** The object schema walks its shape in order; unknown parameters
    are stripped. *)
Fixpoint parseKeys (raw : RawQuery) (keys : list Field)
  : list Issue * QueryObject :=
  match keys with
  | [] => ([], [])
  | f :: keys' =>
      let '(issues, obj) := parseKeys raw keys' in
      match checkField raw f with
      | Absent => (issues, obj)
      | Accepted v => (issues, (f, v) :: obj)
      | Refused c => ({| path := fieldName f; issue := c |} :: issues, obj)
      end
  end.

Definition parse (raw : RawQuery) : list Issue + QueryObject :=
  match parseKeys raw schemaKeys with
  | ([], obj) => inr obj
  | (issues, _) => inl issues
  end.
End Schema.

(** *** The cache key *)

Section CacheKey.
Context {rt : JsRuntime}.

(** [String(v)] of a property value. *)
Definition valueToString (v : Value) : string :=
  match v with
  | VString s => s
  | VNumber x => Number_toString x
  end.

(** [Array.prototype.toString] of the pair [[k, v]], which is what the
    default comparator of [sort()] compares. *)
Definition entryToString (e : Field * Value) : string :=
  fieldName e.1 +:+ "," +:+ valueToString e.2.

(** [JSON.stringify] of an object whose values are strings and
    numbers. *)
Definition jsonValue (v : Value) : string :=
  match v with
  | VString s => Js.quote s
  | VNumber x => Number_toString x
  end.

Definition jsonMember (e : Field * Value) : string :=
  Js.quote (fieldName e.1) +:+ ":" +:+ jsonValue e.2.

Fixpoint jsonTail (es : list (Field * Value)) : string :=
  match es with
  | [] => "}"
  | e :: es' => "," +:+ jsonMember e +:+ jsonTail es'
  end.

Definition JSON_stringify_object (obj : list (Field * Value)) : string :=
  match obj with
  | [] => "{}"
  | e :: es => "{" +:+ jsonMember e +:+ jsonTail es
  end.

(** The text that is hashed:
    [JSON.stringify(Object.fromEntries(Object.entries(request.query).sort()))] *)
Definition canonicalText (query : QueryObject) : string :=
  JSON_stringify_object (Js.fromEntries (Js.sort entryToString query)).

Definition cacheKey (query : QueryObject) : string :=
  "search:" +:+ md5_hex (canonicalText query).
End CacheKey.

(** *** Destructuring [request.query] *)

Definition getString (query : QueryObject) (f : Field) : option string :=
  match Js.getProperty query f with
  | Some (VString s) => Some s
  | _ => None
  end.

Definition getNumber (query : QueryObject) (f : Field) : option Qc :=
  match Js.getProperty query f with
  | Some (VNumber x) => Some x
  | _ => None
  end.

(** *** Statements sent to the database *)

Inductive Statement :=
| SelectPage (conditions : list Sql.Condition)
             (orderClause : Sql.Term Sql.RestaurantExpr)
             (limit offset : Z)
| SelectCount (conditions : list Sql.Condition)
| SelectTopDishes (restaurantIds : list Z).

(** *** The response body *)

Record TopDish := {
  foodName : string;
  score : option Z;
  reviewCount : Z
}.

Record Item := {
  id : Z;
  name : string;
  slug : string;
  address : option string;
  district : option string;
  neighborhood : option string;
  cuisineType : option (list string);
  priceRange : option Z;
  overallScore : option Z;
  totalReviews : Z;
  imageUrl : option string;
  distance : option Q;
  topDishes : list TopDish
}.

Record Pagination := {
  page : Z;
  limit : Z;
  total : Z;
  totalPages : Z;
  hasNext : bool;
  hasPrev : bool
}.

Record AppliedFilters := {
  af_district : option string;
  af_cuisine : option string;
  af_priceRange : option Qc;
  af_minScore : option Qc
}.

Record Meta := {
  query : string;
  appliedFilters : AppliedFilters;
  sortBy : string
}.

Record Response := {
  data : list Item;
  pagination : Pagination;
  meta : Meta
}.

(** *** The handler *)

(** [x == null] *)
Definition isNull {A} (o : option A) : bool :=
  match o with None => true | Some _ => false end.

(** [Math.ceil(a / b)] *)
Definition ceilDiv (a b : Z) : Z := (- ((- a) / b))%Z.

Definition truthyString (o : option string) : option string :=
  match o with
  | Some s => if Js.truthy_string s then Some s else None
  | None => None
  end.

Definition truthyNumber (o : option Qc) : option Qc :=
  match o with
  | Some x => if Js.truthy_number x then Some x else None
  | None => None
  end.

Definition push {A} (o : option A) (f : A -> Sql.Condition)
  : list Sql.Condition :=
  match o with Some a => [f a] | None => [] end.

(** The array [conditions] after the five [if]s. *)
Definition conditions (q : string) (district cuisine : option string)
    (price_range min_score lat lng : option Qc) : list Sql.Condition :=
  [Sql.IsActive; Sql.TextMatch q]
  ++ push (truthyString district) Sql.DistrictIs
  ++ push (truthyString cuisine) Sql.CuisineIs
  ++ push (truthyNumber price_range) Sql.PriceRangeIs
  ++ push (truthyNumber min_score) Sql.MinScore
  ++ match lat, lng with
     | Some la, Some ln => [Sql.WithinRadius ln la 10000]
     | _, _ => []
     end.

(** [ST_Distance(location, ST_MakePoint(lng, lat))]: a missing
    coordinate makes the expression [NULL]. *)
Definition distanceExpr (lat lng : option Qc) : Sql.RestaurantExpr :=
  match lat, lng with
  | Some la, Some ln => Sql.DistanceTo ln la
  | _, _ => Sql.NoValue
  end.

(** The [switch (sort_by)]. *)
Definition orderClause (sort_by : string) (lat lng : option Qc)
  : Sql.Term Sql.RestaurantExpr :=
  if String.eqb sort_by "distance" then Sql.asc (distanceExpr lat lng)
  else if String.eqb sort_by "newest" then Sql.desc Sql.CreatedAt
  else Sql.descNullsLast Sql.OverallScore.

Definition toTopDish (dish : Sql.FoodScore) : TopDish :=
  {| foodName := Sql.fs_foodName dish;
     score := Sql.fs_score dish;
     reviewCount := Sql.fs_reviewCount dish |}.

(** The [for (const dish of topDishesResult)] loop over [dishMap]. *)
Definition addDish (dishMap : gmap Z (list TopDish)) (dish : Sql.FoodScore)
  : gmap Z (list TopDish) :=
  let existing := default [] (dishMap !! Sql.fs_restaurantId dish) in
  if (length existing <? 3)%nat
  then <[Sql.fs_restaurantId dish := existing ++ [toTopDish dish]]> dishMap
  else dishMap.

Definition groupTopDishes (topDishesResult : list Sql.FoodScore)
  : gmap Z (list TopDish) :=
  fold_left addDish topDishesResult ∅.

Section Handler.
Context {rt : JsRuntime} {pg : Sql.Postgres}.

(** The query over [food_scores]: the rows of the page's restaurants
    with a score, best score first. *)
Definition selectTopDishes (db : Sql.Database) (restaurantIds : list Z)
  : list Sql.FoodScore :=
  Sql.orderBy Sql.foodScoreKey [Sql.desc Sql.Score]
    (filter (fun d => Sql.fs_restaurantId d ∈ restaurantIds
                      ∧ Sql.fs_score d ≠ None)
            (Sql.foodScores db)).

Definition toItem (lat lng : option Qc) (dishMap : gmap Z (list TopDish))
    (r : Sql.Restaurant) : Item :=
  {| id := Sql.id r;
     name := Sql.name r;
     slug := Sql.slug r;
     address := Sql.address r;
     district := Sql.district r;
     neighborhood := Sql.neighborhood r;
     cuisineType := Sql.cuisineType r;
     priceRange := Sql.priceRange r;
     overallScore := Sql.overallScore r;
     totalReviews := Sql.totalReviews r;
     imageUrl := Sql.imageUrl r;
     distance :=
       (fun metres => metres / 1000)%Q
         <$> Sql.restaurantKey (distanceExpr lat lng) r;
     topDishes := default [] (dishMap !! Sql.id r) |}.

(** The destructured [request.query]. The schema makes [q],
    [sort_by], [page] and [limit] present; should one be missing the
    model reads the default of the schema ([""] for [q]). *)
Definition q_ (rq : QueryObject) : string := default "" (getString rq K_q).
Definition district_ (rq : QueryObject) := getString rq K_district.
Definition cuisine_ (rq : QueryObject) := getString rq K_cuisine.
Definition price_range_ (rq : QueryObject) := getNumber rq K_price_range.
Definition min_score_ (rq : QueryObject) := getNumber rq K_min_score.
Definition sort_by_ (rq : QueryObject) : string :=
  default "score" (getString rq K_sort_by).
Definition page_ (rq : QueryObject) : Z :=
  toZ (default (ofZ 1) (getNumber rq K_page)).
Definition limit_ (rq : QueryObject) : Z :=
  toZ (default (ofZ 20) (getNumber rq K_limit)).
Definition lat_ (rq : QueryObject) := getNumber rq K_lat.
Definition lng_ (rq : QueryObject) := getNumber rq K_lng.

Definition offset_ (rq : QueryObject) : Z := ((page_ rq - 1) * limit_ rq)%Z.

Definition whereClause (rq : QueryObject) : list Sql.Condition :=
  conditions (q_ rq) (district_ rq) (cuisine_ rq) (price_range_ rq)
             (min_score_ rq) (lat_ rq) (lng_ rq).

Definition orderOf (rq : QueryObject) : Sql.Term Sql.RestaurantExpr :=
  orderClause (sort_by_ rq) (lat_ rq) (lng_ rq).

(** The rows of the page query. *)
Definition results (db : Sql.Database) (rq : QueryObject)
  : list Sql.Restaurant :=
  Sql.selectRestaurants db (whereClause rq) [orderOf rq]
    (Some (limit_ rq)) (offset_ rq).

(** The object literal [response]. *)
Definition assemble (rq : QueryObject) (rows : list Sql.Restaurant)
    (total : Z) (dishMap : gmap Z (list TopDish)) : Response :=
  let totalPages := ceilDiv total (limit_ rq) in
  {| data := toItem (lat_ rq) (lng_ rq) dishMap <$> rows;
     pagination :=
       {| page := page_ rq; limit := limit_ rq; total := total;
          totalPages := totalPages;
          hasNext := (page_ rq <? totalPages)%Z;
          hasPrev := (1 <? page_ rq)%Z |};
     meta :=
       {| query := q_ rq;
          appliedFilters :=
            {| af_district := district_ rq; af_cuisine := cuisine_ rq;
               af_priceRange := price_range_ rq;
               af_minScore := min_score_ rq |};
          sortBy := sort_by_ rq |} |}.

(** Everything after the cache lookup and the coordinate check: the
    page query and the count query, then the query for the dishes of
    the page, then the response. *)
Definition compute (db : Sql.Database) (rq : QueryObject)
  : Task Statement Response Response :=
  let! _ := emit (ToDb (SelectPage (whereClause rq) (orderOf rq)
                                   (limit_ rq) (offset_ rq))) in
  let rows := results db rq in
  let! _ := emit (ToDb (SelectCount (whereClause rq))) in
  let total := Sql.countRestaurants db (whereClause rq) in
  let restaurantIds := Sql.id <$> rows in
  let! dishMap :=
    match restaurantIds with
    | [] => ret ∅
    | _ :: _ =>
        let! _ := emit (ToDb (SelectTopDishes restaurantIds)) in
        ret (groupTopDishes (selectTopDishes db restaurantIds))
    end in
  ret (assemble rq rows total dishMap).

(** What [compute] returns and what it sends, as functions of the
    database and the query. *)
Definition dishMapOf (db : Sql.Database) (rows : list Sql.Restaurant)
  : gmap Z (list TopDish) :=
  groupTopDishes (selectTopDishes db (Sql.id <$> rows)).

Definition respond (db : Sql.Database) (rq : QueryObject) : Response :=
  assemble rq (results db rq) (Sql.countRestaurants db (whereClause rq))
           (dishMapOf db (results db rq)).

Definition statements (db : Sql.Database) (rq : QueryObject)
  : list Statement :=
  [SelectPage (whereClause rq) (orderOf rq) (limit_ rq) (offset_ rq);
   SelectCount (whereClause rq)]
  ++ match Sql.id <$> results db rq with
     | [] => []
     | ids => [SelectTopDishes ids]
     end.

Definition coordinatesMessage : string :=
  "Mesafeye gore siralama icin lat ve lng parametreleri gereklidir.".

(** [sort_by === "distance" && (lat == null || lng == null)] *)
Definition distanceWithoutCoordinates (rq : QueryObject) : bool :=
  String.eqb (sort_by_ rq) "distance"
  && (isNull (lat_ rq) || isNull (lng_ rq)).

(** The route handler, from the cache lookup to the reply. *)
Definition handler (db : Sql.Database) (request_query : QueryObject)
  : Task Statement Response (Reply Response) :=
  let cacheKey := cacheKey request_query in
  let! cached := Cache.cacheGet cacheKey in
  match cached with
  | Some body => ret (Sent "HIT" body)
  | None =>
      if distanceWithoutCoordinates request_query
      then ret (Failed 400 "Bad Request" coordinatesMessage)
      else
        let! response := compute db request_query in
        let! _ := Cache.cacheSet cacheKey response 300 in
        ret (Sent "MISS" response)
  end.

(** The route: the schema validator, then the handler. *)
Definition route (db : Sql.Database) (raw : RawQuery)
  : Task Statement Response (Reply Response) :=
  match parse raw with
  | inl issues => ret (Rejected issues)
  | inr request_query => handler db request_query
  end.
End Handler.

(** *** Vocabulary for the properties of the route *)

(** The conjunction of a statement over [restaurants]. *)
Definition conjunctionOf (st : Statement) : option (list Sql.Condition) :=
  match st with
  | SelectPage c _ _ _ => Some c
  | SelectCount c => Some c
  | SelectTopDishes _ => None
  end.

(** A logged event that is not a statement over [restaurants], or one
    whose conjunction has the fragment [is_active = true]. *)
Definition activeOnly (e : Event Statement) : Prop :=
  match e with
  | ToDb st =>
      match conjunctionOf st with
      | Some c => Sql.IsActive ∈ c
      | None => True
      end
  | ToRedis _ => True
  end.


(** [a] may stand before [b] when the nearest comes first. *)
Definition nearerFirst (a b : Item) : Prop :=
  match distance a, distance b with
  | Some x, Some y => (x <= y)%Q
  | _, _ => False
  end.

(** [a] may stand before [b] when the newest comes first. *)
Definition newerFirst (a b : Sql.Restaurant) : Prop :=
  (Sql.createdAt b <= Sql.createdAt a)%Z.

(** Scores in descending order, as far as both are known. *)
Definition betterOrEqual (a b : option Z) : Prop :=
  match a, b with
  | Some x, Some y => (y <= x)%Z
  | _, _ => True
  end.

(** Nearest first, equal distances by score descending. *)
Definition nearerThenBetter (a b : Item) : Prop :=
  match distance a, distance b with
  | Some x, Some y =>
      (x < y)%Q \/ (x == y /\ betterOrEqual (overallScore a) (overallScore b))
  | _, _ => True
  end.

(** [a] may stand before [b] when the best score comes first and the
    venues without a score come last. *)
Definition betterFirst (a b : Sql.Restaurant) : Prop :=
  match Sql.overallScore a, Sql.overallScore b with
  | Some x, Some y => (y <= x)%Z
  | Some _, None => True
  | None, Some _ => False
  | None, None => True
  end.

(** Newest first, equal timestamps by score descending. *)
Definition newerThenBetter (a b : Sql.Restaurant) : Prop :=
  (Sql.createdAt b < Sql.createdAt a)%Z
  \/ (Sql.createdAt a = Sql.createdAt b
      /\ betterOrEqual (Sql.overallScore a) (Sql.overallScore b)).

End Search.

(** ** Arithmetic on doubles *)

Module Double.

(** The integer nearest to [y], the even one of two that are equally
    near. *)
Definition nearestEven (y : Q) : Z :=
  let f := Qfloor y in
  match Qcompare (y - inject_Z f) (1 # 2) with
  | Lt => f
  | Gt => (f + 1)%Z
  | Eq => if Z.even f then f else (f + 1)%Z
  end.

(** The exponent of the last of the 53 significant bits of a positive
    [x]: the [e] with [2^52 <= x / 2^e < 2^53]. *)
Definition exponent (x : Q) : Z :=
  let k := (Z.log2 (Qnum x) - Z.log2 (Zpos (Qden x)) - 52)%Z in
  if Qle_bool (2 ^ 52) (x / 2 ^ k) then k else (k - 1)%Z.

Definition nearest (x : Q) : Q :=
  (inject_Z (nearestEven (x / 2 ^ exponent x)) * 2 ^ exponent x)%Q.

(** The double nearest to [x], ties to even: the value of an operation
    whose exact result is [x]. Exponents are not bounded: no overflow
    and no subnormal numbers, which the counts of a table (below
    [2^31]) and their quotients do not reach. *)
Definition ofQ (x : Q) : Q :=
  match Qnum x with
  | Z0 => 0%Q
  | Zpos _ => nearest x
  | Zneg _ => (- nearest (- x))%Q
  end.

(** [a / b] and [a * b] on numbers. *)
Definition div (a b : Q) : Q := ofQ (a / b).
Definition mul (a b : Q) : Q := ofQ (a * b).

(** [Math.round]: the nearest integer, the upper one of two that are
    equally near. *)
Definition Math_round (x : Q) : Z := Qfloor (x + (1 # 2)).

End Double.

(** ** [routes/restaurant.ts] *)

Module RestaurantDetail.

(** [/^[a-z0-9]+(?:-[a-z0-9]+)*$/] *)
Definition isSlugChar (c : ascii) : bool :=
  let n := Js.code c in
  ((97 <=? n) && (n <=? 122) || (48 <=? n) && (n <=? 57))%N.

Fixpoint slugTail (afterWord : bool) (s : string) : bool :=
  match s with
  | EmptyString => afterWord
  | String c s' =>
      if isSlugChar c then slugTail true s'
      else if (Js.code c =? 45)%N then afterWord && slugTail false s'
      else false
  end.

Definition slugFormat (s : string) : bool := slugTail false s.

(** [RestaurantDetailParamsSchema] *)
Definition checkSlug (s : string) : option IssueCode :=
  if (String.length s <? 1)%nat then Some too_small
  else if (255 <? String.length s)%nat then Some too_big
  else if slugFormat s then None
  else Some invalid_value.

Inductive Statement :=
| SelectRestaurant (conditions : list Sql.Condition) (limit : Z)
| SelectPlatforms (restaurantId : Z)
| SelectFoodScores (restaurantId : Z)
| SelectRecentReviews (restaurantId : Z) (limit : Z)
| SelectSentiment (restaurantId : Z)
| SelectMentions (reviewIds : list Z).

Record PlatformInfo := {
  platform : string;
  externalUrl : option string;
  platformScore : option Z;
  platformReviews : Z
}.

Record RestaurantInfo := {
  id : Z;
  name : string;
  slug : string;
  address : option string;
  district : option string;
  neighborhood : option string;
  location : option Sql.Point;
  phone : option string;
  website : option string;
  cuisineType : option (list string);
  priceRange : option Z;
  overallScore : option Z;
  totalReviews : Z;
  imageUrl : option string;
  platforms : list PlatformInfo
}.

Record FoodScoreInfo := {
  foodName : string;
  score : option Z;
  reviewCount : Z;
  confidence : option Z;
  sentimentDistribution : option (Z * Z * Z)
}.

Record Mention := { dishName : string; sentiment : option string }.

Record ReviewInfo := {
  rv_id : Z;
  authorName : option string;
  rating : option Z;
  text : string;
  reviewDate : option Z;
  rv_platform : string;
  mentionedDishes : list Mention
}.

Record Distribution := { positive : Z; negative : Z; neutral : Z }.

Record SentimentSummary := {
  totalAnalyzed : Z;
  overallSentiment : string;
  distribution : Distribution
}.

Record Response := {
  restaurant : RestaurantInfo;
  foodScores : list FoodScoreInfo;
  recentReviews : list ReviewInfo;
  sentimentSummary : SentimentSummary
}.

(** [Math.round((count / total) * 100)]: the quotient and the product
    are doubles. *)
Definition percent (count total : Z) : Z :=
  Double.Math_round
    (Double.mul (Double.div (inject_Z count) (inject_Z total)) 100).

Definition sentimentIs (label : string) (m : Sql.FoodMention) : bool :=
  match Sql.m_sentiment m with
  | Some s => String.eqb s label
  | None => false
  end.

Definition countZ {A} (f : A -> bool) (l : list A) : Z :=
  Z.of_nat (length (List.filter f l)).

(** The grouping loop over [mentionsByReview]. *)
Definition addMention (byReview : gmap Z (list Mention)) (m : Sql.FoodMention)
  : gmap Z (list Mention) :=
  let arr := default [] (byReview !! Sql.m_reviewId m) in
  <[Sql.m_reviewId m :=
      arr ++ [{| dishName := default "Bilinmeyen" (Sql.m_canonicalName m);
                 sentiment := Sql.m_sentiment m |}]]> byReview.

Section Handler.
Context {pg : Sql.Postgres}.

(** [reviews INNER JOIN restaurant_platforms] restricted to the
    platforms of one restaurant. *)
Definition reviewsOf (db : Sql.Database) (restaurantId : Z)
  : list (Sql.Review * Sql.Platform) :=
  r ← Sql.reviews db;
  p ← Sql.restaurantPlatforms db;
  if decide (Sql.r_restaurantPlatformId r = Sql.p_id p
             ∧ Sql.p_restaurantId p = restaurantId)
  then [(r, p)] else [].

(** [food_mentions INNER JOIN reviews INNER JOIN restaurant_platforms]
    restricted to one restaurant: the rows the aggregate counts. *)
Definition mentionsOf (db : Sql.Database) (restaurantId : Z)
  : list Sql.FoodMention :=
  m ← Sql.foodMentions db;
  rp ← reviewsOf db restaurantId;
  if decide (Sql.m_reviewId m = Sql.r_id rp.1) then [m] else [].

(** Query 2: the platforms of the restaurant. *)
Definition platformsOf (db : Sql.Database) (rid : Z) : list Sql.Platform :=
  filter (fun p => Sql.p_restaurantId p = rid) (Sql.restaurantPlatforms db).

(** Query 3: its dish scores, best first. *)
Definition scoresOf (db : Sql.Database) (rid : Z) : list Sql.FoodScore :=
  Sql.orderBy Sql.foodScoreKey [Sql.desc Sql.Score]
    (filter (fun d => Sql.fs_restaurantId d = rid) (Sql.foodScores db)).

(** Query 4: its ten most recent reviews. *)
Definition recentReviewsOf (db : Sql.Database) (rid : Z)
  : list (Sql.Review * Sql.Platform) :=
  Sql.limitOffset (Some 10%Z) 0
    (Sql.orderBy Sql.reviewKey [Sql.desc Sql.ReviewDate] (reviewsOf db rid)).

(** Query 6: the mentions of the reviews shown, none when no review is
    shown. *)
Definition dishMentionsOf (db : Sql.Database) (reviewIds : list Z)
  : list Sql.FoodMention :=
  filter (fun m => Sql.m_reviewId m ∈ reviewIds) (Sql.foodMentions db).

(** The sentiment summary computed from the aggregate of query 5. *)
Definition summarize (analyzed : list Sql.FoodMention) : SentimentSummary :=
  let total := Z.of_nat (length analyzed) in
  let positivePerc :=
    if (0 <? total)%Z
    then percent (countZ (sentimentIs "positive") analyzed) total
    else 0%Z in
  let negativePerc :=
    if (0 <? total)%Z
    then percent (countZ (sentimentIs "negative") analyzed) total
    else 0%Z in
  let neutralPerc :=
    if (0 <? total)%Z then (100 - positivePerc - negativePerc)%Z else 0%Z in
  let overall :=
    if (60 <=? positivePerc)%Z then "positive"
    else if (40 <=? negativePerc)%Z then "negative"
    else if (total =? 0)%Z then "neutral"
    else "mixed" in
  {| totalAnalyzed := total;
     overallSentiment := overall;
     distribution :=
       {| positive := positivePerc;
          negative := negativePerc;
          neutral := neutralPerc |} |}.

(** The object literal [response]. *)
Definition assemble (rest : Sql.Restaurant) (platformRows : list Sql.Platform)
    (scores : list Sql.FoodScore)
    (recentReviewsRaw : list (Sql.Review * Sql.Platform))
    (mentionsByReview : gmap Z (list Mention))
    (summary : SentimentSummary) : Response :=
  {| restaurant :=
       {| id := Sql.id rest;
          name := Sql.name rest;
          slug := Sql.slug rest;
          address := Sql.address rest;
          district := Sql.district rest;
          neighborhood := Sql.neighborhood rest;
          location := Sql.geographyFromDriver <$> Sql.location rest;
          phone := Sql.phone rest;
          website := Sql.website rest;
          cuisineType := Sql.cuisineType rest;
          priceRange := Sql.priceRange rest;
          overallScore := Sql.overallScore rest;
          totalReviews := Sql.totalReviews rest;
          imageUrl := Sql.imageUrl rest;
          platforms :=
            (fun p =>
               {| platform := Sql.p_platform p;
                  externalUrl := Sql.p_externalUrl p;
                  platformScore := Sql.p_platformScore p;
                  platformReviews := Sql.p_platformReviews p |})
              <$> platformRows |};
     foodScores :=
       (fun s =>
          {| foodName := Sql.fs_foodName s;
             score := Sql.fs_score s;
             reviewCount := Sql.fs_reviewCount s;
             confidence := Sql.fs_confidence s;
             sentimentDistribution := Sql.fs_sentimentDistribution s |})
         <$> scores;
     recentReviews :=
       (fun rp =>
          {| rv_id := Sql.r_id rp.1;
             authorName := Sql.r_authorName rp.1;
             rating := Sql.r_rating rp.1;
             text := Sql.r_text rp.1;
             reviewDate := Sql.r_reviewDate rp.1;
             rv_platform := Sql.p_platform rp.2;
             mentionedDishes :=
               default [] (mentionsByReview !! Sql.r_id rp.1) |})
         <$> recentReviewsRaw;
     sentimentSummary := summary |}.

(** Queries 2 to 6 and the assembly of the response. *)
Definition describe (db : Sql.Database) (rest : Sql.Restaurant)
  : Task Statement Response Response :=
  let rid := Sql.id rest in
  let! _ := emit (ToDb (SelectPlatforms rid)) in
  let platformRows := platformsOf db rid in
  let! _ := emit (ToDb (SelectFoodScores rid)) in
  let scores := scoresOf db rid in
  let! _ := emit (ToDb (SelectRecentReviews rid 10)) in
  let recentReviewsRaw := recentReviewsOf db rid in
  let! _ := emit (ToDb (SelectSentiment rid)) in
  let analyzed := mentionsOf db rid in
  let reviewIds := (fun rp => Sql.r_id rp.1) <$> recentReviewsRaw in
  let! dishMentionsResult :=
    match reviewIds with
    | [] => ret []
    | _ :: _ =>
        let! _ := emit (ToDb (SelectMentions reviewIds)) in
        ret (dishMentionsOf db reviewIds)
    end in
  let mentionsByReview := fold_left addMention dishMentionsResult ∅ in
  ret (assemble rest platformRows scores recentReviewsRaw mentionsByReview
                (summarize analyzed)).

(** What [describe] returns and what it sends, as functions of the
    database and the row. *)
Definition details (db : Sql.Database) (rest : Sql.Restaurant) : Response :=
  let rid := Sql.id rest in
  let recentReviewsRaw := recentReviewsOf db rid in
  assemble rest (platformsOf db rid) (scoresOf db rid) recentReviewsRaw
    (fold_left addMention
       (dishMentionsOf db ((fun rp => Sql.r_id rp.1) <$> recentReviewsRaw)) ∅)
    (summarize (mentionsOf db rid)).

Definition statements (db : Sql.Database) (rest : Sql.Restaurant)
  : list Statement :=
  let rid := Sql.id rest in
  [SelectPlatforms rid; SelectFoodScores rid; SelectRecentReviews rid 10;
   SelectSentiment rid]
  ++ match (fun rp => Sql.r_id rp.1) <$> recentReviewsOf db rid with
     | [] => []
     | reviewIds => [SelectMentions reviewIds]
     end.

(** Query 1, for the restaurant itself:
    [where(and(eq(slug, slug), eq(isActive, true))).limit(1)] *)
Definition detailConditions (slug : string) : list Sql.Condition :=
  [Sql.SlugIs slug; Sql.IsActive].

Definition restaurantResult (db : Sql.Database) (slug : string)
  : list Sql.Restaurant :=
  Sql.selectRestaurants db (detailConditions slug) [] (Some 1%Z) 0.

Definition notFoundMessage (slug : string) : string :=
  "Restoran bulunamadi: " +:+ slug.

Definition cacheKey (slug : string) : string := "restaurant:" +:+ slug.

Definition handler (db : Sql.Database) (slug : string)
  : Task Statement Response (Reply Response) :=
  let cacheKey := cacheKey slug in
  let! cached := Cache.cacheGet cacheKey in
  match cached with
  | Some body => ret (Sent "HIT" body)
  | None =>
      let! _ := emit (ToDb (SelectRestaurant (detailConditions slug) 1)) in
      match restaurantResult db slug with
      | [] => ret (Failed 404 "Not Found" (notFoundMessage slug))
      | rest :: _ =>
          let! response := describe db rest in
          let! _ := Cache.cacheSet cacheKey response 900 in
          ret (Sent "MISS" response)
      end
  end.

Definition route (db : Sql.Database) (slug : string)
  : Task Statement Response (Reply Response) :=
  match checkSlug slug with
  | Some c => ret (Rejected [{| path := "slug"; issue := c |}])
  | None => handler db slug
  end.
End Handler.

(** *** Vocabulary for the properties of the route *)

(** What the response says of one mention. *)
Definition mentionOf (m : Sql.FoodMention) : Mention :=
  {| dishName := default "Bilinmeyen" (Sql.m_canonicalName m);
     sentiment := Sql.m_sentiment m |}.

(** [a] may stand before [b] when the latest review comes first and the
    reviews without a date come before the others, as [DESC] has it. *)
Definition latestFirst (a b : ReviewInfo) : Prop :=
  match reviewDate a, reviewDate b with
  | Some x, Some y => (y <= x)%Z
  | None, _ => True
  | Some _, None => False
  end.

(** [a] may stand before [b] when the best score comes first and the
    rows without a score come before the others. *)
Definition bestScoreFirst (a b : FoodScoreInfo) : Prop :=
  match score a, score b with
  | Some x, Some y => (y <= x)%Z
  | None, _ => True
  | Some _, None => False
  end.

(** What the response says of one row of [food_scores]. *)
Definition scoreInfoOf (d : Sql.FoodScore) : FoodScoreInfo :=
  {| foodName := Sql.fs_foodName d;
     score := Sql.fs_score d;
     reviewCount := Sql.fs_reviewCount d;
     confidence := Sql.fs_confidence d;
     sentimentDistribution := Sql.fs_sentimentDistribution d |}.

(** A word of the slug pattern: one or more of [a-z0-9]. *)
Fixpoint isWord (s : string) : bool :=
  match s with
  | EmptyString => false
  | String c EmptyString => isSlugChar c
  | String c s' => isSlugChar c && isWord s'
  end.

(** Words joined by single hyphens. *)
Fixpoint hyphenated (words : list string) : string :=
  match words with
  | [] => ""
  | [w] => w
  | w :: ws => w +:+ "-" +:+ hyphenated ws
  end.

End RestaurantDetail.

(** ** [routes/autocomplete.ts] *)

Module Autocomplete.

(** [AutocompleteQuerySchema]: [q] is required, 2 to 50 code units. *)
Definition checkQ (input : option string) : string + IssueCode :=
  match input with
  | None => inr invalid_type
  | Some s =>
      if (String.length s <? 2)%nat then inr too_small
      else if (50 <? String.length s)%nat then inr too_big
      else inl s
  end.

Inductive Statement :=
| SelectRestaurants (conditions : list Sql.Condition)
                    (orderBy : list (Sql.Term Sql.RestaurantExpr))
                    (limit : Z)
| SelectDishes (q : string) (orderBy : list (Sql.Term Sql.DishExpr))
               (limit : Z).

Record RestaurantSuggestion := {
  id : Z;
  name : string;
  slug : string;
  district : option string;
  cuisineType : option (list string);
  overallScore : option Z
}.

Record DishSuggestion := {
  d_id : Z;
  d_name : string;
  d_slug : string;
  category : option string;
  restaurantCount : Z
}.

Record Response := {
  restaurants : list RestaurantSuggestion;
  dishes : list DishSuggestion
}.

Section Handler.
Context {pg : Sql.Postgres}.

Definition restaurantConditions (q : string) : list Sql.Condition :=
  [Sql.NameMatch q; Sql.IsActive].

Definition restaurantOrder (q : string) : list (Sql.Term Sql.RestaurantExpr) :=
  [Sql.desc (Sql.SimilarityToName q); Sql.desc Sql.OverallScore].

(** The restaurant query: [.limit(5)]. *)
Definition restaurantResults (db : Sql.Database) (q : string)
  : list Sql.Restaurant :=
  Sql.selectRestaurants db (restaurantConditions q) (restaurantOrder q)
    (Some 5%Z) 0.

(** The [WHERE] of the dish query. *)
Definition dishMatches (q : string) (d : Sql.Dish) : bool :=
  Sql.Qltb (2 # 10) (Sql.similarity (Sql.dishLabel d) q)
  || match Sql.d_searchVector d with
     | Some doc => Sql.fts_match doc (Sql.unaccent q)
     | None => false
     end.

Definition dishOrder (q : string) : list (Sql.Term Sql.DishExpr) :=
  [Sql.desc (Sql.SimilarityToDish q)].

(** The dish query: [.limit(5)]. *)
Definition dishResults (db : Sql.Database) (q : string) : list Sql.Dish :=
  Sql.limitOffset (Some 5%Z) 0
    (Sql.orderBy Sql.dishKey (dishOrder q)
       (filter (fun d => dishMatches q d = true) (Sql.dishes db))).

(** The correlated subquery [count(DISTINCT restaurant_id)]. *)
Definition restaurantCountOf (db : Sql.Database) (d : Sql.Dish) : Z :=
  Z.of_nat (length (remove_dups
    (Sql.fs_restaurantId
       <$> filter (fun s =>
                     Sql.lower (Sql.unaccent (Sql.fs_foodName s))
                     = Sql.lower (Sql.unaccent (Sql.dishLabel d)))
                  (Sql.foodScores db)))).

Definition toRestaurantSuggestion (r : Sql.Restaurant) : RestaurantSuggestion :=
  {| id := Sql.id r; name := Sql.name r; slug := Sql.slug r;
     district := Sql.district r; cuisineType := Sql.cuisineType r;
     overallScore := Sql.overallScore r |}.

Definition toDishSuggestion (db : Sql.Database) (d : Sql.Dish) : DishSuggestion :=
  {| d_id := Sql.d_id d; d_name := Sql.d_name d; d_slug := Sql.d_slug d;
     category := Sql.d_category d;
     restaurantCount := restaurantCountOf db d |}.

(** The object literal [response]. *)
Definition respond (db : Sql.Database) (q : string) : Response :=
  {| restaurants := toRestaurantSuggestion <$> restaurantResults db q;
     dishes := toDishSuggestion db <$> dishResults db q |}.

(** The two queries and the assembly of the response. *)
Definition compute (db : Sql.Database) (q : string)
  : Task Statement Response Response :=
  let! _ := emit (ToDb (SelectRestaurants (restaurantConditions q)
                                          (restaurantOrder q) 5)) in
  let! _ := emit (ToDb (SelectDishes q (dishOrder q) 5)) in
  ret (respond db q).

Definition statements (q : string) : list Statement :=
  [SelectRestaurants (restaurantConditions q) (restaurantOrder q) 5;
   SelectDishes q (dishOrder q) 5].

Definition cacheKey (q : string) : string :=
  "autocomplete:" +:+ Js.trim (Js.toLowerCase q).

Definition handler (db : Sql.Database) (request_q : string)
  : Task Statement Response (Reply Response) :=
  let q := Js.trim request_q in
  let cacheKey := cacheKey q in
  let! cached := Cache.cacheGet cacheKey in
  match cached with
  | Some body => ret (Sent "HIT" body)
  | None =>
      let! response := compute db q in
      let! _ := Cache.cacheSet cacheKey response 3600 in
      ret (Sent "MISS" response)
  end.

Definition route (db : Sql.Database) (input : option string)
  : Task Statement Response (Reply Response) :=
  match checkQ input with
  | inr c => ret (Rejected [{| path := "q"; issue := c |}])
  | inl request_q => handler db request_q
  end.
End Handler.

(** *** Orders used to state the properties of the suggestions *)

Section Orders.
Context {pg : Sql.Postgres}.

(** Descending scores with [NULL] first, the default of [DESC]. *)
Definition scoreDescNullsFirst (a b : option Z) : Prop :=
  match a, b with
  | Some x, Some y => (y <= x)%Z
  | None, _ => True
  | Some _, None => False
  end.

(** Most similar name first, equal similarities by score
    descending. *)
Definition closerThenBetter (q : string) (a b : Sql.Restaurant) : Prop :=
  (Sql.similarity (Sql.name b) q < Sql.similarity (Sql.name a) q)%Q
  \/ (Sql.similarity (Sql.name a) q == Sql.similarity (Sql.name b) q
      /\ scoreDescNullsFirst (Sql.overallScore a) (Sql.overallScore b)).

(** Most similar dish first. *)
Definition closerDish (q : string) (a b : Sql.Dish) : Prop :=
  (Sql.similarity (Sql.dishLabel b) q <= Sql.similarity (Sql.dishLabel a) q)%Q.

End Orders.

End Autocomplete.

(** ** [lib/redis.ts] *)

Module RedisClient.

(** The line [retryStrategy] writes: [console.error] with the number
    of attempts, or [console.warn] with the attempt and the delay. *)
Inductive Console :=
| error (times : Z)
| warn (times : Z) (delay : Z).

(** [retryStrategy(times)]: the milliseconds to wait before the next
    attempt to connect, or [None] for [null], which ends the attempts. *)
Definition retryStrategy (times : Z) : Console * option Z :=
  if (10 <? times)%Z then (error times, None)
  else
    let delay := Z.min (times * 200) 5000 in
    (warn times delay, Some delay).

End RedisClient.

(** ** [routes/dish.ts] *)

Module DishDetail.

(** [DishDetailParamsSchema]: whether the validator lets the parameter
    through, that is, whether none of [min(1)], [max(255)] and the
    pattern of the restaurant slugs raises an issue. *)
Definition DishDetailParamsSchema (s : string) : bool :=
  (1 <=? String.length s)%nat && (String.length s <=? 255)%nat
  && RestaurantDetail.slugFormat s.

Inductive Statement :=
| SelectDish (slug : string) (limit : Z)
| SelectRestaurantScores (canonicalName : string)
| SelectSentiment (canonicalName : string).

Record DishInfo := {
  name : string;
  slug : string;
  canonicalName : option string;
  category : option string
}.

(** A score is a decimal with two places, counted in hundredths; the
    double [Number(r.score)] makes of it stands for the same decimal. *)
Record RestaurantScore := {
  r_name : string;
  r_slug : string;
  district : option string;
  score : Z;
  reviewCount : Z
}.

Record Stats := {
  avgScore : option Q;
  maxScore : option Z;
  minScore : option Z;
  totalReviews : Z
}.

Record SentimentSummary := {
  positive : Z;
  negative : Z;
  neutral : Z;
  total : Z
}.

Record Response := {
  dish : DishInfo;
  restaurants : list RestaurantScore;
  stats : Stats;
  sentimentSummary : SentimentSummary
}.

(** What the client receives; the route sets no [X-Cache] header.
    [Refused] is the 400 of the validator, whose text is not looked
    into. *)
Inductive Answer :=
| Body (body : Response)
| Failure (statusCode : Z) (error : string) (message : string)
| Refused.

(** The arithmetic on doubles this development does not look into:
    [Math.round((scores.reduce((a, b) => a + b, 0) / scores.length) * 100) / 100]
    for a list of scores that is not empty. *)
Class Doubles := {
  roundedMean : list Z -> Q
}.

(** [Number(r.score)]: [Number(null)] is [0]. *)
Definition numberOfScore (o : option Z) : Z := default 0%Z o.

(** [Math.max(...scores)] and [Math.min(...scores)] for a list that is
    not empty. *)
Definition maxOf (x : Z) (l : list Z) : Z := foldr Z.max x l.
Definition minOf (x : Z) (l : list Z) : Z := foldr Z.min x l.

Definition notFoundMessage (slug : string) : string :=
  "Yemek bulunamadi: " +:+ slug.

Section Handler.
Context {pg : Sql.Postgres} {fp : Doubles} {T : Type}.

(** Query 1: [where(eq(dishes.slug, slug)).limit(1)] *)
Definition dishResult (db : Sql.Database) (slug : string) : list Sql.Dish :=
  Sql.limitOffset (Some 1%Z) 0
    (filter (fun d => Sql.d_slug d = slug) (Sql.dishes db)).

(** [lower(unaccent(a)) = lower(unaccent(b))] *)
Definition sameFood (a b : string) : bool :=
  String.eqb (Sql.lower (Sql.unaccent a)) (Sql.lower (Sql.unaccent b)).

(** Query 2: [food_scores INNER JOIN restaurants], the rows of the
    dish in active venues, best score first. *)
Definition restaurantScoresOf (db : Sql.Database) (canonicalName : string)
  : list (Sql.FoodScore * Sql.Restaurant) :=
  Sql.orderBy (fun e row => Sql.foodScoreKey e row.1) [Sql.desc Sql.Score]
    (fs ← Sql.foodScores db;
     r ← Sql.restaurants db;
     if decide (Sql.fs_restaurantId fs = Sql.id r
                ∧ sameFood (Sql.fs_foodName fs) canonicalName = true
                ∧ Sql.isActive r = true)
     then [(fs, r)] else []).

(** Query 3: the mentions the aggregate counts; a mention without a
    canonical name compares as [NULL]. *)
Definition namedLike (canonicalName : string) (m : Sql.FoodMention) : bool :=
  match Sql.m_canonicalName m with
  | Some c => sameFood c canonicalName
  | None => false
  end.

Definition mentionsNamed (db : Sql.Database) (canonicalName : string)
  : list Sql.FoodMention :=
  filter (fun m => namedLike canonicalName m = true) (Sql.foodMentions db).

Definition toRestaurantScore (row : Sql.FoodScore * Sql.Restaurant)
  : RestaurantScore :=
  {| r_name := Sql.name row.2;
     r_slug := Sql.slug row.2;
     district := Sql.district row.2;
     score := numberOfScore (Sql.fs_score row.1);
     reviewCount := Sql.fs_reviewCount row.1 |}.

(** The object [stats]. *)
Definition statsOf (rows : list (Sql.FoodScore * Sql.Restaurant)) : Stats :=
  let scores := (fun r => numberOfScore (Sql.fs_score r.1)) <$> rows in
  let totalReviews :=
    fold_left (fun sum r => (sum + Sql.fs_reviewCount r.1)%Z) rows 0%Z in
  {| avgScore :=
       match scores with [] => None | _ :: _ => Some (roundedMean scores) end;
     maxScore :=
       match scores with [] => None | x :: l => Some (maxOf x l) end;
     minScore :=
       match scores with [] => None | x :: l => Some (minOf x l) end;
     totalReviews := totalReviews |}.

(** The object literal the handler returns. *)
Definition respond (db : Sql.Database) (dish : Sql.Dish) : Response :=
  let canonicalName := Sql.dishLabel dish in
  let restaurantScores := restaurantScoresOf db canonicalName in
  let sentiment := mentionsNamed db canonicalName in
  {| dish :=
       {| name := Sql.d_name dish;
          slug := Sql.d_slug dish;
          canonicalName := Sql.d_canonicalName dish;
          category := Sql.d_category dish |};
     restaurants := toRestaurantScore <$> restaurantScores;
     stats := statsOf restaurantScores;
     sentimentSummary :=
       {| positive :=
            RestaurantDetail.countZ (RestaurantDetail.sentimentIs "positive")
              sentiment;
          negative :=
            RestaurantDetail.countZ (RestaurantDetail.sentimentIs "negative")
              sentiment;
          neutral :=
            RestaurantDetail.countZ (RestaurantDetail.sentimentIs "neutral")
              sentiment;
          total := Z.of_nat (length sentiment) |} |}.

Definition handler (db : Sql.Database) (slug : string)
  : Task Statement T Answer :=
  let! _ := emit (ToDb (SelectDish slug 1)) in
  match dishResult db slug with
  | [] => ret (Failure 404 "Not Found" (notFoundMessage slug))
  | dish :: _ =>
      let canonicalName := Sql.dishLabel dish in
      let! _ := emit (ToDb (SelectRestaurantScores canonicalName)) in
      let! _ := emit (ToDb (SelectSentiment canonicalName)) in
      ret (Body (respond db dish))
  end.

Definition route (db : Sql.Database) (slug : string)
  : Task Statement T Answer :=
  if DishDetailParamsSchema slug then handler db slug else ret Refused.
End Handler.

(** [a] may stand before [b] when the best score comes first and the
    rows without a score come before the others. *)
Definition bestRowFirst (a b : Sql.FoodScore * Sql.Restaurant) : Prop :=
  match Sql.fs_score a.1, Sql.fs_score b.1 with
  | Some x, Some y => (y <= x)%Z
  | None, _ => True
  | Some _, None => False
  end.

End DishDetail.

(** ** Assumptions on the runtime *)

(** A text without the characters that delimit a JSON member: the
    double quote, the comma and the closing brace. *)
Fixpoint plainText (s : string) : bool :=
  match s with
  | EmptyString => true
  | String c s' =>
      negb ((Js.code c =? 34) || (Js.code c =? 44) || (Js.code c =? 125))%N
      && plainText s'
  end.

(** The text after a member: a comma or the closing brace comes next. *)
Definition delimited (t : string) : Prop :=
  exists c t', t = String c t' /\ (Js.code c = 44 \/ Js.code c = 125)%N.

(** What the development relies on about [Number::toString] and the
    MD5 digest: distinct numbers print differently, the text of a number
    is made of digits, signs, dots and letters, and a digest in
    hexadecimal has 32 characters. *)
Class RuntimeLaws (rt : JsRuntime) : Prop := {
  Number_toString_inj :
    forall x y : Qc, Number_toString x = Number_toString y -> x = y;
  Number_toString_plain :
    forall x : Qc, plainText (Number_toString x) = true;
  md5_hex_length :
    forall s : string, String.length (md5_hex s) = 32%nat
}.

(** The canonical texts of two query objects differ and have the same
    digest: the two objects share a cache key. *)
Definition keysCollide {rt : JsRuntime} (q1 q2 : Search.QueryObject) : Prop :=
  Search.canonicalText q1 <> Search.canonicalText q2
  /\ md5_hex (Search.canonicalText q1) = md5_hex (Search.canonicalText q2).

(** ** The states of the cache a route can be in *)

Module Coherence.
Section Reach.
Context {Q T I : Type}.
(** The prefix of the keys of the route and the route itself. *)
Variable keyPrefix : string.
Variable run : Sql.Database -> I -> Task Q T (Reply T).

Definition withStore (s : Redis.Server T) (st : gmap string (Redis.Entry T))
  : Redis.Server T :=
  {| Redis.store := st;
     Redis.outage := Redis.outage s;
     Redis.served := Redis.served s |}.

Definition purge (st : gmap string (Redis.Entry T))
  : gmap string (Redis.Entry T) :=
  filter (fun kv => String.prefix keyPrefix kv.1 = false) st.

(** [Reachable db s]: the server can be in state [s] while the
    database is [db]. The cache starts empty; requests are served in
    any number and order, whatever commands fail; keys expire; other
    clients write keys outside the prefix; the database changes, which
    leaves the cache as it is: no route calls [cacheDelete] or
    [cacheDeletePattern]. *)
Inductive Reachable : Sql.Database -> Redis.Server T -> Prop :=
| reach_start db schedule :
    Reachable db {| Redis.store := ∅;
                    Redis.outage := schedule;
                    Redis.served := 0 |}
| reach_request db s input events :
    Reachable db s ->
    Reachable db (redis (run db input {| redis := s; log := events |}).2)
| reach_expire db s key :
    Reachable db s ->
    Reachable db (withStore s (delete key (Redis.store s)))
| reach_foreign db s key entry :
    Reachable db s ->
    String.prefix keyPrefix key = false ->
    Reachable db (withStore s (<[key := entry]> (Redis.store s)))
| reach_mutation db db' s :
    Reachable db s ->
    Reachable db' s.
End Reach.
End Coherence.

(** The world of a request that arrives when the server is [s]. *)
Definition arrival {Q T} (s : Redis.Server T) : World Q T :=
  {| redis := s; log := [] |}.

(** No statement was sent to the database. *)
Definition noStorageQuery {Q} (events : list (Event Q)) : Prop :=
  forall q : Q, ToDb q ∉ events.

(** No command was sent to Redis, no statement to the database. *)
Definition noIO {Q} (events : list (Event Q)) : Prop := events = [].

(** ** What the entries of each route hold *)

(** Every key of the search route was written for a request that
    passed the coordinate check. *)
Definition searchEntriesChecked {rt : JsRuntime}
    (s : Redis.Server Search.Response) : Prop :=
  forall key entry,
    Redis.store s !! key = Some entry ->
    String.prefix "search:" key = true ->
    exists raw rq,
      Search.parse raw = inr rq /\ key = Search.cacheKey rq
      /\ Search.distanceWithoutCoordinates rq = false.

(** Every entry of the detail route holds the details of a venue that
    had the slug of the key and was switched on in the database the
    entry was computed from. *)
Definition detailEntriesComputed {pg : Sql.Postgres}
    (s : Redis.Server RestaurantDetail.Response) : Prop :=
  forall slug entry,
    Redis.store s !! RestaurantDetail.cacheKey slug = Some entry ->
    exists db' rest more,
      RestaurantDetail.restaurantResult db' slug = rest :: more
      /\ Redis.value entry = Redis.Json (RestaurantDetail.details db' rest).

(** Every entry of the autocomplete route holds the suggestions that
    some database gave for a trimmed query with that key. *)
Definition suggestionsComputed {pg : Sql.Postgres}
    (s : Redis.Server Autocomplete.Response) : Prop :=
  forall key entry,
    Redis.store s !! key = Some entry ->
    String.prefix "autocomplete:" key = true ->
    exists db' q,
      key = Autocomplete.cacheKey q /\ Js.trim q = q
      /\ Redis.value entry = Redis.Json (Autocomplete.respond db' q).

(** ** A small installation, used for the examples *)

Module Demo.

(** [Number(s)] for decimal integers. *)
Definition digitOf (c : ascii) : option Z :=
  let n := Js.code c in
  if ((48 <=? n) && (n <=? 57))%N then Some (Z.of_N n - 48)%Z else None.

Fixpoint digits (s : string) (acc : Z) : option Z :=
  match s with
  | EmptyString => Some acc
  | String c s' =>
      match digitOf c with
      | Some d => digits s' (10 * acc + d)%Z
      | None => None
      end
  end.

Definition parseNumber (s : string) : option Qc :=
  match s with
  | EmptyString => Some (Search.ofZ 0)
  | String c s' =>
      if (Js.code c =? 45)%N then
        match s' with
        | EmptyString => None
        | _ => (fun z => Search.ofZ (- z)) <$> digits s' 0
        end
      else Search.ofZ <$> digits s 0
  end.

(** An integer prints in decimal, any other rational as a fraction. *)
Definition printNumber (x : Qc) : string :=
  if Search.isInt x then pretty (Qnum (this x))
  else pretty (Qnum (this x)) +:+ "/" +:+ pretty (Zpos (Qden (this x))).

(** A text of digits and minus signs. *)
Fixpoint numeric (s : string) : bool :=
  match s with
  | EmptyString => true
  | String c s' =>
      let n := Js.code c in
      (((48 <=? n) && (n <=? 57)) || (n =? 45))%N && numeric s'
  end.

(** A stand-in for the digest: the first 32 characters, padded. *)
Fixpoint pad (n : nat) (s : string) : string :=
  match n with
  | O => EmptyString
  | S n' =>
      match s with
      | EmptyString => String "0" (pad n' EmptyString)
      | String c s' => String c (pad n' s')
      end
  end.

Definition runtime : JsRuntime :=
  {| Number := parseNumber;
     Number_toString := printNumber;
     md5_hex := pad 32 |}.

Definition manhattan (a b : Sql.Point) : Q :=
  (Qabs (Sql.point_lat a - Sql.point_lat b)
   + Qabs (Sql.point_lng a - Sql.point_lng b))%Q.

Definition postgres : Sql.Postgres :=
  {| Sql.similarity := fun text q =>
       if Js.includes (Js.toLowerCase text) (Js.toLowerCase q) then 1%Q else 0%Q;
     Sql.fts_match := fun doc q =>
       Js.includes (Js.toLowerCase doc) (Js.toLowerCase q);
     Sql.unaccent := fun s => s;
     Sql.lower := Js.toLowerCase;
     Sql.ST_Distance := fun a b => (manhattan a b * 100000)%Q;
     Sql.ST_DWithin := fun a b metres =>
       Qle_bool (manhattan a b * 100000)%Q (inject_Z metres);
     Sql.geographyFromDriver := fun _ =>
       {| Sql.point_lat := 0; Sql.point_lng := 0 |} |}.

Definition venue (i : Z) (n s : string) (sc : option Z) (active : bool)
  : Sql.Restaurant :=
  {| Sql.id := i; Sql.name := n; Sql.slug := s;
     Sql.address := Some "Moda Cad."; Sql.district := Some "Kadikoy";
     Sql.neighborhood := None;
     Sql.location := Some {| Sql.point_lat := 41; Sql.point_lng := 29 |};
     Sql.phone := None; Sql.website := None;
     Sql.cuisineType := Some ["kebap"]; Sql.priceRange := Some 2%Z;
     Sql.overallScore := sc; Sql.totalReviews := 12;
     Sql.isActive := active; Sql.imageUrl := None;
     Sql.createdAt := 1700000000; Sql.updatedAt := 1700000000 |}.

Definition dishScore (i r : Z) (n : string) (sc : option Z) : Sql.FoodScore :=
  {| Sql.fs_id := i; Sql.fs_restaurantId := r; Sql.fs_foodName := n;
     Sql.fs_score := sc; Sql.fs_reviewCount := 4;
     Sql.fs_confidence := None; Sql.fs_sentimentDistribution := None |}.

Definition dish (i : Z) (n s : string) : Sql.Dish :=
  {| Sql.d_id := i; Sql.d_name := n; Sql.d_slug := s;
     Sql.d_canonicalName := None; Sql.d_category := Some "ana yemek";
     Sql.d_searchVector := Some n |}.

(** Two active venues at the same place, created at the same instant,
    the lower score stored first; one venue switched off. *)
Definition db : Sql.Database :=
  {| Sql.restaurants :=
       [venue 1 "Kebapci Mehmet" "kebapci-mehmet" (Some 500%Z) true;
        venue 2 "Kebap Evi" "kebap-evi" (Some 900%Z) true;
        venue 3 "Kebap Durak" "kebap-durak" (Some 950%Z) false];
     Sql.foodScores :=
       [dishScore 1 1 "Adana" (Some 710%Z);
        dishScore 2 1 "Urfa" (Some 920%Z);
        dishScore 3 1 "Ayran" None;
        dishScore 4 1 "Lahmacun" (Some 550%Z);
        dishScore 5 1 "Beyti" (Some 880%Z);
        dishScore 6 2 "Iskender" (Some 930%Z)];
     Sql.dishes :=
       [dish 1 "Adana Kebap" "adana-kebap"; dish 2 "Urfa Kebap" "urfa-kebap"];
     Sql.restaurantPlatforms := [];
     Sql.reviews := [];
     Sql.foodMentions := [] |}.

(** The mean of the hundredths, as a fraction. *)
Definition doubles : DishDetail.Doubles :=
  {| DishDetail.roundedMean := fun scores =>
       (inject_Z (foldr Z.add 0%Z scores)
        / inject_Z (100 * Z.of_nat (length scores)))%Q |}.

Definition mention (i : Z) (c s : option string) : Sql.FoodMention :=
  {| Sql.m_id := i; Sql.m_reviewId := 1;
     Sql.m_canonicalName := c; Sql.m_sentiment := s |}.

(** The dish of two active venues and of the one switched off, with
    four mentions of it and one of another dish. *)
Definition menu : Sql.Database :=
  {| Sql.restaurants := Sql.restaurants db;
     Sql.foodScores :=
       [dishScore 1 1 "Urfa Kebap" (Some 710%Z);
        dishScore 2 2 "urfa kebap" (Some 920%Z);
        dishScore 3 3 "Urfa Kebap" (Some 990%Z);
        dishScore 4 2 "Adana" (Some 550%Z)];
     Sql.dishes := Sql.dishes db;
     Sql.restaurantPlatforms := [];
     Sql.reviews := [];
     Sql.foodMentions :=
       [mention 1 (Some "Urfa Kebap") (Some "positive");
        mention 2 (Some "urfa kebap") (Some "negative");
        mention 3 (Some "Urfa Kebap") None;
        mention 4 (Some "Urfa Kebap") (Some "mixed");
        mention 5 (Some "Adana Kebap") (Some "positive");
        mention 6 None (Some "positive")] |}.

(** The tables after "Kebap Evi" has been switched off. *)
Definition closed : Sql.Database :=
  {| Sql.restaurants :=
       [venue 1 "Kebapci Mehmet" "kebapci-mehmet" (Some 500%Z) true;
        venue 2 "Kebap Evi" "kebap-evi" (Some 900%Z) false;
        venue 3 "Kebap Durak" "kebap-durak" (Some 950%Z) false];
     Sql.foodScores := Sql.foodScores db;
     Sql.dishes := Sql.dishes db;
     Sql.restaurantPlatforms := [];
     Sql.reviews := [];
     Sql.foodMentions := [] |}.

(** A healthy Redis with nothing in it. *)
Definition emptyRedis {T} : Redis.Server T := Redis.healthy ∅.

(** [?q=kebap&sort_by=distance&lat=41&lng=29] after validation. *)
Definition byDistance : Search.QueryObject :=
  [(Search.K_q, Search.VString "kebap");
   (Search.K_sort_by, Search.VString "distance");
   (Search.K_page, Search.VNumber (Search.ofZ 1));
   (Search.K_limit, Search.VNumber (Search.ofZ 20));
   (Search.K_lat, Search.VNumber (Search.ofZ 41));
   (Search.K_lng, Search.VNumber (Search.ofZ 29))].

(** [?q=kebap&sort_by=newest] after validation. *)
Definition byNewest : Search.QueryObject :=
  [(Search.K_q, Search.VString "kebap");
   (Search.K_sort_by, Search.VString "newest");
   (Search.K_page, Search.VNumber (Search.ofZ 1));
   (Search.K_limit, Search.VNumber (Search.ofZ 20))].

(** [?q=kebap&page=2&limit=1] as received and after validation. *)
Definition secondPageRaw : Search.RawQuery :=
  [("q", "kebap"); ("page", "2"); ("limit", "1")].

Definition secondPage : Search.QueryObject :=
  [(Search.K_q, Search.VString "kebap");
   (Search.K_sort_by, Search.VString "score");
   (Search.K_page, Search.VNumber (Search.ofZ 2));
   (Search.K_limit, Search.VNumber (Search.ofZ 1))].

(** [?q=kebap&sort_by=distance]: the coordinates are missing. *)
Definition noCoordinates : Search.RawQuery :=
  [("q", "kebap"); ("sort_by", "distance")].

(** A key table of four slots by length; patterns are a literal text,
    or a prefix followed by a star. *)
Definition keyspace : Invalidation.Keyspace :=
  {| Invalidation.lastSlot := 3;
     Invalidation.slotOf := String.length;
     Invalidation.glob := fun pattern k =>
       match String.rev pattern with
       | String c r =>
           if Ascii.eqb c "*" then String.prefix (String.rev r) k
           else String.eqb pattern k
       | EmptyString => String.eqb pattern k
       end |}.

(** A keyspace with entries of two routes and one of another client. *)
Definition someKeys : gmap string (Redis.Entry nat) :=
  <["search:0f" := {| Redis.value := Redis.Json 1%nat; Redis.ex := 300 |}]>
    (<["search:a7c" := {| Redis.value := Redis.Garbage; Redis.ex := 300 |}]>
       (<["restaurant:kebap-evi" :=
            {| Redis.value := Redis.Json 2%nat; Redis.ex := 900 |}]>
          (<["session:9" := {| Redis.value := Redis.Json 3%nat; Redis.ex := 60 |}]>
             ∅))).

End Demo.

(* ===================================================================== *)
(** * Properties *)
(* ===================================================================== *)

(** ** Stable sorting *)

Section StableSortFacts.
Context {A : Type} (lt : A -> A -> bool).

Lemma sort_insert_Permutation (x : A) (l : list A) :
  sort_insert lt x l ≡ₚ x :: l.
Proof.
  induction l as [|y l IH]; simpl; [done|].
  destruct (lt y x); [|done].
  rewrite IH. apply Permutation_swap.
Qed.

Lemma stable_sort_Permutation (l : list A) : stable_sort lt l ≡ₚ l.
Proof.
  induction l as [|x l IH]; simpl; [done|].
  by rewrite sort_insert_Permutation, IH.
Qed.

Lemma stable_sort_elem_of (x : A) (l : list A) :
  x ∈ stable_sort lt l <-> x ∈ l.
Proof. by rewrite stable_sort_Permutation. Qed.

(** For a strict weak order the result is sorted. *)
Hypothesis lt_asym : forall a b, lt a b = true -> lt b a = false.
Hypothesis inOrder_trans :
  forall a b c, inOrder lt a b -> inOrder lt b c -> inOrder lt a c.

Lemma sort_insert_sorted (x : A) (l : list A) :
  StronglySorted (inOrder lt) l ->
  StronglySorted (inOrder lt) (sort_insert lt x l).
Proof.
  induction l as [|y l IH]; simpl; intros Hs.
  - repeat constructor.
  - apply StronglySorted_cons in Hs as [Hy Hl].
    destruct (lt y x) eqn:Hyx.
    + apply StronglySorted_cons. split; [|by apply IH].
      rewrite sort_insert_Permutation. constructor; [|done].
      by apply lt_asym.
    + apply StronglySorted_cons. split.
      * constructor; [done|].
        eapply Forall_impl; [exact Hy|].
        intros z Hz. by eapply inOrder_trans.
      * by apply StronglySorted_cons.
Qed.

Lemma stable_sort_sorted (l : list A) :
  StronglySorted (inOrder lt) (stable_sort lt l).
Proof.
  induction l as [|x l IH]; simpl; [constructor|].
  by apply sort_insert_sorted.
Qed.
End StableSortFacts.


Lemma StronglySorted_take {A} (R : relation A) (n : nat) (l : list A) :
  StronglySorted R l -> StronglySorted R (take n l).
Proof.
  intros Hs. rewrite <- (take_drop n l) in Hs.
  by apply StronglySorted_app_1_l in Hs.
Qed.

Lemma StronglySorted_drop {A} (R : relation A) (n : nat) (l : list A) :
  StronglySorted R l -> StronglySorted R (drop n l).
Proof.
  intros Hs. rewrite <- (take_drop n l) in Hs.
  by apply StronglySorted_app_1_r in Hs.
Qed.

Lemma StronglySorted_impl {A} (R S : relation A) (l : list A) :
  (forall a b, a ∈ l -> b ∈ l -> R a b -> S a b) ->
  StronglySorted R l -> StronglySorted S l.
Proof.
  intros HRS Hs. induction Hs as [|x l Hl IH Hx]; [constructor|].
  constructor.
  - apply IH. intros a b Ha Hb. apply HRS; by constructor.
  - apply Forall_forall. intros y Hy.
    apply HRS; [by constructor|by constructor|].
    by eapply Forall_forall in Hx.
Qed.

(** ** The order of strings *)

Section StringOrder.
Import OrderedTypeEx.

Lemma ltb_lt (a b : string) : String.ltb a b = true <-> String_as_OT.lt a b.
Proof.
  unfold String.ltb. rewrite <- String_as_OT.cmp_lt. unfold String_as_OT.cmp.
  by destruct (String.compare a b).
Qed.

Lemma ltb_asym (a b : string) :
  String.ltb a b = true -> String.ltb b a = false.
Proof.
  unfold String.ltb. rewrite (String.compare_antisym a b).
  by destruct (String.compare b a).
Qed.

Lemma ltb_trichotomy (a b : string) :
  String.ltb a b = true \/ a = b \/ String.ltb b a = true.
Proof.
  unfold String.ltb. rewrite (String.compare_antisym a b).
  destruct (String.compare b a) eqn:E; simpl; auto.
  apply String.compare_eq_iff in E. auto.
Qed.

Lemma ltb_trans (a b c : string) :
  String.ltb a b = true -> String.ltb b c = true -> String.ltb a c = true.
Proof. rewrite !ltb_lt. apply String_as_OT.lt_trans. Qed.

Lemma notltb_trans (a b c : string) :
  String.ltb b a = false -> String.ltb c b = false -> String.ltb c a = false.
Proof.
  intros Hba Hcb. destruct (String.ltb c a) eqn:Hca; [|done].
  destruct (ltb_trichotomy a b) as [Hab|[->|Hab]]; [|congruence..].
  by rewrite (ltb_trans _ _ _ Hca Hab) in Hcb.
Qed.

Lemma notltb_antisym (a b : string) :
  String.ltb b a = false -> String.ltb a b = false -> a = b.
Proof. destruct (ltb_trichotomy a b) as [?|[?|?]]; congruence. Qed.
End StringOrder.

(** [Array.prototype.sort()] returns a permutation in the order of the
    string images. *)
Lemma Js_sort_Permutation {A} (key : A -> string) (l : list A) :
  Js.sort key l ≡ₚ l.
Proof. apply stable_sort_Permutation. Qed.

Lemma Js_sort_sorted {A} (key : A -> string) (l : list A) :
  StronglySorted (fun a b => String.ltb (key b) (key a) = false)
                 (Js.sort key l).
Proof.
  apply (stable_sort_sorted (fun x y => String.ltb (key x) (key y))).
  - intros a b. apply ltb_asym.
  - intros a b c. unfold inOrder. apply notltb_trans.
Qed.

(** Two arrays with the same elements sort to the same array, as long
    as different elements have different string images. *)
Lemma Js_sort_canonical {A} (key : A -> string) (l1 l2 : list A) :
  (forall a b, a ∈ l1 -> b ∈ l1 -> key a = key b -> a = b) ->
  l1 ≡ₚ l2 -> Js.sort key l1 = Js.sort key l2.
Proof.
  intros Hinj Hperm.
  eapply (StronglySorted_unique_strong
            (fun a b => String.ltb (key b) (key a) = false)).
  - intros a b Ha Hb Hab Hba.
    rewrite Js_sort_Permutation in Ha. rewrite Js_sort_Permutation in Hb.
    rewrite <- Hperm in Hb.
    apply Hinj; [done..|]. by apply notltb_antisym.
  - apply Js_sort_sorted.
  - apply Js_sort_sorted.
  - by rewrite !Js_sort_Permutation.
Qed.

(** ** JavaScript objects *)

(** [+:+] is kept folded by [simpl]; [string_simpl] opens it. *)
Ltac string_simpl := unfold String.app in *; simpl in *.

Lemma append_assoc (a b c : string) : (a +:+ b) +:+ c = a +:+ (b +:+ c).
Proof. string_simpl. induction a as [|x a IH]; simpl; [done|]. by rewrite IH. Qed.

Lemma cons_app (c : ascii) (s : string) : String c "" +:+ s = String c s.
Proof. reflexivity. Qed.

Lemma String_tail (c : ascii) (a b : string) : String c a = String c b -> a = b.
Proof. by intros [= ?]. Qed.

Lemma append_length (a b : string) :
  String.length (a +:+ b) = (String.length a + String.length b)%nat.
Proof. string_simpl. induction a as [|x a IH]; simpl; [done|]. by rewrite IH. Qed.

Section ObjectFacts.
Context {K V : Type} `{EqDecision K}.
Implicit Types (obj : list (K * V)) (k : K) (v : V).

Lemma setProperty_fresh obj k v :
  k ∉ obj.*1 -> Js.setProperty obj k v = obj ++ [(k, v)].
Proof.
  induction obj as [|[k' v'] obj IH]; simpl; intros Hk; [done|].
  apply not_elem_of_cons in Hk as [Hne Hk].
  destruct (decide (k' = k)); [congruence|].
  by rewrite IH.
Qed.

Lemma fold_setProperty_fresh (entries acc : list (K * V)) :
  NoDup (acc ++ entries).*1 ->
  fold_left (fun o e => Js.setProperty o e.1 e.2) entries acc
  = acc ++ entries.
Proof.
  revert acc. induction entries as [|[k v] entries IH]; simpl; intros acc Hnd.
  - by rewrite app_nil_r.
  - rewrite setProperty_fresh.
    + rewrite IH; rewrite <- app_assoc; [done|]. exact Hnd.
    + rewrite fmap_app in Hnd. apply NoDup_app in Hnd as (_ & Hdis & _).
      intros Hin. apply (Hdis k Hin). simpl. apply elem_of_cons. by left.
Qed.

(** Rebuilding an object from its own entries gives it back. *)
Lemma fromEntries_NoDup (entries : list (K * V)) :
  NoDup entries.*1 -> Js.fromEntries entries = entries.
Proof. intros Hnd. unfold Js.fromEntries. by rewrite fold_setProperty_fresh. Qed.

Lemma NoDup_fst_eq (l : list (K * V)) (a b : K * V) :
  NoDup l.*1 -> a ∈ l -> b ∈ l -> a.1 = b.1 -> a = b.
Proof.
  induction l as [|x l IH]; simpl; intros Hnd Ha Hb Hab.
  - by apply elem_of_nil in Ha.
  - apply NoDup_cons in Hnd as [Hx Hnd].
    apply elem_of_cons in Ha as [->|Ha]; apply elem_of_cons in Hb as [->|Hb].
    + done.
    + destruct Hx. rewrite Hab. by apply list_elem_of_fmap_2.
    + destruct Hx. rewrite <- Hab. by apply list_elem_of_fmap_2.
    + by apply IH.
Qed.

Lemma getProperty_Some obj k v :
  NoDup obj.*1 -> Js.getProperty obj k = Some v <-> (k, v) ∈ obj.
Proof.
  induction obj as [|[k' v'] obj IH]; simpl; intros Hnd.
  - split; [done|]. by intros ?%elem_of_nil.
  - apply NoDup_cons in Hnd as [Hk' Hnd].
    destruct (decide (k' = k)) as [->|Hne].
    + split.
      * intros [= ->]. by left.
      * intros [[= ->]|Hin]%elem_of_cons; [done|].
        destruct Hk'. by apply (list_elem_of_fmap_2 fst) in Hin.
    + rewrite IH by done. split.
      * intros ?. by right.
      * intros [[= ? ?]|Hin]%elem_of_cons; [congruence|done].
Qed.

(** Reading a property does not depend on the enumeration order. *)
Lemma getProperty_Permutation (o1 o2 : list (K * V)) k :
  NoDup o1.*1 -> o1 ≡ₚ o2 -> Js.getProperty o1 k = Js.getProperty o2 k.
Proof.
  intros Hnd Hperm.
  assert (NoDup o2.*1) as Hnd2 by (by rewrite <- Hperm).
  destruct (Js.getProperty o1 k) as [v|] eqn:E1.
  - symmetry. apply getProperty_Some; [done|].
    rewrite <- Hperm. by apply getProperty_Some.
  - destruct (Js.getProperty o2 k) as [v|] eqn:E2; [|done].
    apply getProperty_Some in E2; [|done].
    rewrite <- Hperm in E2. apply getProperty_Some in E2; [|done].
    congruence.
Qed.
End ObjectFacts.

(** ** The JSON text of a query object determines the object *)

Lemma readChar_escapeChar (c : ascii) (t : string) :
  Js.readChar (Js.escapeChar c +:+ t) = Some (c, t).
Proof. destruct c as [[] [] [] [] [] [] [] []]; reflexivity. Qed.

Lemma escape_closed (s1 s2 t1 t2 : string) :
  Js.escape s1 +:+ String Js.dquote t1 = Js.escape s2 +:+ String Js.dquote t2 ->
  s1 = s2 /\ t1 = t2.
Proof.
  revert s2. induction s1 as [|c1 s1 IH]; intros [|c2 s2]; simpl; intros Heq.
  - by injection Heq.
  - apply (f_equal Js.readChar) in Heq.
    rewrite append_assoc, readChar_escapeChar in Heq. discriminate.
  - apply (f_equal Js.readChar) in Heq.
    rewrite append_assoc, readChar_escapeChar in Heq. discriminate.
  - apply (f_equal Js.readChar) in Heq.
    rewrite !append_assoc, !readChar_escapeChar in Heq.
    injection Heq as -> Heq. apply IH in Heq as [-> ->]. done.
Qed.

(** A quoted string can be read back from the front of a text. *)
Lemma quote_closed (s1 s2 t1 t2 : string) :
  Js.quote s1 +:+ t1 = Js.quote s2 +:+ t2 -> s1 = s2 /\ t1 = t2.
Proof.
  unfold Js.quote. intros Heq.
  change (String Js.dquote ((Js.escape s1 +:+ String Js.dquote "") +:+ t1)
          = String Js.dquote ((Js.escape s2 +:+ String Js.dquote "") +:+ t2))
    in Heq.
  rewrite !append_assoc in Heq. injection Heq as Heq.
  by apply escape_closed.
Qed.

Lemma plain_not_delimiter (c : ascii) (s : string) :
  plainText (String c s) = true ->
  Js.code c <> 34%N /\ Js.code c <> 44%N /\ Js.code c <> 125%N
  /\ plainText s = true.
Proof.
  simpl. intros [Hc Hs]%andb_true_iff. apply negb_true_iff in Hc.
  apply orb_false_iff in Hc as [Hc H3]. apply orb_false_iff in Hc as [H1 H2].
  apply N.eqb_neq in H1, H2, H3. done.
Qed.

(** A plain text followed by a delimiter can be read back. *)
Lemma plain_closed (n1 n2 t1 t2 : string) :
  plainText n1 = true -> plainText n2 = true ->
  delimited t1 -> delimited t2 ->
  n1 +:+ t1 = n2 +:+ t2 -> n1 = n2 /\ t1 = t2.
Proof.
  intros H1 H2 (c1 & r1 & -> & Hc1) (c2 & r2 & -> & Hc2).
  revert n2 H1 H2.
  induction n1 as [|a n1 IH]; intros [|b n2] H1 H2 Heq; string_simpl.
  - done.
  - injection Heq as <- _.
    assert (plainText (String c1 n2) = true) as Hp by exact H2.
    apply plain_not_delimiter in Hp as (_ & ? & ? & _). lia.
  - injection Heq as -> _.
    assert (plainText (String c2 n1) = true) as Hp by exact H1.
    apply plain_not_delimiter in Hp as (_ & ? & ? & _). lia.
  - injection Heq as -> Heq.
    assert (plainText (String b n1) = true) as Hp1 by exact H1.
    assert (plainText (String b n2) = true) as Hp2 by exact H2.
    apply plain_not_delimiter in Hp1 as (_ & _ & _ & Hp1).
    apply plain_not_delimiter in Hp2 as (_ & _ & _ & Hp2).
    destruct (IH n2 Hp1 Hp2 Heq) as [-> ?]. done.
Qed.

Lemma fieldName_inj (f g : Search.Field) :
  Search.fieldName f = Search.fieldName g -> f = g.
Proof. destruct f, g; simpl; intros Heq; try reflexivity; discriminate. Qed.

Section JsonFacts.
Context {rt : JsRuntime} {laws : RuntimeLaws rt}.

Lemma number_first_char (x : Qc) (t r : string) :
  delimited t ->
  Number_toString x +:+ t <> String Js.dquote r.
Proof.
  intros (c & t' & -> & Hc) Heq.
  pose proof (Number_toString_plain x) as Hp.
  destruct (Number_toString x) as [|a n]; string_simpl.
  - injection Heq as -> _. unfold Js.dquote in Hc.
    destruct Hc as [Hc|Hc]; vm_compute in Hc; discriminate.
  - injection Heq as -> _.
    assert (plainText (String Js.dquote n) = true) as Hq by exact Hp.
    apply plain_not_delimiter in Hq as (Hq & _). by apply Hq.
Qed.

Lemma jsonValue_closed (v1 v2 : Search.Value) (t1 t2 : string) :
  delimited t1 -> delimited t2 ->
  Search.jsonValue v1 +:+ t1 = Search.jsonValue v2 +:+ t2 ->
  v1 = v2 /\ t1 = t2.
Proof.
  intros Ht1 Ht2. destruct v1 as [s1|x1], v2 as [s2|x2]; simpl; intros Heq.
  - apply quote_closed in Heq as [-> ->]. done.
  - exfalso. symmetry in Heq. unfold Js.quote in Heq.
    change (Number_toString x2 +:+ t2
            = String Js.dquote ((Js.escape s1 +:+ String Js.dquote "") +:+ t1))
      in Heq.
    exact (number_first_char _ _ _ Ht2 Heq).
  - exfalso. unfold Js.quote in Heq.
    change (Number_toString x1 +:+ t1
            = String Js.dquote ((Js.escape s2 +:+ String Js.dquote "") +:+ t2))
      in Heq.
    exact (number_first_char _ _ _ Ht1 Heq).
  - apply plain_closed in Heq as [Heq ->];
      [|apply Number_toString_plain..|done|done].
    apply Number_toString_inj in Heq as ->. done.
Qed.

Lemma jsonMember_closed (e1 e2 : Search.Field * Search.Value) (t1 t2 : string) :
  delimited t1 -> delimited t2 ->
  Search.jsonMember e1 +:+ t1 = Search.jsonMember e2 +:+ t2 ->
  e1 = e2 /\ t1 = t2.
Proof.
  intros Ht1 Ht2. destruct e1 as [k1 v1], e2 as [k2 v2].
  unfold Search.jsonMember. simpl. rewrite !append_assoc.
  intros [Hk Heq]%quote_closed. apply fieldName_inj in Hk as ->.
  rewrite !cons_app in Heq. apply String_tail in Heq.
  apply jsonValue_closed in Heq as [-> ->]; done.
Qed.

Lemma jsonTail_delimited (es : list (Search.Field * Search.Value)) :
  delimited (Search.jsonTail es).
Proof.
  destruct es as [|e es]; simpl.
  - exists "}"%char, ""%string. split; [done|]. by right.
  - eexists ","%char, _. split; [reflexivity|]. by left.
Qed.

Lemma jsonTail_inj (es1 es2 : list (Search.Field * Search.Value)) :
  Search.jsonTail es1 = Search.jsonTail es2 -> es1 = es2.
Proof.
  revert es2. induction es1 as [|e1 es1 IH]; intros [|e2 es2]; simpl;
    intros Heq; try done; rewrite ?cons_app in Heq; try discriminate.
  apply String_tail in Heq.
  apply jsonMember_closed in Heq as [-> Heq]; try apply jsonTail_delimited.
  by rewrite (IH _ Heq).
Qed.

(** [JSON.stringify] is injective on query objects. *)
Lemma JSON_stringify_object_inj (o1 o2 : list (Search.Field * Search.Value)) :
  Search.JSON_stringify_object o1 = Search.JSON_stringify_object o2 ->
  o1 = o2.
Proof.
  destruct o1 as [|e1 es1], o2 as [|e2 es2]; simpl; intros Heq; try done;
    rewrite ?cons_app in Heq.
  apply String_tail in Heq.
  apply jsonMember_closed in Heq as [-> Heq]; try apply jsonTail_delimited.
  by rewrite (jsonTail_inj _ _ Heq).
Qed.
End JsonFacts.

(** ** The cache key of the search route *)

Section CacheKeyFacts.
Context {rt : JsRuntime}.

(** Entries with different keys have different string images. *)
Lemma entryToString_key (e1 e2 : Search.Field * Search.Value) :
  Search.entryToString e1 = Search.entryToString e2 -> e1.1 = e2.1.
Proof.
  destruct e1 as [k1 v1], e2 as [k2 v2]. unfold Search.entryToString.
  simpl. generalize (Search.valueToString v1) (Search.valueToString v2).
  intros s1 s2.
  destruct k1, k2; string_simpl; intros Heq; try reflexivity; discriminate.
Qed.

Lemma sort_entries_Permutation (q1 q2 : Search.QueryObject) :
  NoDup q1.*1 -> q1 ≡ₚ q2 ->
  Js.sort Search.entryToString q1 = Js.sort Search.entryToString q2.
Proof.
  intros Hnd Hperm. apply Js_sort_canonical; [|done].
  intros a b Ha Hb Hab. eapply NoDup_fst_eq; eauto using entryToString_key.
Qed.

Lemma canonicalText_sorted (q : Search.QueryObject) :
  NoDup q.*1 ->
  Search.canonicalText q
  = Search.JSON_stringify_object (Js.sort Search.entryToString q).
Proof.
  intros Hnd. unfold Search.canonicalText. rewrite fromEntries_NoDup; [done|].
  by rewrite Js_sort_Permutation.
Qed.

Lemma canonicalText_Permutation (q1 q2 : Search.QueryObject) :
  NoDup q1.*1 -> q1 ≡ₚ q2 ->
  Search.canonicalText q1 = Search.canonicalText q2.
Proof.
  intros Hnd Hperm. unfold Search.canonicalText.
  by rewrite (sort_entries_Permutation q1 q2).
Qed.

Lemma canonicalText_inj {laws : RuntimeLaws rt} (q1 q2 : Search.QueryObject) :
  NoDup q1.*1 -> NoDup q2.*1 ->
  Search.canonicalText q1 = Search.canonicalText q2 -> q1 ≡ₚ q2.
Proof.
  intros Hnd1 Hnd2. rewrite !canonicalText_sorted by done.
  intros Heq%JSON_stringify_object_inj.
  by rewrite <- (Js_sort_Permutation Search.entryToString q1), Heq,
    Js_sort_Permutation.
Qed.

Lemma cacheKey_length {laws : RuntimeLaws rt} (q : Search.QueryObject) :
  String.length (Search.cacheKey q) = 39%nat.
Proof.
  unfold Search.cacheKey. rewrite append_length, md5_hex_length. done.
Qed.

(** Equal keys come from equal objects or from two texts that collide. *)
Lemma cacheKey_inj {laws : RuntimeLaws rt} (q1 q2 : Search.QueryObject) :
  NoDup q1.*1 -> NoDup q2.*1 ->
  Search.cacheKey q1 = Search.cacheKey q2 -> q1 ≡ₚ q2 \/ keysCollide q1 q2.
Proof.
  intros Hnd1 Hnd2 Heq. unfold Search.cacheKey in Heq.
  apply String.app_inj in Heq.
  destruct (decide (Search.canonicalText q1 = Search.canonicalText q2))
    as [Hc|Hc].
  - left. by apply canonicalText_inj.
  - right. by split.
Qed.
End CacheKeyFacts.

(** C2. Two validated query objects with the same properties, listed in
    any order, have the same cache key, a string of 39 characters
    ([search:] and 32 hexadecimal digits); two query objects with
    different properties have different keys, unless MD5 gives the same
    digest to their two different canonical texts. *)
Theorem cache_key_stable (rt : JsRuntime) (laws : RuntimeLaws rt)
    (q1 q2 : Search.QueryObject) :
  NoDup q1.*1 -> NoDup q2.*1 ->
  (q1 ≡ₚ q2 -> Search.cacheKey q1 = Search.cacheKey q2)
  /\ String.length (Search.cacheKey q1) = 39%nat
  /\ (~ q1 ≡ₚ q2 ->
      Search.cacheKey q1 <> Search.cacheKey q2
      \/ (Search.canonicalText q1 <> Search.canonicalText q2
          /\ md5_hex (Search.canonicalText q1)
             = md5_hex (Search.canonicalText q2))).
Proof.
  intros Hnd1 Hnd2. split; [|split].
  - intros Hperm. unfold Search.cacheKey.
    by rewrite (canonicalText_Permutation q1 q2).
  - apply cacheKey_length.
  - intros Hne.
    destruct (decide (Search.cacheKey q1 = Search.cacheKey q2)) as [Heq|Hk];
      [right|by left].
    split.
    + intros Hc. apply Hne. by apply canonicalText_inj.
    + unfold Search.cacheKey in Heq. by apply String.app_inj in Heq.
Qed.

(** ** The cache helpers *)

Section CacheFacts.
Context {Q T : Type}.
Implicit Types (w : World Q T) (key : string).

Lemma cacheGet_run key w :
  Cache.cacheGet key w
  = (Returned (Cache.found (redis w) key), Cache.afterGet w key).
Proof.
  unfold Cache.cacheGet, try_catch, bind, redis_get, emit, on_redis, bind,
    Redis.get, Cache.found, Cache.afterGet. simpl.
  destruct (Redis.outage (redis w) (Redis.served (redis w))); [done|].
  simpl. destruct (Redis.store (redis w) !! key) as [[[v|] ttl]|]; done.
Qed.

Lemma cacheSet_run key (data : T) (seconds : Z) w :
  Cache.cacheSet key data seconds w
  = (Returned tt, Cache.afterSet w key data seconds).
Proof.
  unfold Cache.cacheSet, try_catch, redis_set, bind, emit, on_redis,
    Redis.set, Cache.afterSet. simpl.
  by destruct (Redis.outage (redis w) (Redis.served (redis w))).
Qed.
End CacheFacts.

(** ** Runs of the search route *)

Section SearchRuns.
Context {rt : JsRuntime} {pg : Sql.Postgres}.
Implicit Types (db : Sql.Database) (rq : Search.QueryObject)
  (w : World Search.Statement Search.Response).

Lemma selectTopDishes_nil db : Search.selectTopDishes db [] = [].
Proof.
  unfold Search.selectTopDishes.
  replace (filter _ (Sql.foodScores db)) with (@nil Sql.FoodScore); [done|].
  symmetry. induction (Sql.foodScores db) as [|d l IH]; [done|].
  rewrite filter_cons. destruct (decide _) as [[Hin _]|_]; [|done].
  by apply elem_of_nil in Hin.
Qed.

(** [compute] returns [respond] and logs [statements]; it does not
    touch Redis and does not raise. *)
Lemma compute_run db rq w :
  Search.compute db rq w
  = (Returned (Search.respond db rq), logged w (Search.statements db rq)).
Proof.
  unfold Search.compute, Search.respond, Search.statements,
    Search.dishMapOf, bind, emit, ret, logged. simpl.
  destruct (Sql.id <$> Search.results db rq) as [|i ids] eqn:Hids; simpl.
  - rewrite selectTopDishes_nil. simpl. by rewrite <- app_assoc.
  - by rewrite <- !app_assoc.
Qed.

Lemma handler_run db rq w :
  Search.handler db rq w =
  let key := Search.cacheKey rq in
  match Cache.found (redis w) key with
  | Some body => (Returned (Sent "HIT" body), Cache.afterGet w key)
  | None =>
      if Search.distanceWithoutCoordinates rq
      then (Returned (Failed 400 "Bad Request" Search.coordinatesMessage),
            Cache.afterGet w key)
      else (Returned (Sent "MISS" (Search.respond db rq)),
            Cache.afterSet
              (logged (Cache.afterGet w key) (Search.statements db rq))
              key (Search.respond db rq) 300)
  end.
Proof.
  unfold Search.handler. unfold bind at 1. rewrite cacheGet_run. simpl.
  destruct (Cache.found (redis w) (Search.cacheKey rq)); [done|].
  destruct (Search.distanceWithoutCoordinates rq); [done|].
  unfold bind at 1. rewrite compute_run.
  unfold bind at 1. by rewrite cacheSet_run.
Qed.

Lemma route_run db (raw : Search.RawQuery) w :
  Search.route db raw w =
  match Search.parse raw with
  | inl issues => (Returned (Rejected issues), w)
  | inr rq => Search.handler db rq w
  end.
Proof. unfold Search.route. by destruct (Search.parse raw). Qed.
End SearchRuns.

(** C1. The cache helpers never let a failure of the cache through.
    [cacheGet] always returns: it returns [null] when the GET command
    fails and when the stored text does not parse. [cacheSet] always
    returns, whether the SET command fails or not. With a Redis that
    fails every command the search route answers exactly as it does on
    a miss: the schema's refusal, the coordinate error, or the response
    computed from the database, marked [MISS]. *)
Theorem cache_failures_are_misses (rt : JsRuntime) (pg : Sql.Postgres) :
  (forall (Q T : Type) (key : string) (w : World Q T),
     exists (r : option T) (w' : World Q T),
       Cache.cacheGet key w = (Returned r, w')
       /\ (Redis.outage (redis w) (Redis.served (redis w)) = true -> r = None)
       /\ (Redis.value <$> Redis.store (redis w) !! key = Some Redis.Garbage
           -> r = None))
  /\ (forall (Q T : Type) (key : string) (data : T) (ttl : Z) (w : World Q T),
       exists w' : World Q T, Cache.cacheSet key data ttl w = (Returned tt, w'))
  /\ (forall (db : Sql.Database) (raw : Search.RawQuery)
             (st : gmap string (Redis.Entry Search.Response)),
       (Search.route db raw (arrival (Redis.unreachable st))).1
       = match Search.parse raw with
         | inl issues => Returned (Rejected issues)
         | inr rq =>
             if Search.distanceWithoutCoordinates rq
             then Returned (Failed 400 "Bad Request" Search.coordinatesMessage)
             else Returned (Sent "MISS" (Search.respond db rq))
         end
       /\ (Search.route db raw (arrival (Redis.unreachable st))).1
          = (Search.route db raw (arrival (Redis.healthy ∅))).1).
Proof.
  split; [|split].
  - intros Q T key w. eexists _, _. split; [apply cacheGet_run|].
    unfold Cache.found. split.
    + by intros ->.
    + intros Hg. destruct (Redis.outage _ _); [done|].
      destruct (Redis.store (redis w) !! key) as [[[v|] ttl]|]; by simplify_eq/=.
  - intros Q T key data ttl w. eexists. apply cacheSet_run.
  - intros db raw st.
    rewrite !route_run. destruct (Search.parse raw) as [issues|rq]; [done|].
    rewrite !handler_run. simpl.
    unfold Cache.found. simpl. rewrite lookup_empty.
    by destruct (Search.distanceWithoutCoordinates rq).
Qed.

(** ** Queries over [restaurants] *)

Section QueryFacts.
Context {pg : Sql.Postgres}.

Lemma limitOffset_elem_of {R} (l : option Z) (o : Z) (rows : list R) (x : R) :
  x ∈ Sql.limitOffset l o rows -> x ∈ rows.
Proof.
  unfold Sql.limitOffset. destruct l as [n|]; intros Hx.
  - apply subseteq_take in Hx. by apply subseteq_drop in Hx.
  - by apply subseteq_drop in Hx.
Qed.

Lemma limitOffset_length {R} (n o : Z) (rows : list R) :
  (length (Sql.limitOffset (Some n) o rows) <= Z.to_nat n)%nat.
Proof. unfold Sql.limitOffset. rewrite length_take. lia. Qed.

Lemma limitOffset_sorted {R} (S : relation R) l o (rows : list R) :
  StronglySorted S rows -> StronglySorted S (Sql.limitOffset l o rows).
Proof.
  intros Hs. unfold Sql.limitOffset.
  destruct l; [apply StronglySorted_take|]; by apply StronglySorted_drop.
Qed.

(** Every row a query returns is a row of the table that satisfies
    each fragment of the conjunction. *)
Lemma selectRestaurants_elem_of db conds order l o (r : Sql.Restaurant) :
  r ∈ Sql.selectRestaurants db conds order l o ->
  r ∈ Sql.restaurants db /\ forall c, c ∈ conds -> Sql.holds c r = true.
Proof.
  unfold Sql.selectRestaurants, Sql.orderBy.
  intros Hr%limitOffset_elem_of. rewrite stable_sort_elem_of in Hr.
  apply list_elem_of_filter in Hr as [Hw Hr]. split; [done|].
  intros c Hc. unfold Sql.whereAll in Hw.
  rewrite forallb_forall in Hw. apply Hw. by apply list_elem_of_In.
Qed.
End QueryFacts.

(** C3. Whatever filters a request carries, the conjunction built by
    the search handler contains the fragment [is_active = true]; the
    page query and the count query are sent with that one conjunction,
    and no statement over [restaurants] leaves the route without it;
    hence every venue of a computed page has its activation flag set. *)
Theorem active_filter_always_present (rt : JsRuntime) (pg : Sql.Postgres) :
  (forall (q : string) (district cuisine : option string)
          (price_range min_score lat lng : option Qc),
     Sql.IsActive
     ∈ Search.conditions q district cuisine price_range min_score lat lng)
  /\ (forall (db : Sql.Database) (rq : Search.QueryObject),
        exists order limit offset more,
          Search.statements db rq
          = Search.SelectPage (Search.whereClause rq) order limit offset
            :: Search.SelectCount (Search.whereClause rq) :: more
          /\ Sql.IsActive ∈ Search.whereClause rq)
  /\ (forall (db : Sql.Database) (raw : Search.RawQuery)
             (s : Redis.Server Search.Response),
        Forall Search.activeOnly (log (Search.route db raw (arrival s)).2))
  /\ (forall (db : Sql.Database) (rq : Search.QueryObject) (item : Search.Item),
        item ∈ Search.data (Search.respond db rq) ->
        exists r, r ∈ Sql.restaurants db /\ Sql.isActive r = true
                  /\ Search.id item = Sql.id r).
Proof.
  assert (forall q d c p m la ln,
            Sql.IsActive ∈ Search.conditions q d c p m la ln) as Hactive.
  { intros. unfold Search.conditions. apply elem_of_cons. by left. }
  split; [exact Hactive|]. split; [|split].
  - intros db rq. unfold Search.statements. simpl.
    eexists _, _, _, _. split; [reflexivity|]. apply Hactive.
  - intros db raw s. rewrite route_run.
    destruct (Search.parse raw) as [issues|rq]; [by constructor|].
    rewrite handler_run. simpl.
    destruct (Cache.found s (Search.cacheKey rq)); simpl;
      [by repeat constructor|].
    destruct (Search.distanceWithoutCoordinates rq); simpl;
      [by repeat constructor|].
    unfold Search.statements.
    repeat (apply Forall_app; split); repeat constructor; simpl;
      try apply Hactive.
    destruct (Sql.id <$> Search.results db rq); by repeat constructor.
  - intros db rq item Hitem. unfold Search.respond, Search.assemble in Hitem.
    simpl in Hitem. apply list_elem_of_fmap in Hitem as (r & -> & Hr).
    unfold Search.results in Hr.
    apply selectRestaurants_elem_of in Hr as [Hr Hc].
    exists r. split; [done|]. split; [|done].
    apply (Hc Sql.IsActive). apply Hactive.
Qed.

(** ** The order of [ORDER BY] *)

Lemma Qltb_lt (x y : Q) : Sql.Qltb x y = true <-> (x < y)%Q.
Proof.
  unfold Sql.Qltb. rewrite negb_true_iff, <- not_true_iff_false, Qle_bool_iff.
  split; [apply Qnot_le_lt|apply Qlt_not_le].
Qed.

Lemma Qltb_ge (x y : Q) : Sql.Qltb x y = false <-> (y <= x)%Q.
Proof.
  unfold Sql.Qltb. rewrite negb_false_iff. apply Qle_bool_iff.
Qed.

Lemma key_before_asym d n (a b : option Q) :
  Sql.key_before d n a b = true -> Sql.key_before d n b a = false.
Proof.
  destruct a as [x|], b as [y|], d, n; simpl; try done;
    rewrite Qltb_lt, Qltb_ge; apply Qlt_le_weak.
Qed.

Lemma key_before_trans d n (a b c : option Q) :
  Sql.key_before d n b a = false -> Sql.key_before d n c b = false ->
  Sql.key_before d n c a = false.
Proof.
  destruct a as [x|], b as [y|], c as [z|], d, n; simpl; try done;
    rewrite !Qltb_ge; intros; eapply Qle_trans; eassumption.
Qed.

Section OrderFacts.
Context {R E : Type} (eval : E -> R -> option Q).
Implicit Types (t : Sql.Term E) (ts : list (Sql.Term E)) (a b c : R).

Lemma term_before_asym t a b :
  Sql.term_before eval t a b = true -> Sql.term_before eval t b a = false.
Proof. apply key_before_asym. Qed.

Lemma term_before_trans t a b c :
  Sql.term_before eval t b a = false -> Sql.term_before eval t c b = false ->
  Sql.term_before eval t c a = false.
Proof. apply key_before_trans. Qed.

(** [a] before [b] and [b] not before [c] put [a] before [c]. *)
Lemma key_before_left d n (x y z : option Q) :
  Sql.key_before d n x y = true -> Sql.key_before d n z y = false ->
  Sql.key_before d n x z = true.
Proof.
  destruct x as [x|], y as [y|], z as [z|], d, n; simpl; try done;
    rewrite !Qltb_lt, Qltb_ge; intros;
    first [eapply Qlt_le_trans; eassumption|eapply Qle_lt_trans; eassumption].
Qed.

Lemma key_before_right d n (x y z : option Q) :
  Sql.key_before d n y x = false -> Sql.key_before d n y z = true ->
  Sql.key_before d n x z = true.
Proof.
  destruct x as [x|], y as [y|], z as [z|], d, n; simpl; try done;
    rewrite Qltb_ge, !Qltb_lt; intros;
    first [eapply Qle_lt_trans; eassumption|eapply Qlt_le_trans; eassumption].
Qed.

Lemma row_before_asym ts a b :
  Sql.row_before eval ts a b = true -> Sql.row_before eval ts b a = false.
Proof.
  induction ts as [|t ts IH]; simpl; [done|].
  intros [Hab|[Hba Hts]%andb_true_iff]%orb_true_iff.
  - rewrite (term_before_asym _ _ _ Hab). by rewrite Hab.
  - apply negb_true_iff in Hba. rewrite Hba. simpl.
    rewrite (IH Hts). apply andb_false_r.
Qed.

Lemma row_before_trans ts a b c :
  Sql.row_before eval ts b a = false -> Sql.row_before eval ts c b = false ->
  Sql.row_before eval ts c a = false.
Proof.
  induction ts as [|t ts IH]; simpl; [done|].
  intros [Hba Hba']%orb_false_iff [Hcb Hcb']%orb_false_iff.
  apply orb_false_iff. split; [by eapply term_before_trans|].
  apply andb_false_iff.
  apply andb_false_iff in Hba' as [Hab|Hts1];
    apply andb_false_iff in Hcb' as [Hbc|Hts2].
  - left. apply negb_false_iff in Hab, Hbc. apply negb_false_iff.
    unfold Sql.term_before in *. eapply key_before_left; [exact Hab|].
    done.
  - left. apply negb_false_iff in Hab. apply negb_false_iff.
    unfold Sql.term_before in *. eapply key_before_left; [exact Hab|done].
  - left. apply negb_false_iff in Hbc. apply negb_false_iff.
    unfold Sql.term_before in *. eapply key_before_right; [|exact Hbc]. done.
  - destruct (Sql.term_before eval t a c) eqn:Hac; [by left|].
    right. by apply IH.
Qed.

(** [ORDER BY] returns the rows it is given, sorted. *)
Lemma orderBy_Permutation ts (rows : list R) :
  Sql.orderBy eval ts rows ≡ₚ rows.
Proof. apply stable_sort_Permutation. Qed.

Lemma orderBy_sorted ts (rows : list R) :
  StronglySorted (inOrder (Sql.row_before eval ts)) (Sql.orderBy eval ts rows).
Proof.
  apply stable_sort_sorted.
  - apply row_before_asym.
  - intros a b c. apply row_before_trans.
Qed.
End OrderFacts.

(** ** The three best dishes of each venue *)

Section Grouping.
Implicit Types (dish : Sql.FoodScore) (rows : list Sql.FoodScore)
  (dishMap : gmap Z (list Search.TopDish)) (rid : Z).



End Grouping.

Section TopDishes.
Context {rt : JsRuntime} {pg : Sql.Postgres}.
Implicit Types (db : Sql.Database) (rq : Search.QueryObject).





End TopDishes.


(** ** The order of a page *)

Section PageOrder.
Context {rt : JsRuntime} {pg : Sql.Postgres}.
Implicit Types (db : Sql.Database) (rq : Search.QueryObject).

Lemma results_sorted db rq :
  StronglySorted
    (inOrder (Sql.row_before Sql.restaurantKey [Search.orderOf rq]))
    (Search.results db rq).
Proof.
  unfold Search.results, Sql.selectRestaurants.
  apply limitOffset_sorted, orderBy_sorted.
Qed.

Lemma results_where db rq (r : Sql.Restaurant) (c : Sql.Condition) :
  r ∈ Search.results db rq -> c ∈ Search.whereClause rq ->
  Sql.holds c r = true.
Proof.
  unfold Search.results. intros [_ Hc]%selectRestaurants_elem_of. apply Hc.
Qed.

(** With both coordinates every row of the page has a location. *)
Lemma results_located db rq (la ln : Qc) (r : Sql.Restaurant) :
  Search.lat_ rq = Some la -> Search.lng_ rq = Some ln ->
  r ∈ Search.results db rq -> is_Some (Sql.location r).
Proof.
  intros Hla Hln Hr.
  assert (Sql.holds (Sql.WithinRadius ln la 10000) r = true) as Hw.
  { apply (results_where db rq); [done|].
    unfold Search.whereClause, Search.conditions. rewrite Hla, Hln.
    rewrite !elem_of_app. do 5 right. apply elem_of_cons. by left. }
  simpl in Hw. by destruct (Sql.location r).
Qed.

Lemma orderClause_distance rq (la ln : Qc) :
  Search.sort_by_ rq = "distance" ->
  Search.lat_ rq = Some la -> Search.lng_ rq = Some ln ->
  Search.orderOf rq = Sql.asc (Sql.DistanceTo ln la).
Proof.
  intros Hs Hla Hln. unfold Search.orderOf, Search.orderClause.
  by rewrite Hs, Hla, Hln.
Qed.

Lemma orderClause_newest rq :
  Search.sort_by_ rq = "newest" ->
  Search.orderOf rq = Sql.desc Sql.CreatedAt.
Proof.
  intros Hs. unfold Search.orderOf, Search.orderClause. by rewrite Hs.
Qed.
End PageOrder.

(** C6, as the code has it. The [ORDER BY] of the page query has one
    term and no tie-break: for [sort_by = distance] with both
    coordinates it is the distance ascending and the page is in
    ascending order of distance; for [sort_by = newest] it is the
    creation time descending and the rows of the page are in descending
    order of creation time; otherwise it is the score descending with
    [NULL] last. *)
Theorem page_sorted_by_one_key (rt : JsRuntime) (pg : Sql.Postgres)
    (db : Sql.Database) (rq : Search.QueryObject) :
  (exists more,
     Search.statements db rq
     = Search.SelectPage (Search.whereClause rq) (Search.orderOf rq)
                         (Search.limit_ rq) (Search.offset_ rq) :: more)
  /\ Search.data (Search.respond db rq)
     = Search.toItem (Search.lat_ rq) (Search.lng_ rq)
         (Search.dishMapOf db (Search.results db rq))
       <$> Search.results db rq
  /\ (forall la ln,
        Search.sort_by_ rq = "distance" ->
        Search.lat_ rq = Some la -> Search.lng_ rq = Some ln ->
        Search.orderOf rq = Sql.asc (Sql.DistanceTo ln la)
        /\ StronglySorted Search.nearerFirst (Search.data (Search.respond db rq)))
  /\ (Search.sort_by_ rq = "newest" ->
      Search.orderOf rq = Sql.desc Sql.CreatedAt
      /\ StronglySorted Search.newerFirst (Search.results db rq))
  /\ (Search.sort_by_ rq <> "distance" -> Search.sort_by_ rq <> "newest" ->
      Search.orderOf rq = Sql.descNullsLast Sql.OverallScore).
Proof.
  split; [by eexists|]. split; [done|]. split; [|split].
  - intros la ln Hs Hla Hln.
    pose proof (orderClause_distance rq la ln Hs Hla Hln) as Horder.
    split; [done|]. unfold Search.respond, Search.assemble. simpl.
    apply (StronglySorted_fmap _
             (fun a b => Search.nearerFirst
                           (Search.toItem (Search.lat_ rq) (Search.lng_ rq)
                              (Search.dishMapOf db (Search.results db rq)) a)
                           (Search.toItem (Search.lat_ rq) (Search.lng_ rq)
                              (Search.dishMapOf db (Search.results db rq)) b)));
      [done|].
    eapply StronglySorted_impl; [|apply results_sorted].
    intros a b Ha Hb. rewrite Horder.
    destruct (results_located db rq la ln a Hla Hln Ha) as [pa Hpa].
    destruct (results_located db rq la ln b Hla Hln Hb) as [pb Hpb].
    unfold inOrder, Search.nearerFirst, Search.toItem, Search.distanceExpr.
    simpl. unfold Sql.term_before. simpl.
    rewrite Hla, Hln. simpl. rewrite Hpa, Hpb. simpl.
    rewrite andb_false_r, orb_false_r, Qltb_ge. intros Hle.
    unfold Qdiv. by apply Qmult_le_compat_r.
  - intros Hs. pose proof (orderClause_newest rq Hs) as Horder.
    split; [done|].
    eapply StronglySorted_impl; [|apply results_sorted].
    intros a b _ _. rewrite Horder.
    unfold inOrder, Search.newerFirst. simpl. unfold Sql.term_before. simpl.
    rewrite andb_false_r, orb_false_r, Qltb_ge.
    unfold Qle. simpl. lia.
  - intros Hd Hn. unfold Search.orderOf, Search.orderClause.
    apply String.eqb_neq in Hd, Hn. by rewrite Hd, Hn.
Qed.

(** Two venues at the same distance, and created at the same instant,
    come out in the order of the table, the lower score first: ties are
    not broken by score. *)
Lemma ties_not_broken_by_score :
  ~ StronglySorted Search.nearerThenBetter
      (Search.data
                   (Search.respond (pg:=Demo.postgres) Demo.db Demo.byDistance))
  /\ ~ StronglySorted Search.newerThenBetter
         (Search.results (pg:=Demo.postgres) Demo.db Demo.byNewest).
Proof.
  split.
  - intros Hs.
    set (l := Search.data _) in Hs. vm_compute in l. subst l.
    apply StronglySorted_cons in Hs as [Hall _].
    apply Forall_cons in Hall as [Hrel _].
    unfold Search.nearerThenBetter in Hrel. simpl in Hrel.
    destruct Hrel as [Hlt|[_ Hle]]; [by apply Qlt_irrefl in Hlt|lia].
  - intros Hs.
    set (l := Search.results _ _) in Hs. vm_compute in l. subst l.
    apply StronglySorted_cons in Hs as [Hall _].
    apply Forall_cons in Hall as [Hrel _].
    unfold Search.newerThenBetter in Hrel. simpl in Hrel.
    destruct Hrel as [Hlt|[_ Hle]]; lia.
Qed.

(** ** The small installation satisfies the assumptions on the runtime *)

Section DemoFacts.
Implicit Types (s t : string) (x y : Qc).

Lemma numeric_app s t :
  Demo.numeric (s +:+ t) = Demo.numeric s && Demo.numeric t.
Proof.
  unfold String.app. induction s as [|c s IH]; simpl; [done|].
  rewrite IH. by rewrite andb_assoc.
Qed.

Lemma numeric_plain s : Demo.numeric s = true -> plainText s = true.
Proof.
  induction s as [|c s IH]; simpl; [done|].
  intros [Hc Hs]%andb_true_iff. rewrite (IH Hs), andb_true_r.
  apply negb_true_iff.
  destruct (Js.code c =? 34)%N eqn:E1; [apply N.eqb_eq in E1; rewrite E1 in Hc; done|].
  destruct (Js.code c =? 44)%N eqn:E2; [apply N.eqb_eq in E2; rewrite E2 in Hc; done|].
  destruct (Js.code c =? 125)%N eqn:E3; [apply N.eqb_eq in E3; rewrite E3 in Hc; done|].
  done.
Qed.

Lemma numeric_pretty_N_go (n : N) s :
  Demo.numeric s = true -> Demo.numeric (pretty_N_go n s) = true.
Proof.
  revert s. induction (N.lt_wf_0 n) as [n _ IH]. intros s Hs.
  destruct (decide (n = 0%N)) as [->|Hn]; [by rewrite pretty_N_go_0|].
  rewrite pretty_N_go_step by lia. apply IH.
  - apply N.div_lt; lia.
  - simpl. rewrite Hs, andb_true_r.
    assert (n `mod` 10 < 10)%N as Hlt by (apply N.mod_lt; lia).
    destruct (n `mod` 10)%N as [|p]; [done|].
    do 4 (destruct p as [p|p|]; try done; try lia).
Qed.

Lemma numeric_pretty_N (n : N) : Demo.numeric (pretty n) = true.
Proof.
  unfold pretty, pretty_N. case_decide; [done|].
  by apply numeric_pretty_N_go.
Qed.

Lemma numeric_pretty_Z (z : Z) : Demo.numeric (pretty z) = true.
Proof.
  destruct z as [|p|p]; unfold pretty, pretty_Z; [done|..].
  - apply numeric_pretty_N.
  - rewrite numeric_app. simpl. apply numeric_pretty_N.
Qed.

(** A fraction can be split at its bar. *)
Lemma fraction_split (a a' b b' : string) :
  Demo.numeric a = true -> Demo.numeric a' = true ->
  a +:+ "/" +:+ b = a' +:+ "/" +:+ b' -> a = a' /\ b = b'.
Proof.
  unfold String.app. revert a'.
  induction a as [|c a IH]; intros [|c' a']; simpl; intros Ha Ha' Heq.
  - by injection Heq.
  - injection Heq as <- _. done.
  - injection Heq as -> _. done.
  - injection Heq as -> Heq.
    apply andb_true_iff in Ha as [_ Ha]. apply andb_true_iff in Ha' as [_ Ha'].
    destruct (IH a' Ha Ha' Heq) as [-> ->]. done.
Qed.

Lemma Qc_ext x y :
  Qnum (this x) = Qnum (this y) -> Qden (this x) = Qden (this y) -> x = y.
Proof.
  intros Hn Hd. apply Qc_is_canon.
  destruct x as [[n d] Hx], y as [[n' d'] Hy]. simpl in *. by subst.
Qed.

Lemma printNumber_inj x y : Demo.printNumber x = Demo.printNumber y -> x = y.
Proof.
  unfold Demo.printNumber, Search.isInt.
  destruct (Pos.eqb_spec (Qden (this x)) 1) as [Hx|Hx],
           (Pos.eqb_spec (Qden (this y)) 1) as [Hy|Hy]; intros Heq.
  - apply Qc_ext; [|congruence]. by apply (inj pretty).
  - apply (f_equal Demo.numeric) in Heq.
    rewrite numeric_pretty_Z, !numeric_app in Heq. simpl in Heq.
    by rewrite andb_false_r in Heq.
  - apply (f_equal Demo.numeric) in Heq.
    rewrite numeric_pretty_Z, !numeric_app in Heq. simpl in Heq.
    by rewrite andb_false_r in Heq.
  - apply fraction_split in Heq as [Hn Hd]; [|apply numeric_pretty_Z..].
    apply Qc_ext; [by apply (inj pretty)|].
    apply (inj pretty) in Hd. by injection Hd.
Qed.

Lemma printNumber_plain x : plainText (Demo.printNumber x) = true.
Proof.
  unfold Demo.printNumber. destruct (Search.isInt x).
  - apply numeric_plain, numeric_pretty_Z.
  - assert (forall a b, plainText a = true -> plainText b = true ->
                        plainText (a +:+ b) = true) as Happ.
    { unfold String.app. induction a as [|c a IH]; simpl; [done|].
      intros b [Hc Ha]%andb_true_iff Hb. by rewrite Hc, IH. }
    apply Happ; [apply numeric_plain, numeric_pretty_Z|].
    apply Happ; [done|apply numeric_plain, numeric_pretty_Z].
Qed.

Lemma pad_length (n : nat) s : String.length (Demo.pad n s) = n.
Proof.
  revert s. induction n as [|n IH]; intros s; simpl; [done|].
  destruct s; simpl; by rewrite IH.
Qed.

Lemma demo_laws : RuntimeLaws Demo.runtime.
Proof.
  split.
  - apply printNumber_inj.
  - apply printNumber_plain.
  - intros s. apply pad_length.
Qed.
End DemoFacts.

(** ** The order of validation *)

Section Validation.
Context {rt : JsRuntime}.
Implicit Types (raw : Search.RawQuery) (rq : Search.QueryObject).

Lemma parseKeys_keys raw (keys : list Search.Field) :
  (Search.parseKeys raw keys).2.*1 `sublist_of` keys.
Proof.
  induction keys as [|f keys IH]; simpl; [done|].
  destruct (Search.parseKeys raw keys) as [issues obj]. simpl in IH.
  destruct (Search.checkField raw f); simpl.
  - by apply sublist_cons.
  - by apply sublist_skip.
  - by apply sublist_cons.
Qed.

(** A validated query object has each key once. *)
Lemma parse_NoDup raw rq : Search.parse raw = inr rq -> NoDup rq.*1.
Proof.
  unfold Search.parse. intros Hp.
  pose proof (parseKeys_keys raw Search.schemaKeys) as Hsub.
  destruct (Search.parseKeys raw Search.schemaKeys) as [[|i issues] obj];
    [|done].
  injection Hp as <-. eapply sublist_NoDup; [|exact Hsub].
  apply (bool_decide_unpack _). by vm_compute.
Qed.

(** The refusal of [q] is among the issues, and [q] is kept as it was
    received. *)
Lemma parse_q raw :
  match Search.checkField raw Search.K_q with
  | Search.Refused c =>
      exists issues, Search.parse raw = inl issues
                     /\ {| path := "q"; issue := c |} ∈ issues
  | Search.Accepted v =>
      forall rq, Search.parse raw = inr rq ->
                 Js.getProperty rq Search.K_q = Some v
  | Search.Absent => True
  end.
Proof.
  unfold Search.parse, Search.schemaKeys.
  change (Search.parseKeys raw (Search.K_q :: ?l))
    with (let '(issues, obj) := Search.parseKeys raw l in
          match Search.checkField raw Search.K_q with
          | Search.Absent => (issues, obj)
          | Search.Accepted v => (issues, (Search.K_q, v) :: obj)
          | Search.Refused c =>
              ({| path := Search.fieldName Search.K_q; issue := c |} :: issues,
               obj)
          end).
  destruct (Search.parseKeys raw _) as [issues obj].
  destruct (Search.checkField raw Search.K_q) as [|v|c]; [done|..].
  - intros rq. destruct issues; [|done]. by intros [= <-].
  - eexists. split; [done|]. by left.
Qed.
End Validation.

(** C8, as the code has it. The search query is not trimmed: the schema
    checks the length of [q] as it was received. The request is refused
    for [q] exactly when [q] is missing or has fewer than 2 or more than
    100 code units; a refusal of [q] refuses the request, and an accepted
    request carries [q] unchanged, with 2 to 100 code units. *)
Theorem query_length_as_received (rt : JsRuntime) (raw : Search.RawQuery) :
  ((exists c, Search.checkField raw Search.K_q = Search.Refused c) <->
   match Search.rawGet raw "q" with
   | None => True
   | Some s => (String.length s < 2 \/ 100 < String.length s)%nat
   end)
  /\ ((exists c, Search.checkField raw Search.K_q = Search.Refused c) ->
      exists issues c, Search.parse raw = inl issues
                       /\ {| path := "q"; issue := c |} ∈ issues)
  /\ (forall rq, Search.parse raw = inr rq ->
        exists s, Search.rawGet raw "q" = Some s
                  /\ Search.getString rq Search.K_q = Some s
                  /\ (2 <= String.length s <= 100)%nat).
Proof.
  pose proof (parse_q raw) as Hq.
  unfold Search.checkField in *. simpl in *.
  destruct (Search.rawGet raw "q") as [s|]; simpl in *;
    unfold Search.stringBetween in *.
  - destruct (Nat.ltb_spec (String.length s) 2) as [H2|H2];
      [|destruct (Nat.ltb_spec 100 (String.length s)) as [H100|H100]].
    + split; [split; [by left|by eexists]|].
      destruct Hq as (issues & Hp & Hin).
      split; [intros _; by eexists _, _|]. intros rq. by rewrite Hp.
    + split; [split; [by right|by eexists]|].
      destruct Hq as (issues & Hp & Hin).
      split; [intros _; by eexists _, _|]. intros rq. by rewrite Hp.
    + split; [split; [by intros [c ?]|lia]|].
      split; [by intros [c ?]|].
      intros rq Hp. exists s. split; [done|]. split; [|lia].
      unfold Search.getString. by rewrite (Hq rq Hp).
  - destruct Hq as (issues & Hp & Hin).
    split; [split; [done|by eexists]|].
    split; [intros _; by eexists _, _|]. intros rq. by rewrite Hp.
Qed.

(** A query of two code units that trims to one is accepted, and
    answered with status 200. *)
Lemma short_after_trim_accepted :
  (String.length "a " = 2)%nat
  /\ (String.length (Js.trim "a ") < 2)%nat
  /\ (exists rq, Search.parse (rt:=Demo.runtime) [("q", "a ")] = inr rq
                 /\ Search.q_ rq = "a ")
  /\ (exists body,
        (Search.route (rt:=Demo.runtime) (pg:=Demo.postgres) Demo.db
           [("q", "a ")] (arrival Demo.emptyRedis)).1
        = Returned (Sent "MISS" body)).
Proof.
  split; [done|]. split; [vm_compute; lia|]. split.
  - eexists. split; [vm_compute; reflexivity|]. vm_compute. reflexivity.
  - eexists. rewrite route_run.
    replace (Search.parse (rt:=Demo.runtime) [("q", "a ")])
      with (inr (A:=list Issue)
              [(Search.K_q, Search.VString "a ");
               (Search.K_sort_by, Search.VString "score");
               (Search.K_page, Search.VNumber (Search.ofZ 1));
               (Search.K_limit, Search.VNumber (Search.ofZ 20))])
      by (vm_compute; reflexivity).
    rewrite handler_run. reflexivity.
Qed.

(** C7, as the code has it. A refusal by the schema is returned before
    any cache or storage call. The coordinate check of
    [sort_by = distance] runs after the cache lookup and before any
    statement is sent: the handler sends one GET to Redis and nothing
    else, and on a miss it answers 400 with the coordinate message. *)
Theorem validation_order (rt : JsRuntime) (pg : Sql.Postgres)
    (db : Sql.Database) (raw : Search.RawQuery)
    (w : World Search.Statement Search.Response) :
  (forall issues,
     Search.parse raw = inl issues ->
     Search.route db raw w = (Returned (Rejected issues), w))
  /\ (forall rq,
        Search.parse raw = inr rq ->
        Search.distanceWithoutCoordinates rq = true ->
        log (Search.route db raw w).2
        = log w ++ [ToRedis (Redis.GET (Search.cacheKey rq))]
        /\ (Cache.found (redis w) (Search.cacheKey rq) = None ->
            (Search.route db raw w).1
            = Returned (Failed 400 "Bad Request" Search.coordinatesMessage))).
Proof.
  rewrite route_run. split.
  - by intros issues ->.
  - intros rq -> Hd. rewrite handler_run. simpl. rewrite Hd.
    destruct (Cache.found (redis w) (Search.cacheKey rq)); by split.
Qed.

(** The coordinate error of [?q=kebap&sort_by=distance] is returned
    after a GET has been sent to Redis. *)
Lemma coordinate_check_follows_cache_read :
  let out := Search.route (rt:=Demo.runtime) (pg:=Demo.postgres) Demo.db
               Demo.noCoordinates (arrival Demo.emptyRedis) in
  out.1 = Returned (Failed 400 "Bad Request" Search.coordinatesMessage)
  /\ (exists key, log out.2 = [ToRedis (Redis.GET key)])
  /\ ~ noIO (log out.2).
Proof.
  simpl. rewrite route_run.
  replace (Search.parse (rt:=Demo.runtime) Demo.noCoordinates)
    with (inr (A:=list Issue)
            [(Search.K_q, Search.VString "kebap");
             (Search.K_sort_by, Search.VString "distance");
             (Search.K_page, Search.VNumber (Search.ofZ 1));
             (Search.K_limit, Search.VNumber (Search.ofZ 20))])
    by (vm_compute; reflexivity).
  rewrite handler_run. simpl. split; [done|]. split; [by eexists|done].
Qed.

(** ** The keys the search route leaves in Redis *)

Section SearchCoherence.
Context {rt : JsRuntime} {pg : Sql.Postgres}.
Implicit Types (db : Sql.Database) (rq : Search.QueryObject)
  (s : Redis.Server Search.Response).

Lemma cacheKey_prefix rq : String.prefix "search:" (Search.cacheKey rq) = true.
Proof.
  unfold Search.cacheKey, String.app. simpl. by destruct (md5_hex _).
Qed.

Lemma route_store db raw (w : World Search.Statement Search.Response) :
  Redis.store (redis (Search.route db raw w).2) = Redis.store (redis w)
  \/ exists rq body ttl,
       Search.parse raw = inr rq
       /\ Search.distanceWithoutCoordinates rq = false
       /\ Redis.store (redis (Search.route db raw w).2)
          = <[Search.cacheKey rq := {| Redis.value := Redis.Json body;
                                       Redis.ex := ttl |}]>
              (Redis.store (redis w)).
Proof.
  rewrite route_run. destruct (Search.parse raw) as [issues|rq]; [by left|].
  rewrite handler_run. simpl.
  destruct (Cache.found (redis w) (Search.cacheKey rq)); [by left|].
  destruct (Search.distanceWithoutCoordinates rq) eqn:Hd; [by left|].
  simpl. destruct (Redis.outage (redis w) (S (Redis.served (redis w))));
    [by left|].
  right. by eexists rq, _, _.
Qed.

Lemma reachable_written db s :
  Coherence.Reachable "search:" Search.route db s ->
  searchEntriesChecked s.
Proof.
  induction 1 as [db sch|db s raw events Hr IH|db s k Hr IH
                 |db s k e Hr IH Hk|db db' s Hr IH];
    intros key entry Hkey Hpre; simpl in *.
  - by rewrite lookup_empty in Hkey.
  - destruct (route_store db raw {| redis := s; log := events |})
      as [Hst|(rq & body & ttl & Hp & Hd & Hst)];
      rewrite Hst in Hkey; simpl in Hkey.
    + by eapply IH.
    + destruct (decide (Search.cacheKey rq = key)) as [<-|Hne].
      * by exists raw, rq.
      * rewrite lookup_insert_ne in Hkey by done. by eapply IH.
  - apply lookup_delete_Some in Hkey as [_ Hkey]. by eapply IH.
  - destruct (decide (k = key)) as [->|Hne]; [congruence|].
    rewrite lookup_insert_ne in Hkey by done. by eapply IH.
  - by eapply IH.
Qed.
End SearchCoherence.

Section CoordinateCheck.
Context {rt : JsRuntime} {pg : Sql.Postgres}.
Implicit Types (db : Sql.Database) (rq : Search.QueryObject).

(** The check reads the object by key, so the order of the keys does
    not matter. *)
Lemma distanceWithoutCoordinates_Permutation rq rq' :
  NoDup rq.*1 -> rq ≡ₚ rq' ->
  Search.distanceWithoutCoordinates rq = Search.distanceWithoutCoordinates rq'.
Proof.
  intros Hnd Hperm.
  unfold Search.distanceWithoutCoordinates, Search.sort_by_, Search.lat_,
    Search.lng_, Search.getString, Search.getNumber.
  by rewrite !(getProperty_Permutation rq rq').
Qed.

Lemma coordinatesMessage_names :
  Js.includes Search.coordinatesMessage "lat" = true
  /\ Js.includes Search.coordinatesMessage "lng" = true.
Proof. split; reflexivity. Qed.
End CoordinateCheck.

(** C4. In every state the cache can reach, a validated request with
    [sort_by = distance] that lacks the latitude or the longitude sends
    no statement to the database, so no other ordering is ever computed
    for it, and it is answered 400 Bad Request with a message that names
    [lat] and [lng] whenever [cacheGet] finds nothing under its key. The
    route stores no entry for such a request: the one other reply is a
    [HIT] on the entry of a different validated request that passed the
    check, whose canonical text differs from the text of this request
    and has the same MD5 digest. *)
Theorem distance_needs_coordinates (rt : JsRuntime) (laws : RuntimeLaws rt)
    (pg : Sql.Postgres) (db : Sql.Database)
    (s : Redis.Server Search.Response)
    (raw : Search.RawQuery) (rq : Search.QueryObject) :
  Coherence.Reachable "search:" Search.route db s ->
  Search.parse raw = inr rq ->
  Search.sort_by_ rq = "distance" ->
  Search.lat_ rq = None \/ Search.lng_ rq = None ->
  let out := Search.route db raw (arrival s) in
  noStorageQuery (log out.2)
  /\ (out.1 = Returned (Failed 400 "Bad Request" Search.coordinatesMessage)
      \/ exists raw' rq' body,
           Search.parse raw' = inr rq'
           /\ Search.distanceWithoutCoordinates rq' = false
           /\ keysCollide rq rq'
           /\ Cache.found s (Search.cacheKey rq) = Some body
           /\ out.1 = Returned (Sent "HIT" body))
  /\ (Cache.found s (Search.cacheKey rq) = None ->
      out.1 = Returned (Failed 400 "Bad Request" Search.coordinatesMessage))
  /\ Js.includes Search.coordinatesMessage "lat" = true
  /\ Js.includes Search.coordinatesMessage "lng" = true.
Proof.
  intros Hreach Hparse Hsort Hmissing out.
  assert (Search.distanceWithoutCoordinates rq = true) as Hd.
  { unfold Search.distanceWithoutCoordinates. rewrite Hsort. simpl.
    destruct Hmissing as [->| ->]; simpl; [done|]. apply orb_true_r. }
  subst out. rewrite route_run, Hparse, handler_run. simpl. rewrite Hd.
  assert (forall key, noStorageQuery
            (Q:=Search.Statement) [ToRedis (Redis.GET key)]) as Hno.
  { intros key q Hin. apply elem_of_cons in Hin as [?|Hin]; [done|].
    by apply elem_of_nil in Hin. }
  destruct (Cache.found s (Search.cacheKey rq)) as [body|] eqn:Hfound; simpl.
  - split; [apply Hno|].
    split; [right|split; [done|apply coordinatesMessage_names]].
    pose proof Hfound as Hstored. unfold Cache.found in Hstored.
    destruct (Redis.outage s (Redis.served s)); [done|].
    destruct (Redis.store s !! Search.cacheKey rq) as [entry|] eqn:Hkey; [|done].
    destruct (reachable_written db s Hreach _ _ Hkey (cacheKey_prefix rq))
      as (raw' & rq' & Hparse' & Heq & Hd').
    apply cacheKey_inj in Heq as [Hperm|Hcol];
      [|by exists raw', rq', body|by eapply parse_NoDup|by eapply parse_NoDup].
    rewrite (distanceWithoutCoordinates_Permutation rq rq') in Hd;
      [congruence|by eapply parse_NoDup|done].
  - split; [apply Hno|].
    split; [by left|split; [done|apply coordinatesMessage_names]].
Qed.

(** ** Runs of the restaurant detail route *)

Section DetailRuns.
Context {pg : Sql.Postgres}.
Implicit Types (db : Sql.Database) (slug : string)
  (w : World RestaurantDetail.Statement RestaurantDetail.Response)
  (s : Redis.Server RestaurantDetail.Response).

Lemma dishMentionsOf_nil db : RestaurantDetail.dishMentionsOf db [] = [].
Proof.
  unfold RestaurantDetail.dishMentionsOf.
  induction (Sql.foodMentions db) as [|m l IH]; [done|].
  rewrite filter_cons. destruct (decide _) as [Hin|_]; [|done].
  by apply elem_of_nil in Hin.
Qed.

Lemma describe_run db (rest : Sql.Restaurant) w :
  RestaurantDetail.describe db rest w
  = (Returned (RestaurantDetail.details db rest),
     logged w (RestaurantDetail.statements db rest)).
Proof.
  unfold RestaurantDetail.describe, RestaurantDetail.details,
    RestaurantDetail.statements, bind, emit, ret, logged. simpl.
  destruct (_ <$> RestaurantDetail.recentReviewsOf db (Sql.id rest))
    as [|i ids] eqn:Hids; simpl.
  - rewrite dishMentionsOf_nil. simpl. by rewrite <- !app_assoc.
  - by rewrite <- !app_assoc.
Qed.

Lemma detail_handler_run db slug w :
  RestaurantDetail.handler db slug w =
  let key := RestaurantDetail.cacheKey slug in
  let asked :=
    logged (Cache.afterGet w key)
      [RestaurantDetail.SelectRestaurant
         (RestaurantDetail.detailConditions slug) 1] in
  match Cache.found (redis w) key with
  | Some body => (Returned (Sent "HIT" body), Cache.afterGet w key)
  | None =>
      match RestaurantDetail.restaurantResult db slug with
      | [] =>
          (Returned (Failed 404 "Not Found"
                            (RestaurantDetail.notFoundMessage slug)),
           asked)
      | rest :: _ =>
          (Returned (Sent "MISS" (RestaurantDetail.details db rest)),
           Cache.afterSet
             (logged asked (RestaurantDetail.statements db rest))
             key (RestaurantDetail.details db rest) 900)
      end
  end.
Proof.
  unfold RestaurantDetail.handler. unfold bind at 1. rewrite cacheGet_run.
  simpl. destruct (Cache.found (redis w) (RestaurantDetail.cacheKey slug));
    [done|].
  unfold bind at 1, emit at 1. simpl.
  destruct (RestaurantDetail.restaurantResult db slug) as [|rest more];
    [done|].
  unfold bind at 1. rewrite describe_run.
  unfold bind at 1. by rewrite cacheSet_run.
Qed.

Lemma detail_route_run db slug w :
  RestaurantDetail.route db slug w =
  match RestaurantDetail.checkSlug slug with
  | Some c => (Returned (Rejected [{| path := "slug"; issue := c |}]), w)
  | None => RestaurantDetail.handler db slug w
  end.
Proof.
  unfold RestaurantDetail.route. by destruct (RestaurantDetail.checkSlug slug).
Qed.

(** The first row of the query for the restaurant, if any, is an active
    venue with the slug asked for. *)
Lemma restaurantResult_head db slug (rest : Sql.Restaurant) more :
  RestaurantDetail.restaurantResult db slug = rest :: more ->
  rest ∈ Sql.restaurants db /\ Sql.slug rest = slug
  /\ Sql.isActive rest = true.
Proof.
  intros Hres.
  assert (rest ∈ RestaurantDetail.restaurantResult db slug) as Hin
    by (rewrite Hres; by left).
  unfold RestaurantDetail.restaurantResult in Hin.
  apply selectRestaurants_elem_of in Hin as [Hin Hc]. split; [done|]. split.
  - apply String.eqb_eq. apply (Hc (Sql.SlugIs slug)). by left.
  - apply (Hc Sql.IsActive). right. by left.
Qed.

(** Switched-off venues do not show: the query gives the same rows
    with and without them. *)
Lemma filter_active_where (l : list Sql.Restaurant) slug :
  filter (fun r => Sql.whereAll (RestaurantDetail.detailConditions slug) r = true)
         (filter (fun r => Sql.isActive r = true) l)
  = filter (fun r => Sql.whereAll (RestaurantDetail.detailConditions slug) r = true)
           l.
Proof.
  induction l as [|r l IH]; [done|].
  rewrite (filter_cons (fun r => Sql.isActive r = true)).
  destruct (decide (Sql.isActive r = true)) as [Ha|Ha].
  - by rewrite !filter_cons, IH.
  - rewrite IH, filter_cons. rewrite decide_False; [done|].
    unfold Sql.whereAll. simpl. apply not_true_is_false in Ha. rewrite Ha.
    simpl. by rewrite andb_false_r.
Qed.

Lemma restaurantResult_dropInactive db slug :
  RestaurantDetail.restaurantResult (Sql.dropInactive db) slug
  = RestaurantDetail.restaurantResult db slug.
Proof.
  unfold RestaurantDetail.restaurantResult, Sql.selectRestaurants.
  change (Sql.restaurants (Sql.dropInactive db))
    with (filter (fun r => Sql.isActive r = true) (Sql.restaurants db)).
  by rewrite filter_active_where.
Qed.

Lemma detail_cacheKey_prefix slug :
  String.prefix "restaurant:" (RestaurantDetail.cacheKey slug) = true.
Proof.
  unfold RestaurantDetail.cacheKey, String.app. simpl. by destruct slug.
Qed.

Lemma detail_route_store db slug w :
  Redis.store (redis (RestaurantDetail.route db slug w).2)
  = Redis.store (redis w)
  \/ exists rest more ttl,
       RestaurantDetail.restaurantResult db slug = rest :: more
       /\ Redis.store (redis (RestaurantDetail.route db slug w).2)
          = <[RestaurantDetail.cacheKey slug :=
                {| Redis.value := Redis.Json (RestaurantDetail.details db rest);
                   Redis.ex := ttl |}]> (Redis.store (redis w)).
Proof.
  rewrite detail_route_run.
  destruct (RestaurantDetail.checkSlug slug); [by left|].
  rewrite detail_handler_run. simpl.
  destruct (Cache.found (redis w) (RestaurantDetail.cacheKey slug)); [by left|].
  destruct (RestaurantDetail.restaurantResult db slug) as [|rest more] eqn:E;
    [by left|].
  simpl. destruct (Redis.outage (redis w) (S (Redis.served (redis w))));
    [by left|].
  right. by eexists rest, more, _.
Qed.

(** Nothing deletes a key when the database changes: an entry stays as
    it was computed. *)
Lemma detail_reachable_computed db s :
  Coherence.Reachable "restaurant:" RestaurantDetail.route db s ->
  detailEntriesComputed s.
Proof.
  induction 1 as [db sch|db s slug0 events Hr IH|db s k Hr IH
                 |db s k e Hr IH Hk|db db' s Hr IH];
    intros slug entry Hkey; simpl in *.
  - by rewrite lookup_empty in Hkey.
  - destruct (detail_route_store db slug0 {| redis := s; log := events |})
      as [Hst|(rest & more & ttl & Hres & Hst)];
      rewrite Hst in Hkey; simpl in Hkey.
    + by eapply IH.
    + destruct (decide (slug0 = slug)) as [->|Hne].
      * rewrite lookup_insert_eq in Hkey. injection Hkey as <-.
        by exists db, rest, more.
      * rewrite lookup_insert_ne in Hkey; [by eapply IH|].
        unfold RestaurantDetail.cacheKey. by intros ?%String.app_inj.
  - apply lookup_delete_Some in Hkey as [_ Hkey]. by eapply IH.
  - destruct (decide (k = RestaurantDetail.cacheKey slug)) as [->|Hne].
    + by rewrite detail_cacheKey_prefix in Hk.
    + rewrite lookup_insert_ne in Hkey by done. by eapply IH.
  - by eapply IH.
Qed.
End DetailRuns.

(** C9, as the code has it. The detail query asks for the slug and for
    [is_active = true], and the cache is read before it. In every state
    the cache can reach (nothing deletes a key when the database
    changes): when [cacheGet] finds nothing under the key, a slug that
    only switched-off venues carry is answered 404 Not Found and a 200
    reply, a [MISS], carries the details of a venue of the database that
    has the slug and is switched on; when [cacheGet] finds a body, the
    reply is a [HIT] with that body, the details of a venue that had the
    slug and was switched on in the database the entry was computed
    from. In both cases the route answers exactly as it would if the
    switched-off venues did not exist. *)
Theorem inactive_venue_is_not_found (pg : Sql.Postgres) (db : Sql.Database)
    (s : Redis.Server RestaurantDetail.Response) (slug : string) :
  Coherence.Reachable "restaurant:" RestaurantDetail.route db s ->
  let out := RestaurantDetail.route db slug (arrival s) in
  RestaurantDetail.detailConditions slug = [Sql.SlugIs slug; Sql.IsActive]
  /\ (forall conds n,
        ToDb (RestaurantDetail.SelectRestaurant conds n) ∈ log out.2 ->
        conds = RestaurantDetail.detailConditions slug)
  /\ (forall x body,
        out.1 = Returned (Sent x body) ->
        (x = "MISS"
         /\ Cache.found s (RestaurantDetail.cacheKey slug) = None
         /\ exists r, r ∈ Sql.restaurants db /\ Sql.slug r = slug
                      /\ Sql.isActive r = true
                      /\ body = RestaurantDetail.details db r)
        \/ (x = "HIT"
            /\ Cache.found s (RestaurantDetail.cacheKey slug) = Some body
            /\ exists db' r, r ∈ Sql.restaurants db' /\ Sql.slug r = slug
                             /\ Sql.isActive r = true
                             /\ body = RestaurantDetail.details db' r))
  /\ (Cache.found s (RestaurantDetail.cacheKey slug) = None ->
      (forall r, r ∈ Sql.restaurants db -> Sql.slug r = slug ->
                 Sql.isActive r = false) ->
      RestaurantDetail.checkSlug slug = None ->
      out.1 = Returned (Failed 404 "Not Found"
                               (RestaurantDetail.notFoundMessage slug)))
  /\ out = RestaurantDetail.route (Sql.dropInactive db) slug (arrival s).
Proof.
  intros Hreach out. subst out. split; [done|].
  pose proof (detail_reachable_computed db s Hreach slug) as Hstored.
  rewrite !detail_route_run.
  destruct (RestaurantDetail.checkSlug slug) as [c|] eqn:Hslug.
  { simpl. split; [by intros ? ? ?%elem_of_nil|]. by repeat split. }
  rewrite !detail_handler_run, restaurantResult_dropInactive. simpl.
  destruct (Cache.found s (RestaurantDetail.cacheKey slug)) as [body|] eqn:Hf.
  - pose proof Hf as Hfound. unfold Cache.found in Hf.
    destruct (Redis.outage s (Redis.served s)); [done|].
    destruct (Redis.store s !! RestaurantDetail.cacheKey slug)
      as [[[v|] ttl]|] eqn:Hkey; [|done..]. injection Hf as ->.
    destruct (Hstored _ eq_refl) as (db' & rest & more & Hres & Hval).
    simpl in Hval. injection Hval as ->.
    destruct (restaurantResult_head db' slug rest more Hres) as (Hin & Hs & Ha).
    simpl. split; [|split; [|split; [|done]]].
    + intros conds n Hin'. apply elem_of_cons in Hin' as [?|Hin']; [done|].
      by apply elem_of_nil in Hin'.
    + intros x b [= <- <-]. right. split; [done|]. split; [done|].
      by exists db', rest.
    + done.
  - destruct (RestaurantDetail.restaurantResult db slug) as [|rest more] eqn:Hres;
      simpl.
    + split; [|split; [done|split; [done|done]]].
      intros conds n Hin. apply elem_of_cons in Hin as [?|Hin]; [done|].
      apply elem_of_cons in Hin as [[= -> _]|Hin]; [done|].
      by apply elem_of_nil in Hin.
    + destruct (restaurantResult_head db slug rest more Hres) as (Hin & Hs & Ha).
      split; [|split; [|split; [|done]]].
      * intros conds n Hin'.
        apply elem_of_cons in Hin' as [?|Hin']; [done|].
        apply elem_of_cons in Hin' as [[= -> _]|Hin']; [done|].
        do 4 (apply elem_of_cons in Hin' as [?|Hin']; [done|]).
        apply elem_of_app in Hin' as [Hin'|Hin'].
        -- destruct (_ <$> _) in Hin'; [by apply elem_of_nil in Hin'|].
           apply elem_of_cons in Hin' as [?|Hin']; [done|].
           by apply elem_of_nil in Hin'.
        -- apply elem_of_cons in Hin' as [?|Hin']; [done|].
           by apply elem_of_nil in Hin'.
      * intros x b [= <- <-]. left. split; [done|]. split; [done|].
        by exists rest.
      * intros _ Hoff _. by rewrite (Hoff rest Hin Hs) in Ha.
Qed.

(** "Kebap Evi" is looked up and cached; then it is switched off. In
    the state reached, where every venue with the slug is switched off,
    the slug is answered 200 with the details of the venue, a [HIT],
    and not 404. *)
Theorem inactive_venue_served_from_cache :
  exists (s : Redis.Server RestaurantDetail.Response) body,
    Coherence.Reachable "restaurant:"
      (RestaurantDetail.route (pg:=Demo.postgres)) Demo.closed s
    /\ RestaurantDetail.checkSlug "kebap-evi" = None
    /\ (exists r, r ∈ Sql.restaurants Demo.closed
                  /\ Sql.slug r = "kebap-evi")
    /\ (forall r, r ∈ Sql.restaurants Demo.closed ->
                  Sql.slug r = "kebap-evi" -> Sql.isActive r = false)
    /\ (RestaurantDetail.route (pg:=Demo.postgres) Demo.closed "kebap-evi"
          (arrival s)).1
       = Returned (Sent "HIT" body)
    /\ RestaurantDetail.name (RestaurantDetail.restaurant body) = "Kebap Evi".
Proof.
  set (first := RestaurantDetail.route (pg:=Demo.postgres) Demo.db
                  "kebap-evi" (arrival Demo.emptyRedis)).
  exists (redis first.2). eexists. split; [|split; [done|split; [|split; [|split]]]].
  - apply (Coherence.reach_mutation "restaurant:" RestaurantDetail.route
             Demo.db Demo.closed (redis first.2)).
    apply (Coherence.reach_request "restaurant:" RestaurantDetail.route
             Demo.db Demo.emptyRedis "kebap-evi" []).
    apply Coherence.reach_start.
  - eexists. split; [right; by left|done].
  - intros r Hr Hslug.
    apply elem_of_cons in Hr as [->|Hr]; [by vm_compute in Hslug|].
    do 2 (apply elem_of_cons in Hr as [->|Hr]; [reflexivity|]).
    by apply elem_of_nil in Hr.
  - vm_compute. reflexivity.
  - reflexivity.
Qed.

(** ** [trim] and [toLowerCase] *)

Section TrimFacts.
Implicit Types (s t : string) (c : ascii).

Lemma isWhiteSpace_lowerChar c :
  Js.isWhiteSpace (Js.lowerChar c) = Js.isWhiteSpace c.
Proof. by destruct c as [[] [] [] [] [] [] [] []]. Qed.

Lemma rev_app_toLowerCase s t :
  Js.toLowerCase (String.rev_app s t)
  = String.rev_app (Js.toLowerCase s) (Js.toLowerCase t).
Proof.
  revert t. induction s as [|c s IH]; intros t; [done|]. simpl. by rewrite IH.
Qed.

Lemma trimStart_toLowerCase s :
  Js.trimStart (Js.toLowerCase s) = Js.toLowerCase (Js.trimStart s).
Proof.
  induction s as [|c s IH]; [done|]. simpl.
  rewrite isWhiteSpace_lowerChar. by destruct (Js.isWhiteSpace c).
Qed.

(** Lowering the case and trimming commute. *)
Lemma trim_toLowerCase s :
  Js.trim (Js.toLowerCase s) = Js.toLowerCase (Js.trim s).
Proof.
  unfold Js.trim, Js.trimEnd, String.rev.
  rewrite trimStart_toLowerCase.
  change "" with (Js.toLowerCase "").
  by rewrite <- rev_app_toLowerCase, trimStart_toLowerCase,
       <- rev_app_toLowerCase.
Qed.

Lemma trimStart_clean s : Js.startsClean (Js.trimStart s) = true.
Proof.
  induction s as [|c s IH]; [done|]. simpl.
  destruct (Js.isWhiteSpace c) eqn:E; [done|]. simpl. by rewrite E.
Qed.

Lemma clean_trimStart s : Js.startsClean s = true -> Js.trimStart s = s.
Proof. destruct s as [|c s]; [done|]. simpl. by destruct (Js.isWhiteSpace c). Qed.

Lemma rev_app_rev_app s t u :
  String.rev_app (String.rev_app s t) u = String.rev_app t (s +:+ u).
Proof.
  revert t u. induction s as [|c s IH]; intros t u; [done|].
  simpl. by rewrite IH.
Qed.

Lemma rev_rev s : String.rev (String.rev s) = s.
Proof.
  unfold String.rev. rewrite rev_app_rev_app. simpl.
  induction s as [|c s IH]; [done|]. unfold String.app in *. simpl.
  by rewrite IH.
Qed.

Lemma rev_app_app s t : String.rev_app s t = String.rev s +:+ t.
Proof.
  unfold String.rev. revert t.
  induction s as [|c s IH]; intros t; [done|]. simpl.
  rewrite (IH (String c t)), (IH (String c "")).
  by rewrite append_assoc, cons_app.
Qed.

Lemma rev_app_append s t u :
  String.rev_app (s +:+ t) u = String.rev_app t (String.rev_app s u).
Proof.
  revert u. unfold String.app.
  induction s as [|c s IH]; intros u; simpl; [done|]. by rewrite IH.
Qed.

Lemma rev_append s t : String.rev (s +:+ t) = String.rev t +:+ String.rev s.
Proof. rewrite <- rev_app_app. apply rev_app_append. Qed.

(** [trimStart] drops a prefix. *)
Lemma trimStart_suffix s : exists ws, s = ws +:+ Js.trimStart s.
Proof.
  induction s as [|c s [ws IH]]; [by exists ""|]. simpl.
  destruct (Js.isWhiteSpace c).
  - exists (String c ws). unfold String.app in *. simpl. by rewrite <- IH.
  - by exists "".
Qed.

Lemma startsClean_app s t :
  s <> "" -> Js.startsClean (s +:+ t) = Js.startsClean s.
Proof. by destruct s. Qed.

Lemma trimEnd_clean s :
  Js.startsClean s = true -> Js.startsClean (Js.trimEnd s) = true.
Proof.
  intros Hs. unfold Js.trimEnd.
  destruct (trimStart_suffix (String.rev s)) as [ws Hws].
  apply (f_equal String.rev) in Hws. rewrite rev_rev, rev_append in Hws.
  destruct (String.rev (Js.trimStart (String.rev s))) as [|c u] eqn:Hu;
    [done|].
  by rewrite Hws, startsClean_app in Hs.
Qed.

Lemma trim_trim s : Js.trim (Js.trim s) = Js.trim s.
Proof.
  unfold Js.trim at 1.
  rewrite (clean_trimStart (Js.trim s)).
  - unfold Js.trim, Js.trimEnd. rewrite rev_rev.
    by rewrite (clean_trimStart (Js.trimStart _)) by apply trimStart_clean.
  - apply trimEnd_clean, trimStart_clean.
Qed.

(** The key of a trimmed query is its lower-case form. *)
Lemma trim_toLowerCase_trimmed s :
  Js.trim s = s -> Js.trim (Js.toLowerCase s) = Js.toLowerCase s.
Proof. intros Hs. by rewrite trim_toLowerCase, Hs. Qed.
End TrimFacts.

(** ** Runs of the autocomplete route *)

Section AutocompleteRuns.
Context {pg : Sql.Postgres}.
Implicit Types (db : Sql.Database) (q : string)
  (w : World Autocomplete.Statement Autocomplete.Response)
  (s : Redis.Server Autocomplete.Response).

Lemma suggest_compute_run db q w :
  Autocomplete.compute db q w
  = (Returned (Autocomplete.respond db q),
     logged w (Autocomplete.statements q)).
Proof.
  unfold Autocomplete.compute, Autocomplete.statements, bind, emit, ret,
    logged. simpl. by rewrite <- !app_assoc.
Qed.

Lemma suggest_handler_run db (request_q : string) w :
  Autocomplete.handler db request_q w =
  let q := Js.trim request_q in
  let key := Autocomplete.cacheKey q in
  match Cache.found (redis w) key with
  | Some body => (Returned (Sent "HIT" body), Cache.afterGet w key)
  | None =>
      (Returned (Sent "MISS" (Autocomplete.respond db q)),
       Cache.afterSet
         (logged (Cache.afterGet w key) (Autocomplete.statements q))
         key (Autocomplete.respond db q) 3600)
  end.
Proof.
  unfold Autocomplete.handler. unfold bind at 1. rewrite cacheGet_run. simpl.
  destruct (Cache.found (redis w) _); [done|].
  unfold bind at 1. rewrite suggest_compute_run.
  unfold bind at 1. by rewrite cacheSet_run.
Qed.

Lemma suggest_route_run db (input : option string) w :
  Autocomplete.route db input w =
  match Autocomplete.checkQ input with
  | inr c => (Returned (Rejected [{| path := "q"; issue := c |}]), w)
  | inl request_q => Autocomplete.handler db request_q w
  end.
Proof. unfold Autocomplete.route. by destruct (Autocomplete.checkQ input). Qed.

Lemma suggest_cacheKey_prefix q :
  String.prefix "autocomplete:" (Autocomplete.cacheKey q) = true.
Proof.
  unfold Autocomplete.cacheKey, String.app. simpl.
  by destruct (Js.trim (Js.toLowerCase q)).
Qed.

Lemma suggest_route_store db input w :
  Redis.store (redis (Autocomplete.route db input w).2) = Redis.store (redis w)
  \/ exists request_q ttl,
       Redis.store (redis (Autocomplete.route db input w).2)
       = <[Autocomplete.cacheKey (Js.trim request_q) :=
             {| Redis.value :=
                  Redis.Json (Autocomplete.respond db (Js.trim request_q));
                Redis.ex := ttl |}]> (Redis.store (redis w)).
Proof.
  rewrite suggest_route_run.
  destruct (Autocomplete.checkQ input) as [request_q|c]; [|by left].
  rewrite suggest_handler_run. simpl.
  destruct (Cache.found (redis w) _); [by left|].
  simpl. destruct (Redis.outage (redis w) (S (Redis.served (redis w))));
    [by left|].
  right. by eexists request_q, _.
Qed.

(** Nothing deletes a key when the database changes: an entry stays as
    it was computed. *)
Lemma suggest_reachable_computed db s :
  Coherence.Reachable "autocomplete:" Autocomplete.route db s ->
  suggestionsComputed s.
Proof.
  induction 1 as [db sch|db s input events Hr IH|db s k Hr IH
                 |db s k e Hr IH Hk|db db' s Hr IH];
    intros key entry Hkey Hpre; simpl in *.
  - by rewrite lookup_empty in Hkey.
  - destruct (suggest_route_store db input {| redis := s; log := events |})
      as [Hst|(request_q & ttl & Hst)];
      rewrite Hst in Hkey; simpl in Hkey.
    + by eapply IH.
    + destruct (decide (Autocomplete.cacheKey (Js.trim request_q) = key))
        as [<-|Hne].
      * rewrite lookup_insert_eq in Hkey. injection Hkey as <-.
        exists db, (Js.trim request_q). by rewrite trim_trim.
      * rewrite lookup_insert_ne in Hkey by done. by eapply IH.
  - apply lookup_delete_Some in Hkey as [_ Hkey]. by eapply IH.
  - destruct (decide (k = key)) as [->|Hne]; [congruence|].
    rewrite lookup_insert_ne in Hkey by done. by eapply IH.
  - by eapply IH.
Qed.

(** Two trimmed queries with one key differ by case only. *)
Lemma suggest_cacheKey_case q q' :
  Js.trim q = q -> Js.trim q' = q' ->
  Autocomplete.cacheKey q = Autocomplete.cacheKey q' ->
  Js.toLowerCase q = Js.toLowerCase q'.
Proof.
  intros Hq Hq' Hkey. unfold Autocomplete.cacheKey in Hkey.
  apply String.app_inj in Hkey.
  by rewrite !trim_toLowerCase_trimmed in Hkey.
Qed.

Lemma restaurantResults_sorted db q :
  StronglySorted (Autocomplete.closerThenBetter q)
                 (Autocomplete.restaurantResults db q).
Proof.
  unfold Autocomplete.restaurantResults, Sql.selectRestaurants.
  apply limitOffset_sorted.
  eapply StronglySorted_impl; [|apply orderBy_sorted].
  intros a b _ _ Hab. unfold inOrder in Hab.
  unfold Autocomplete.restaurantOrder in Hab. simpl in Hab.
  unfold Sql.term_before in Hab. simpl in Hab.
  apply orb_false_iff in Hab as [Hsim Hrest].
  apply Qltb_ge in Hsim. unfold Autocomplete.closerThenBetter.
  destruct (Sql.Qltb (Sql.similarity (Sql.name b) q)
                     (Sql.similarity (Sql.name a) q)) eqn:Hlt.
  - left. by apply Qltb_lt.
  - right. apply Qltb_ge in Hlt. split; [by apply Qle_antisym|].
    simpl in Hrest. rewrite orb_false_iff in Hrest.
    destruct Hrest as [Hscore _].
    unfold Autocomplete.scoreDescNullsFirst.
    destruct (Sql.overallScore a) as [x|], (Sql.overallScore b) as [y|];
      simpl in Hscore; try done.
    apply Qltb_ge in Hscore. unfold Qle in Hscore. simpl in Hscore. lia.
Qed.

Lemma dishResults_sorted db q :
  StronglySorted (Autocomplete.closerDish q) (Autocomplete.dishResults db q).
Proof.
  unfold Autocomplete.dishResults.
  apply limitOffset_sorted.
  eapply StronglySorted_impl; [|apply orderBy_sorted].
  intros a b _ _ Hab. unfold inOrder in Hab.
  unfold Autocomplete.dishOrder in Hab. simpl in Hab.
  unfold Sql.term_before in Hab. simpl in Hab.
  apply orb_false_iff in Hab as [Hsim _].
  by apply Qltb_ge in Hsim.
Qed.

Lemma restaurantResults_active db q (r : Sql.Restaurant) :
  r ∈ Autocomplete.restaurantResults db q ->
  r ∈ Sql.restaurants db /\ Sql.isActive r = true.
Proof.
  unfold Autocomplete.restaurantResults.
  intros [Hin Hc]%selectRestaurants_elem_of. split; [done|].
  apply (Hc Sql.IsActive). right. by left.
Qed.

Lemma restaurantResults_length db q :
  (length (Autocomplete.restaurantResults db q) <= 5)%nat.
Proof. apply (limitOffset_length 5). Qed.

Lemma dishResults_length db q :
  (length (Autocomplete.dishResults db q) <= 5)%nat.
Proof. apply (limitOffset_length 5). Qed.

End AutocompleteRuns.

(** C10, as the code has it. A valid autocomplete query is answered
    with suggestions, and the cache is read first. In every state the
    cache can reach (nothing deletes a key when the database changes)
    the reply is the body computed from a database [db'] for a trimmed
    query [q] that equals the trimmed query of the request up to case:
    on a [MISS] they are the database as it is and the trimmed query
    itself, on a [HIT] those of the request that stored the entry. The
    restaurants of the body are the projection of at most 5 rows and
    the dishes the projection of at most 5 rows; the restaurant rows
    are ordered by similarity of the name to [q], descending, equal
    similarities by overall score descending; the dish rows are ordered
    by similarity to [q] descending; and every restaurant row is a
    venue of [db'] with the activation flag set. *)
Theorem suggestions_bounded_ordered_active (pg : Sql.Postgres)
    (db : Sql.Database) (s : Redis.Server Autocomplete.Response)
    (input : option string) (request_q : string) :
  Coherence.Reachable "autocomplete:" Autocomplete.route db s ->
  Autocomplete.checkQ input = inl request_q ->
  exists x body db' q rows dishRows,
    (Autocomplete.route db input (arrival s)).1 = Returned (Sent x body)
    /\ (Cache.found s (Autocomplete.cacheKey (Js.trim request_q)) = None ->
        x = "MISS" /\ db' = db /\ q = Js.trim request_q)
    /\ (forall cached,
          Cache.found s (Autocomplete.cacheKey (Js.trim request_q))
          = Some cached ->
          x = "HIT" /\ body = cached)
    /\ Js.trim q = q
    /\ Js.toLowerCase q = Js.toLowerCase (Js.trim request_q)
    /\ body = Autocomplete.respond db' q
    /\ Autocomplete.restaurants body
       = Autocomplete.toRestaurantSuggestion <$> rows
    /\ Autocomplete.dishes body
       = Autocomplete.toDishSuggestion db' <$> dishRows
    /\ (length (Autocomplete.restaurants body) <= 5)%nat
    /\ (length (Autocomplete.dishes body) <= 5)%nat
    /\ StronglySorted (Autocomplete.closerThenBetter q) rows
    /\ StronglySorted (Autocomplete.closerDish q) dishRows
    /\ Forall (fun r => r ∈ Sql.restaurants db' /\ Sql.isActive r = true) rows.
Proof.
  intros Hreach Hvalid.
  pose proof (suggest_reachable_computed db s Hreach) as Hstored.
  assert (forall db' q,
    Autocomplete.restaurants (Autocomplete.respond db' q)
    = Autocomplete.toRestaurantSuggestion
        <$> Autocomplete.restaurantResults db' q
    /\ Autocomplete.dishes (Autocomplete.respond db' q)
       = Autocomplete.toDishSuggestion db' <$> Autocomplete.dishResults db' q
    /\ (length (Autocomplete.restaurants (Autocomplete.respond db' q)) <= 5)%nat
    /\ (length (Autocomplete.dishes (Autocomplete.respond db' q)) <= 5)%nat
    /\ StronglySorted (Autocomplete.closerThenBetter q)
         (Autocomplete.restaurantResults db' q)
    /\ StronglySorted (Autocomplete.closerDish q)
         (Autocomplete.dishResults db' q)
    /\ Forall (fun r => r ∈ Sql.restaurants db' /\ Sql.isActive r = true)
              (Autocomplete.restaurantResults db' q)) as Hrespond.
  { intros db' q. split; [done|]. split; [done|]. simpl.
    rewrite !length_fmap.
    split; [apply restaurantResults_length|].
    split; [apply dishResults_length|].
    split; [apply restaurantResults_sorted|].
    split; [apply dishResults_sorted|].
    apply Forall_forall. intros r. apply restaurantResults_active. }
  rewrite suggest_route_run, Hvalid, suggest_handler_run. simpl.
  destruct (Cache.found s (Autocomplete.cacheKey (Js.trim request_q)))
    as [body|] eqn:Hf.
  - unfold Cache.found in Hf.
    destruct (Redis.outage s (Redis.served s)); [done|].
    destruct (Redis.store s !! Autocomplete.cacheKey (Js.trim request_q))
      as [[[v|] ttl]|] eqn:Hkey; [|done..]. injection Hf as ->.
    destruct (Hstored _ _ Hkey (suggest_cacheKey_prefix _))
      as (db' & q & Hq & Htrim & Hval).
    simpl in Hval. injection Hval as ->. simpl.
    exists "HIT", (Autocomplete.respond db' q), db', q,
      (Autocomplete.restaurantResults db' q), (Autocomplete.dishResults db' q).
    split; [done|]. split; [done|].
    split; [by intros cached [= <-]|]. split; [done|]. split.
    { symmetry. apply suggest_cacheKey_case; [apply trim_trim|done|done]. }
    split; [done|]. apply Hrespond.
  - simpl.
    exists "MISS", (Autocomplete.respond db (Js.trim request_q)), db,
      (Js.trim request_q),
      (Autocomplete.restaurantResults db (Js.trim request_q)),
      (Autocomplete.dishResults db (Js.trim request_q)).
    split; [done|]. split; [done|]. split; [done|].
    split; [apply trim_trim|]. split; [done|]. split; [done|].
    apply Hrespond.
Qed.

(** "kebap" is asked for and the suggestions are cached; then "Kebap
    Evi" is switched off. In the state reached the same query is
    answered, a [HIT], with a restaurant suggestion for the slug
    "kebap-evi", which only a switched-off venue carries. *)
Theorem switched_off_venue_is_suggested :
  exists (s : Redis.Server Autocomplete.Response) body suggestion,
    Coherence.Reachable "autocomplete:"
      (Autocomplete.route (pg:=Demo.postgres)) Demo.closed s
    /\ Autocomplete.checkQ (Some "kebap") = inl "kebap"
    /\ (Autocomplete.route (pg:=Demo.postgres) Demo.closed (Some "kebap")
          (arrival s)).1
       = Returned (Sent "HIT" body)
    /\ suggestion ∈ Autocomplete.restaurants body
    /\ Autocomplete.slug suggestion = "kebap-evi"
    /\ (forall r, r ∈ Sql.restaurants Demo.closed ->
                  Sql.slug r = "kebap-evi" -> Sql.isActive r = false).
Proof.
  set (first := Autocomplete.route (pg:=Demo.postgres) Demo.db
                  (Some "kebap") (arrival Demo.emptyRedis)).
  exists (redis first.2).
  exists (Autocomplete.respond (pg:=Demo.postgres) Demo.db "kebap").
  exists (Autocomplete.toRestaurantSuggestion
            (Demo.venue 2 "Kebap Evi" "kebap-evi" (Some 900%Z) true)).
  split; [|split; [done|split; [|split; [|split; [done|]]]]].
  - apply (Coherence.reach_mutation "autocomplete:" Autocomplete.route
             Demo.db Demo.closed (redis first.2)).
    apply (Coherence.reach_request "autocomplete:" Autocomplete.route
             Demo.db Demo.emptyRedis (Some "kebap") []).
    apply Coherence.reach_start.
  - vm_compute. reflexivity.
  - vm_compute. by left.
  - intros r Hr Hslug.
    apply elem_of_cons in Hr as [->|Hr]; [by vm_compute in Hslug|].
    do 2 (apply elem_of_cons in Hr as [->|Hr]; [reflexivity|]).
    by apply elem_of_nil in Hr.
Qed.

(** ** The properties on the small installation *)

(** The key of [?q=kebap&sort_by=distance&lat=41&lng=29] does not
    depend on the order of the fields and has 39 characters. *)
Lemma cache_key_stable_demo :
  Search.cacheKey (rt:=Demo.runtime) Demo.byDistance
  = Search.cacheKey (rt:=Demo.runtime) (reverse Demo.byDistance)
  /\ String.length (Search.cacheKey (rt:=Demo.runtime) Demo.byDistance)
     = 39%nat.
Proof.
  destruct (cache_key_stable Demo.runtime demo_laws
              Demo.byDistance (reverse Demo.byDistance))
    as (Hsame & Hlen & _).
  - apply (bool_decide_unpack _). by vm_compute.
  - apply (bool_decide_unpack _). by vm_compute.
  - split; [|exact Hlen]. apply Hsame. symmetry. apply reverse_Permutation.
Defined.

(** [?q=kebap&sort_by=distance] on an empty cache: the answer is the
    400 and no statement is sent to the database. *)
Lemma distance_needs_coordinates_demo :
  let out := Search.route (rt:=Demo.runtime) (pg:=Demo.postgres) Demo.db
               Demo.noCoordinates (arrival Demo.emptyRedis) in
  noStorageQuery (log out.2)
  /\ out.1 = Returned (Failed 400 "Bad Request" Search.coordinatesMessage).
Proof.
  intros out.
  edestruct (distance_needs_coordinates Demo.runtime demo_laws Demo.postgres
               Demo.db Demo.emptyRedis Demo.noCoordinates)
    as (Hno & _ & Hmiss & _).
  - apply Coherence.reach_start.
  - vm_compute. reflexivity.
  - reflexivity.
  - left. reflexivity.
  - split; [exact Hno|]. apply Hmiss. reflexivity.
Defined.


(** [?q=kebap&sort_by=distance&lat=41&lng=29]: the page is in order of
    distance. *)
Lemma page_sorted_by_one_key_demo :
  StronglySorted Search.nearerFirst
    (Search.data (Search.respond (pg:=Demo.postgres) Demo.db Demo.byDistance)).
Proof.
  destruct (page_sorted_by_one_key Demo.runtime Demo.postgres Demo.db
              Demo.byDistance) as (_ & _ & Hdistance & _).
  apply (Hdistance (Search.ofZ 41) (Search.ofZ 29)); reflexivity.
Defined.

(** [?q=a%20] passes the schema with its two characters. *)
Lemma query_length_as_received_demo :
  exists rq s,
    Search.parse (rt:=Demo.runtime) [("q", "a ")] = inr rq
    /\ Search.getString rq Search.K_q = Some s
    /\ (2 <= String.length s <= 100)%nat.
Proof.
  destruct (query_length_as_received Demo.runtime [("q", "a ")])
    as (_ & _ & Haccepted).
  eexists.
  assert (Search.parse (rt:=Demo.runtime) [("q", "a ")] = inr _) as Hparse
    by (vm_compute; reflexivity).
  destruct (Haccepted _ Hparse) as (s & _ & Hs & Hlen).
  exists s. split; [exact Hparse|]. by split.
Defined.

(** [?q=kebap&sort_by=distance]: the route has read the cache when it
    refuses the request. *)
Lemma validation_order_demo :
  exists rq,
    Search.parse (rt:=Demo.runtime) Demo.noCoordinates = inr rq
    /\ log (Search.route (rt:=Demo.runtime) (pg:=Demo.postgres) Demo.db
              Demo.noCoordinates (arrival Demo.emptyRedis)).2
       = [ToRedis (Redis.GET (Search.cacheKey (rt:=Demo.runtime) rq))].
Proof.
  destruct (validation_order Demo.runtime Demo.postgres Demo.db
              Demo.noCoordinates (arrival Demo.emptyRedis))
    as (_ & Hchecked).
  eexists.
  assert (Search.parse (rt:=Demo.runtime) Demo.noCoordinates = inr _)
    as Hparse by (vm_compute; reflexivity).
  split; [exact Hparse|].
  destruct (Hchecked _ Hparse) as (Hlog & _); [by vm_compute|].
  exact Hlog.
Defined.

(** The venue "kebap-durak" is switched off and not cached: its slug is
    answered 404, also after another venue has been cached. *)
Lemma inactive_venue_is_not_found_demo :
  let s := redis (RestaurantDetail.route (pg:=Demo.postgres) Demo.db
                    "kebap-evi" (arrival Demo.emptyRedis)).2 in
  (RestaurantDetail.route (pg:=Demo.postgres) Demo.db "kebap-durak"
     (arrival s)).1
  = Returned (Failed 404 "Not Found"
                     (RestaurantDetail.notFoundMessage "kebap-durak")).
Proof.
  intros s.
  destruct (inactive_venue_is_not_found Demo.postgres Demo.db s "kebap-durak")
    as (_ & _ & _ & Hoff & _).
  - apply (Coherence.reach_request "restaurant:" RestaurantDetail.route
             Demo.db Demo.emptyRedis "kebap-evi" []).
    apply Coherence.reach_start.
  - apply Hoff; [reflexivity| |reflexivity]. intros r Hr Hslug.
    do 2 (apply elem_of_cons in Hr as [->|Hr]; [by vm_compute in Hslug|]).
    apply elem_of_cons in Hr as [->|Hr]; [reflexivity|].
    by apply elem_of_nil in Hr.
Defined.

(** [?q=kebap] after [?q=Kebap] has filled the cache: a [HIT] with
    the body computed for "Kebap". *)
Lemma suggestions_bounded_ordered_active_demo :
  let s := redis (Autocomplete.route (pg:=Demo.postgres) Demo.db
                    (Some "Kebap") (arrival Demo.emptyRedis)).2 in
  exists x body db' q rows,
    (Autocomplete.route (pg:=Demo.postgres) Demo.db (Some "kebap")
       (arrival s)).1 = Returned (Sent x body)
    /\ Js.toLowerCase q = Js.toLowerCase (Js.trim "kebap")
    /\ body = Autocomplete.respond (pg:=Demo.postgres) db' q
    /\ Autocomplete.restaurants body
       = Autocomplete.toRestaurantSuggestion <$> rows
    /\ (length (Autocomplete.restaurants body) <= 5)%nat
    /\ (length (Autocomplete.dishes body) <= 5)%nat
    /\ StronglySorted (Autocomplete.closerThenBetter (pg:=Demo.postgres) q)
         rows
    /\ Forall (fun r => r ∈ Sql.restaurants db' /\ Sql.isActive r = true)
              rows.
Proof.
  intros s.
  destruct (suggestions_bounded_ordered_active Demo.postgres Demo.db s
              (Some "kebap") "kebap")
    as (x & body & db' & q & rows & dishRows & Hrun & _ & _ & _ & Hcase
        & Hbody & Hrows & _ & Hfive & Hfive' & Hsorted & _ & Hactive).
  - apply (Coherence.reach_request "autocomplete:" Autocomplete.route
             Demo.db Demo.emptyRedis (Some "Kebap") []).
    apply Coherence.reach_start.
  - reflexivity.
  - by exists x, body, db', q, rows.
Defined.

(** With Redis down, [cacheGet] answers [null]. *)
Lemma cache_failures_are_misses_demo :
  exists w',
    @Cache.cacheGet Search.Statement Search.Response "search:k"
      (arrival (Redis.unreachable ∅))
    = (Returned None, w').
Proof.
  destruct (cache_failures_are_misses Demo.runtime Demo.postgres)
    as (Hget & _).
  destruct (Hget Search.Statement Search.Response "search:k"
              (arrival (Redis.unreachable ∅)))
    as (r & w' & Hrun & Hdown & _).
  exists w'. rewrite Hrun. by rewrite Hdown.
Defined.

(** The first item of the page of [?q=kebap&sort_by=distance&lat=41&lng=29]
    is a venue that is switched on. *)
Lemma active_filter_always_present_demo :
  exists item r,
    item ∈ Search.data
             (Search.respond (pg:=Demo.postgres) Demo.db Demo.byDistance)
    /\ r ∈ Sql.restaurants Demo.db /\ Sql.isActive r = true
    /\ Search.id item = Sql.id r.
Proof.
  destruct (active_filter_always_present Demo.runtime Demo.postgres)
    as (_ & _ & _ & Hpage).
  set (page := Search.results (pg:=Demo.postgres) Demo.db Demo.byDistance).
  set (item := Search.toItem (pg:=Demo.postgres)
                 (Search.lat_ Demo.byDistance) (Search.lng_ Demo.byDistance)
                 (Search.dishMapOf Demo.db page)
                 (Demo.venue 1 "Kebapci Mehmet" "kebapci-mehmet"
                    (Some 500%Z) true)).
  assert (item ∈ Search.data
                   (Search.respond (pg:=Demo.postgres) Demo.db Demo.byDistance))
    as Hitem.
  { apply list_elem_of_fmap. eexists. split; [reflexivity|].
    vm_compute. by left. }
  destruct (Hpage Demo.db Demo.byDistance item Hitem) as (r & Hr & Hon & Hid).
  by exists item, r.
Defined.


(* ===================================================================== *)
(** * Further properties of the code *)
(* ===================================================================== *)

(** ** Deleting keys *)

Section InvalidationFacts.
Context {T : Type} {ks : Invalidation.Keyspace}.
Implicit Types (s : Redis.Server T) (st : gmap string (Redis.Entry T))
  (k key pattern : string) (keys : list string).

Lemma foldr_delete_lookup st keys k :
  foldr delete st keys !! k = if decide (k ∈ keys) then None else st !! k.
Proof.
  induction keys as [|x keys IH]; cbn [foldr].
  - destruct (decide (k ∈ [])) as [Hin|_]; [|done]. by apply elem_of_nil in Hin.
  - destruct (decide (x = k)) as [->|Hne].
    + rewrite lookup_delete_eq.
      destruct (decide (k ∈ k :: keys)) as [_|Hout]; [done|].
      destruct Hout. by left.
    + rewrite lookup_delete_ne by done. rewrite IH.
      destruct (decide (k ∈ keys)) as [Hin|Hin];
        destruct (decide (k ∈ x :: keys)) as [Hin'|Hin']; try done.
      * destruct Hin'. by right.
      * apply elem_of_cons in Hin' as [?|?]; [congruence|done].
Qed.

Lemma elem_of_stored_keys st k :
  k ∈ (map_to_list st).*1 <-> is_Some (st !! k).
Proof.
  rewrite list_elem_of_fmap. split.
  - intros ([k' e] & -> & Hin). apply elem_of_map_to_list in Hin. by exists e.
  - intros [e He]. exists (k, e). split; [done|]. by apply elem_of_map_to_list.
Qed.

Lemma slot_bound k : (Invalidation.slot k <= Invalidation.lastSlot)%nat.
Proof.
  unfold Invalidation.slot.
  pose proof (Nat.mod_upper_bound (Invalidation.slotOf k)
                (S Invalidation.lastSlot)). lia.
Qed.

Lemma up_tick s st : Invalidation.up s -> Invalidation.up (Redis.tick s st).
Proof. intros Hup n Hn. apply Hup. simpl in Hn. lia. Qed.

Lemma up_now s : Invalidation.up s -> Redis.outage s (Redis.served s) = false.
Proof. intros Hup. by apply Hup. Qed.

(** The keys a call of [scan] answers. *)
Lemma elem_of_scanned st pattern cursor k :
  k ∈ filter (fun k => Invalidation.slot k = cursor
                       /\ Invalidation.glob pattern k = true)
             (map_to_list st).*1
  <-> is_Some (st !! k) /\ Invalidation.slot k = cursor
      /\ Invalidation.glob pattern k = true.
Proof. rewrite list_elem_of_filter, elem_of_stored_keys. tauto. Qed.

(** With at least as many rounds as slots are left the loop ends,
    whatever fails. *)
Lemma scanLoop_ends fuel pattern cursor s :
  (cursor <= Invalidation.lastSlot)%nat ->
  (Invalidation.lastSlot - cursor < fuel)%nat ->
  is_Some (Invalidation.scanLoop fuel pattern cursor s).
Proof.
  revert cursor s. induction fuel as [|fuel IH]; intros cursor s Hc Hf; [lia|].
  simpl. unfold Invalidation.scan.
  destruct (Redis.outage s (Redis.served s)); [done|].
  assert (forall s1,
            (Invalidation.nextCursor cursor =? 0)%nat = false ->
            is_Some (Invalidation.scanLoop fuel pattern
                       (Invalidation.nextCursor cursor) s1)) as Hnext.
  { intros s1 Hn. unfold Invalidation.nextCursor in *.
    destruct (cursor <? Invalidation.lastSlot)%nat eqn:Hlt; [|done].
    apply Nat.ltb_lt in Hlt. apply IH; lia. }
  destruct (filter _ _) as [|k keys].
  - destruct (Invalidation.nextCursor cursor =? 0)%nat eqn:Hn; [done|].
    destruct (Hnext (Redis.tick s (Redis.store s)) eq_refl) as [[[r sent] s3] ->].
    done.
  - unfold Invalidation.del. simpl.
    destruct (Redis.outage s (S (Redis.served s))); [done|].
    destruct (Invalidation.nextCursor cursor =? 0)%nat eqn:Hn; [done|].
    edestruct Hnext as [[[r sent] s3] ->]; done.
Qed.

(** Whatever fails, the loop deletes only keys that match the pattern,
    and each [DEL] it sends names at least one key. *)
Lemma scanLoop_safe fuel pattern cursor s r sent s' :
  Invalidation.scanLoop fuel pattern cursor s = Some (r, sent, s') ->
  (forall k, Invalidation.glob pattern k = false ->
             Redis.store s' !! k = Redis.store s !! k)
  /\ Redis.store s' ⊆ Redis.store s
  /\ Forall (fun c => forall keys, c = Invalidation.DEL keys ->
                        keys <> []
                        /\ Forall (fun k => Invalidation.glob pattern k = true
                                            /\ is_Some (Redis.store s !! k))
                                  keys)
            sent.
Proof.
  revert cursor s r sent s'.
  induction fuel as [|fuel IH]; intros cursor s r sent s' Hrun; [done|].
  simpl in Hrun. unfold Invalidation.scan in Hrun.
  destruct (Redis.outage s (Redis.served s)).
  { injection Hrun as <- <- <-. simpl. split; [done|]. split; [done|].
    constructor; [|constructor]. by intros keys [=]. }
  destruct (filter _ _) as [|k0 keys0] eqn:Hkeys.
  - destruct (Invalidation.nextCursor cursor =? 0)%nat.
    + injection Hrun as <- <- <-. simpl. split; [done|]. split; [done|].
      constructor; [|constructor]. by intros keys [=].
    + destruct (Invalidation.scanLoop fuel pattern _ _)
        as [[[r3 sent3] s3]|] eqn:Hrest; [|done].
      injection Hrun as <- <- <-.
      destruct (IH _ _ _ _ _ Hrest) as (Hkeep & Hsub & Hsent).
      simpl in *. split; [done|]. split; [done|].
      constructor; [by intros keys [=]|done].
  - assert (Forall (fun k => Invalidation.glob pattern k = true
                             /\ is_Some (Redis.store s !! k)) (k0 :: keys0))
      as Hmatch.
    { rewrite <- Hkeys. apply Forall_forall. intros k Hk.
      apply elem_of_scanned in Hk. tauto. }
    assert (forall k, Invalidation.glob pattern k = false ->
                      foldr delete (Redis.store s) (k0 :: keys0) !! k
                      = Redis.store s !! k) as Hkept.
    { intros k Hk. rewrite foldr_delete_lookup.
      destruct (decide (k ∈ k0 :: keys0)) as [Hin|]; [|done].
      eapply Forall_forall in Hmatch as [Hg _]; [|exact Hin]. congruence. }
    assert (foldr delete (Redis.store s) (k0 :: keys0) ⊆ Redis.store s)
      as Hless.
    { apply map_subseteq_spec. intros k e. rewrite foldr_delete_lookup.
      by destruct (decide _). }
    assert (forall keys, Invalidation.DEL (k0 :: keys0) = Invalidation.DEL keys ->
              keys <> []
              /\ Forall (fun k => Invalidation.glob pattern k = true
                                  /\ is_Some (Redis.store s !! k)) keys)
      as Hdel.
    { by intros keys [= <-]. }
    unfold Invalidation.del in Hrun. simpl in Hrun.
    destruct (Redis.outage s (S (Redis.served s))).
    { injection Hrun as <- <- <-. simpl. split; [done|]. split; [done|].
      constructor; [by intros keys [=]|]. constructor; [done|constructor]. }
    destruct (Invalidation.nextCursor cursor =? 0)%nat.
    + injection Hrun as <- <- <-. simpl. split; [done|]. split; [done|].
      constructor; [by intros keys [=]|]. constructor; [done|constructor].
    + destruct (Invalidation.scanLoop fuel pattern _ _)
        as [[[r3 sent3] s3]|] eqn:Hrest; [|done].
      injection Hrun as <- <- <-.
      destruct (IH _ _ _ _ _ Hrest) as (Hkeep & Hsub & Hsent).
      simpl in *. split; [|split].
      * intros k Hk. rewrite Hkeep by done. by apply Hkept.
      * by etrans.
      * constructor; [by intros keys [=]|]. constructor; [done|].
        eapply Forall_impl; [exact Hsent|]. simpl.
        intros c Hc keys ->. destruct (Hc _ eq_refl) as [Hne Hall].
        split; [done|]. eapply Forall_impl; [exact Hall|]. simpl.
        intros k [Hg [e He]]. split; [done|]. exists e.
        by eapply lookup_weaken.
Qed.

(** While no command fails, the loop started at [cursor] on a store
    that has lost the matching keys of the slots before [cursor] ends
    with a store that has lost all the matching keys. *)
Lemma scanLoop_up fuel pattern cursor s (st0 : gmap string (Redis.Entry T)) :
  Invalidation.up s ->
  (cursor <= Invalidation.lastSlot)%nat ->
  (Invalidation.lastSlot - cursor < fuel)%nat ->
  (forall k,
     Redis.store s !! k
     = if decide (Invalidation.glob pattern k = true
                  /\ (Invalidation.slot k < cursor)%nat)
       then None else st0 !! k) ->
  exists sent s',
    Invalidation.scanLoop fuel pattern cursor s = Some (Returned tt, sent, s')
    /\ forall k,
         Redis.store s' !! k
         = if decide (Invalidation.glob pattern k = true) then None
           else st0 !! k.
Proof.
  revert cursor s.
  induction fuel as [|fuel IH]; intros cursor s Hup Hc Hf Hinv; [lia|].
  simpl. unfold Invalidation.scan. rewrite (up_now s Hup).
  set (keys := filter _ _).
  assert (forall k, k ∈ keys <->
            is_Some (Redis.store s !! k) /\ Invalidation.slot k = cursor
            /\ Invalidation.glob pattern k = true) as Hkeys
    by (intros k; apply elem_of_scanned).
  set (st1 := match keys with
              | [] => Redis.store s
              | _ :: _ => foldr delete (Redis.store s) keys
              end).
  assert (forall k,
            st1 !! k
            = if decide (Invalidation.glob pattern k = true
                         /\ (Invalidation.slot k < S cursor)%nat)
              then None else st0 !! k) as Hinv1.
  { intros k.
    assert (foldr delete (Redis.store s) keys !! k
            = if decide (Invalidation.glob pattern k = true
                         /\ (Invalidation.slot k < S cursor)%nat)
              then None else st0 !! k) as Hgoal.
    { rewrite foldr_delete_lookup.
      destruct (decide (k ∈ keys)) as [Hin|Hin].
      - apply Hkeys in Hin as (_ & Hs & Hg).
        rewrite decide_True; [done|]. split; [done|lia].
      - rewrite Hinv.
        destruct (decide (Invalidation.glob pattern k = true
                          /\ (Invalidation.slot k < cursor)%nat))
          as [[Hg Hlt]|Hno].
        + rewrite decide_True; [done|]. split; [done|lia].
        + destruct (decide (Invalidation.glob pattern k = true
                            /\ (Invalidation.slot k < S cursor)%nat))
            as [[Hg Hlt]|Hno']; [|done].
          assert (Invalidation.slot k = cursor) as Hs.
          { destruct (decide (Invalidation.slot k < cursor)%nat); [|lia].
            by destruct Hno. }
          destruct (st0 !! k) as [e|] eqn:He; [|done].
          destruct Hin. apply Hkeys. rewrite Hinv, decide_False by done.
          rewrite He. by eauto. }
    subst st1. destruct keys as [|k0 keys0] eqn:Hk; [|exact Hgoal].
    rewrite <- Hgoal. simpl. done. }
  assert (forall s1,
            Redis.store s1 = st1 -> Invalidation.up s1 ->
            exists sent s',
              (if (Invalidation.nextCursor cursor =? 0)%nat
               then Some (Returned tt, @nil Invalidation.Command, s1)
               else Invalidation.scanLoop fuel pattern
                      (Invalidation.nextCursor cursor) s1)
              = Some (Returned tt, sent, s')
              /\ forall k,
                   Redis.store s' !! k
                   = if decide (Invalidation.glob pattern k = true) then None
                     else st0 !! k) as Hnext.
  { intros s1 Hst Hup1. unfold Invalidation.nextCursor.
    destruct (cursor <? Invalidation.lastSlot)%nat eqn:Hlt.
    - apply Nat.ltb_lt in Hlt. simpl.
      apply IH; [done|lia|lia|]. by rewrite Hst.
    - apply Nat.ltb_ge in Hlt. simpl. eexists _, _. split; [done|].
      intros k. rewrite Hst, Hinv1.
      destruct (decide (Invalidation.glob pattern k = true)) as [Hg|Hg].
      + rewrite decide_True; [done|]. split; [done|].
        pose proof (slot_bound k). lia.
      + rewrite decide_False; [done|]. tauto. }
  destruct keys as [|k0 keys0] eqn:Hk.
  - destruct (Hnext (Redis.tick s (Redis.store s)) eq_refl (up_tick _ _ Hup))
      as (sent & s' & Hrun & Hres).
    destruct (Invalidation.nextCursor cursor =? 0)%nat.
    + injection Hrun as <- <-. by eexists _, _.
    + rewrite Hrun. by eexists _, _.
  - unfold Invalidation.del.
    rewrite (up_now _ (up_tick s (Redis.store s) Hup)).
    destruct (Hnext (Redis.tick (Redis.tick s (Redis.store s))
                       (foldr delete (Redis.store s) (k0 :: keys0)))
                    eq_refl (up_tick _ _ (up_tick _ _ Hup)))
      as (sent & s' & Hrun & Hres).
    simpl. simpl in Hrun.
    destruct (Invalidation.nextCursor cursor =? 0)%nat.
    + injection Hrun as <- <-. by eexists _, _.
    + rewrite Hrun. by eexists _, _.
Qed.
End InvalidationFacts.

(** X1. [cacheDeletePattern] always finishes and never throws, whatever
    command fails on the way: as many rounds as the key table has slots
    are enough. It removes no key that does not match the pattern, it
    adds none, and every [DEL] it sends names at least one key, each
    matching the pattern and stored when the function was called. *)
Theorem cacheDeletePattern_swallows_failures (T : Type)
    (ks : Invalidation.Keyspace) (pattern : string) (s : Redis.Server T) :
  exists sent s',
    Invalidation.cacheDeletePattern (S Invalidation.lastSlot) pattern s
    = Some (sent, s')
    /\ Redis.store s' ⊆ Redis.store s
    /\ (forall k, Invalidation.glob pattern k = false ->
                  Redis.store s' !! k = Redis.store s !! k)
    /\ Forall (fun c => forall keys, c = Invalidation.DEL keys ->
                 keys <> []
                 /\ Forall (fun k => Invalidation.glob pattern k = true
                                     /\ is_Some (Redis.store s !! k)) keys)
              sent.
Proof.
  unfold Invalidation.cacheDeletePattern.
  destruct (scanLoop_ends (S Invalidation.lastSlot) pattern 0 s)
    as [[[r sent] s'] Hrun]; [lia..|].
  rewrite Hrun. simpl. exists sent, s'. split; [done|].
  destruct (scanLoop_safe _ _ _ _ _ _ _ Hrun) as (Hkeep & Hsub & Hsent).
  done.
Qed.

(** X2. While no command fails, [cacheDeletePattern] leaves exactly the
    keys that do not match the pattern, each with its entry. For a
    pattern that matches the keys with a given prefix (as
    ["search:*"] does) the store afterwards is the store purged of that
    prefix. *)
Theorem cacheDeletePattern_removes_matching (T : Type)
    (ks : Invalidation.Keyspace) (pattern : string) (s : Redis.Server T) :
  Invalidation.up s ->
  exists sent s',
    Invalidation.cacheDeletePattern (S Invalidation.lastSlot) pattern s
    = Some (sent, s')
    /\ Redis.store s'
       = filter (fun kv => Invalidation.glob pattern kv.1 = false)
                (Redis.store s)
    /\ forall keyPrefix,
         (forall k, Invalidation.glob pattern k = String.prefix keyPrefix k) ->
         Redis.store s' = Coherence.purge keyPrefix (Redis.store s).
Proof.
  intros Hup. unfold Invalidation.cacheDeletePattern.
  destruct (scanLoop_up (S Invalidation.lastSlot) pattern 0 s (Redis.store s))
    as (sent & s' & Hrun & Hres); [done|lia|lia| |].
  { intros k. rewrite decide_False; [done|]. intros [_ ?]. lia. }
  rewrite Hrun. simpl. exists sent, s'. split; [done|].
  assert (Redis.store s'
          = filter (fun kv => Invalidation.glob pattern kv.1 = false)
                   (Redis.store s)) as Hstore.
  { apply map_eq. intros k. rewrite Hres.
    destruct (decide (Invalidation.glob pattern k = true)) as [Hg|Hg].
    - symmetry. apply map_lookup_filter_None. right. intros e _. simpl.
      congruence.
    - apply not_true_is_false in Hg.
      destruct (Redis.store s !! k) as [e|] eqn:He.
      + symmetry. by apply map_lookup_filter_Some.
      + symmetry. apply map_lookup_filter_None. by left. }
  split; [done|]. intros keyPrefix Hglob. rewrite Hstore.
  unfold Coherence.purge. apply map_filter_ext. intros k e _. simpl.
  by rewrite Hglob.
Qed.

(** X3. [cacheDelete] sends one [DEL] for the key and never throws. It
    leaves every other key as it was; when the command succeeds the key
    is gone and a [cacheGet] of it finds nothing; when the command fails
    the store is unchanged. *)
Theorem cacheDelete_removes_key (T : Type) (key : string)
    (s : Redis.Server T) :
  let out := Invalidation.cacheDelete key s in
  out.1 = [Invalidation.DEL [key]]
  /\ (forall k, k <> key ->
                Redis.store out.2 !! k = Redis.store s !! k)
  /\ (Redis.outage s (Redis.served s) = false ->
      Redis.store out.2 = delete key (Redis.store s)
      /\ Cache.found out.2 key = None)
  /\ (Redis.outage s (Redis.served s) = true ->
      Redis.store out.2 = Redis.store s).
Proof.
  unfold Invalidation.cacheDelete, Invalidation.del. simpl.
  destruct (Redis.outage s (Redis.served s)) eqn:Hout; simpl.
  - by repeat split.
  - split; [done|]. split; [|split; [|done]].
    + intros k Hk. by rewrite lookup_delete_ne.
    + intros _. split; [done|]. unfold Cache.found. simpl.
      destruct (Redis.outage s (S (Redis.served s))); [done|].
      by rewrite lookup_delete_eq.
Qed.

Lemma demo_glob_prefix (keyPrefix k : string) :
  Invalidation.glob (Keyspace:=Demo.keyspace) (keyPrefix +:+ "*") k
  = String.prefix keyPrefix k.
Proof.
  simpl. rewrite rev_append.
  change (String.rev "*") with "*". rewrite cons_app. simpl.
  by rewrite rev_rev.
Qed.

(** ["search:*"] on a server that answers: the two keys of the search
    route go, the others stay. *)
Lemma cacheDeletePattern_removes_matching_demo :
  exists sent s',
    Invalidation.cacheDeletePattern (ks:=Demo.keyspace) 4 "search:*"
      (Redis.healthy Demo.someKeys) = Some (sent, s')
    /\ Redis.store s' = Coherence.purge "search:" Demo.someKeys.
Proof.
  destruct (cacheDeletePattern_removes_matching nat Demo.keyspace "search:*"
              (Redis.healthy Demo.someKeys))
    as (sent & s' & Hrun & _ & Hpurge).
  - intros n _. reflexivity.
  - exists sent, s'. split; [exact Hrun|].
    apply Hpurge. intros k. apply (demo_glob_prefix "search:").
Defined.

(** ** What a validated search request looks like *)

Section SchemaFacts.
Context {rt : JsRuntime}.
Implicit Types (raw : Search.RawQuery) (rq : Search.QueryObject)
  (f : Search.Field) (x : Qc).

Lemma parseKeys_lookup raw (keys : list Search.Field) f :
  NoDup keys ->
  (f ∉ keys -> Js.getProperty (Search.parseKeys raw keys).2 f = None)
  /\ (f ∈ keys -> (Search.parseKeys raw keys).1 = [] ->
      match Search.checkField raw f with
      | Search.Absent => Js.getProperty (Search.parseKeys raw keys).2 f = None
      | Search.Accepted v =>
          Js.getProperty (Search.parseKeys raw keys).2 f = Some v
      | Search.Refused _ => False
      end).
Proof.
  induction keys as [|g keys IH]; intros Hnd.
  - split; [done|]. by intros ?%elem_of_nil.
  - apply NoDup_cons in Hnd as [Hg Hnd]. destruct (IH Hnd) as [IHout IHin].
    simpl. destruct (Search.parseKeys raw keys) as [issues obj] eqn:Hkeys.
    simpl in IHout, IHin. split.
    + intros Hf. apply not_elem_of_cons in Hf as [Hne Hf].
      destruct (Search.checkField raw g); simpl; [by apply IHout| |by apply IHout].
      destruct (decide (g = f)); [congruence|]. by apply IHout.
    + intros Hf Hissues. apply elem_of_cons in Hf as [->|Hf].
      * destruct (Search.checkField raw g); simpl in *.
        -- by apply IHout.
        -- by rewrite decide_True.
        -- done.
      * assert (g <> f) as Hne by (intros ->; done).
        destruct (Search.checkField raw g) eqn:Hg'; simpl in *.
        -- by apply IHin.
        -- specialize (IHin Hf Hissues).
           destruct (Search.checkField raw f); [| |done];
             by rewrite decide_False.
        -- done.
Qed.

(** Each property of a validated object is what its schema accepted;
    a parameter the schema found absent is not a property. *)
Lemma parse_lookup raw rq f :
  Search.parse raw = inr rq ->
  match Search.checkField raw f with
  | Search.Absent => Js.getProperty rq f = None
  | Search.Accepted v => Js.getProperty rq f = Some v
  | Search.Refused _ => False
  end.
Proof.
  unfold Search.parse. intros Hp.
  assert (NoDup Search.schemaKeys) as Hnd
    by (apply (bool_decide_unpack _); by vm_compute).
  assert (f ∈ Search.schemaKeys) as Hf
    by (destruct f; apply (bool_decide_unpack _); by vm_compute).
  destruct (parseKeys_lookup raw Search.schemaKeys f Hnd) as [_ Hin].
  destruct (Search.parseKeys raw Search.schemaKeys) as [[|i issues] obj];
    [|done].
  injection Hp as <-. by apply Hin.
Qed.

Lemma coerceNumber_Accepted (ok : Qc -> option IssueCode) (t : string)
    (v : Search.Value) :
  Search.coerceNumber ok t = Search.Accepted v ->
  exists x, v = Search.VNumber x /\ ok x = None.
Proof.
  unfold Search.coerceNumber. destruct (Number t) as [x|]; [|done].
  destruct (ok x) eqn:Hok; [done|]. intros [= <-]. by exists x.
Qed.

Lemma this_ofZ (z : Z) : this (Search.ofZ z) = inject_Z z.
Proof.
  unfold Search.ofZ, Q2Qc. simpl. apply Qred_identity. simpl.
  apply Z.gcd_1_r.
Qed.

(** A number that passed [.int()] is the integer [toZ] reads. *)
Lemma isInt_ofZ x : Search.isInt x = true -> x = Search.ofZ (Search.toZ x).
Proof.
  unfold Search.isInt, Search.toZ. intros Hd%Pos.eqb_eq.
  apply Qc_ext; rewrite this_ofZ; simpl.
  - destruct (this x) as [n d]. simpl in *. subst d. unfold Qfloor.
    by rewrite Z.div_1_r.
  - done.
Qed.

Lemma intCheck_None x : Search.intCheck x = None -> Search.isInt x = true.
Proof. unfold Search.intCheck. by destruct (Search.isInt x). Qed.

Lemma minCheck_None (lo : Z) x :
  Search.minCheck lo x = None -> (inject_Z lo <= this x)%Q.
Proof.
  unfold Search.minCheck. destruct (Qle_bool _ _) eqn:E; [|done].
  intros _. by apply Qle_bool_iff.
Qed.

Lemma maxCheck_None (hi : Z) x :
  Search.maxCheck hi x = None -> (this x <= inject_Z hi)%Q.
Proof.
  unfold Search.maxCheck. destruct (Qle_bool _ _) eqn:E; [|done].
  intros _. by apply Qle_bool_iff.
Qed.

Lemma positiveCheck_None x :
  Search.positiveCheck x = None -> (0 < this x)%Q.
Proof.
  unfold Search.positiveCheck. destruct (Sql.Qltb _ _) eqn:E; [|done].
  intros _. by apply Qltb_lt.
Qed.

(** Bounds on an integer read with [toZ]. *)
Lemma toZ_bounds x (lo hi : Z) :
  Search.isInt x = true ->
  (inject_Z lo <= this x)%Q -> (this x <= inject_Z hi)%Q ->
  (lo <= Search.toZ x <= hi)%Z.
Proof.
  intros Hint Hlo Hhi. rewrite (isInt_ofZ x Hint), this_ofZ in Hlo, Hhi.
  rewrite <- Zle_Qle in Hlo, Hhi. done.
Qed.

Lemma toZ_positive x :
  Search.isInt x = true -> (0 < this x)%Q -> (1 <= Search.toZ x)%Z.
Proof.
  intros Hint Hpos. rewrite (isInt_ofZ x Hint), this_ofZ in Hpos.
  change 0%Q with (inject_Z 0) in Hpos. rewrite <- Zlt_Qlt in Hpos. lia.
Qed.

Lemma checks_cons (c : Qc -> option IssueCode) cs x :
  Search.checks (c :: cs) x = None -> c x = None /\ Search.checks cs x = None.
Proof. simpl. by destruct (c x). Qed.

Lemma getNumber_Some rq f x :
  Js.getProperty rq f = Some (Search.VNumber x) -> Search.getNumber rq f = Some x.
Proof. unfold Search.getNumber. by intros ->. Qed.

Lemma getString_Some rq f (t : string) :
  Js.getProperty rq f = Some (Search.VString t) -> Search.getString rq f = Some t.
Proof. unfold Search.getString. by intros ->. Qed.

Lemma getNumber_inv rq f x :
  Search.getNumber rq f = Some x -> Js.getProperty rq f = Some (Search.VNumber x).
Proof.
  unfold Search.getNumber.
  destruct (Js.getProperty rq f) as [[t|y]|]; try done. by intros [= ->].
Qed.

Lemma getString_inv rq f (t : string) :
  Search.getString rq f = Some t -> Js.getProperty rq f = Some (Search.VString t).
Proof.
  unfold Search.getString.
  destruct (Js.getProperty rq f) as [[u|y]|]; try done. by intros [= ->].
Qed.

(** An optional number of a validated object passed its checks. *)
Lemma parse_optional_number raw rq f
    (cs : list (Qc -> option IssueCode)) x :
  Search.parse raw = inr rq ->
  Search.propertySchema f
  = Search.optional (Search.coerceNumber (Search.checks cs)) ->
  Search.getNumber rq f = Some x -> Search.checks cs x = None.
Proof.
  intros Hp Hschema Hx%getNumber_inv.
  pose proof (parse_lookup raw rq f Hp) as Hf.
  unfold Search.checkField in Hf. rewrite Hschema in Hf.
  unfold Search.optional in Hf.
  destruct (Search.rawGet raw (Search.fieldName f)) as [t|]; [|congruence].
  destruct (Search.coerceNumber _ t) as [|v|c] eqn:Hc; [congruence| |done].
  apply coerceNumber_Accepted in Hc as (y & -> & Hok). congruence.
Qed.

(** A number with a default is the default or passed its checks. *)
Lemma parse_default_number raw rq f (d : Z)
    (cs : list (Qc -> option IssueCode)) :
  Search.parse raw = inr rq ->
  Search.propertySchema f
  = Search.withDefault (Search.VNumber (Search.ofZ d))
      (Search.coerceNumber (Search.checks cs)) ->
  exists x, Search.getNumber rq f = Some x
            /\ (x = Search.ofZ d \/ Search.checks cs x = None).
Proof.
  intros Hp Hschema.
  pose proof (parse_lookup raw rq f Hp) as Hf.
  unfold Search.checkField in Hf. rewrite Hschema in Hf.
  unfold Search.withDefault in Hf.
  destruct (Search.rawGet raw (Search.fieldName f)) as [t|].
  - destruct (Search.coerceNumber _ t) as [|v|c] eqn:Hc; [| |done].
    + unfold Search.coerceNumber in Hc. destruct (Number t) as [y|]; [|done].
      by destruct (Search.checks cs y).
    + apply coerceNumber_Accepted in Hc as (y & -> & Hok).
      exists y. split; [by apply getNumber_Some|by right].
  - exists (Search.ofZ d). split; [by apply getNumber_Some|by left].
Qed.
End SchemaFacts.

(** X5. A request that passes [SearchQuerySchema] is within the bounds
    of the schema: [sort_by] is one of the three modes; [page] is an
    integer of at least 1 and [limit] an integer from 1 to 50 (1 and 20
    when absent), so that the offset is not negative; a cuisine is one
    of the fourteen of the list; a district has at most 100 code units;
    a price range is an integer from 1 to 4, a minimum score lies
    between 1 and 10, a latitude between -90 and 90 and a longitude
    between -180 and 180. *)
Theorem validated_request_in_bounds (rt : JsRuntime) (raw : Search.RawQuery)
    (rq : Search.QueryObject) :
  Search.parse raw = inr rq ->
  Search.sort_by_ rq ∈ Search.sortModes
  /\ (exists x, Search.getNumber rq Search.K_page = Some x
                /\ x = Search.ofZ (Search.page_ rq))
  /\ (exists x, Search.getNumber rq Search.K_limit = Some x
                /\ x = Search.ofZ (Search.limit_ rq))
  /\ (1 <= Search.page_ rq)%Z
  /\ (1 <= Search.limit_ rq <= 50)%Z
  /\ (0 <= Search.offset_ rq)%Z
  /\ (forall c, Search.cuisine_ rq = Some c -> c ∈ Search.cuisines)
  /\ (forall d, Search.district_ rq = Some d -> (String.length d <= 100)%nat)
  /\ (forall p, Search.price_range_ rq = Some p ->
                p = Search.ofZ (Search.toZ p) /\ (1 <= Search.toZ p <= 4)%Z)
  /\ (forall m, Search.min_score_ rq = Some m -> (1 <= this m <= 10)%Q)
  /\ (forall la, Search.lat_ rq = Some la -> (-90 <= this la <= 90)%Q)
  /\ (forall ln, Search.lng_ rq = Some ln -> (-180 <= this ln <= 180)%Q).
Proof.
  intros Hp.
  assert (exists x, Search.getNumber rq Search.K_page = Some x
                    /\ Search.isInt x = true /\ (0 < this x)%Q) as Hpage.
  { destruct (parse_default_number raw rq Search.K_page 1 _ Hp eq_refl)
      as (x & Hx & [Hd|Hc]); exists x; (split; [done|]).
    - rewrite Hd. split; [reflexivity|]. by rewrite this_ofZ.
    - apply checks_cons in Hc as [Hi Hc]. apply checks_cons in Hc as [Hpos _].
      split; [by apply intCheck_None|by apply positiveCheck_None]. }
  assert (exists x, Search.getNumber rq Search.K_limit = Some x
                    /\ Search.isInt x = true
                    /\ (inject_Z 1 <= this x)%Q /\ (this x <= inject_Z 50)%Q)
    as Hlimit.
  { destruct (parse_default_number raw rq Search.K_limit 20 _ Hp eq_refl)
      as (x & Hx & [Hd|Hc]); exists x; (split; [done|]).
    - rewrite Hd. split; [reflexivity|]. by rewrite this_ofZ.
    - apply checks_cons in Hc as [Hi Hc]. apply checks_cons in Hc as [Hlo Hc].
      apply checks_cons in Hc as [Hhi _].
      split; [by apply intCheck_None|].
      split; [by apply minCheck_None|by apply maxCheck_None]. }
  destruct Hpage as (pg & Hpg & Hpgint & Hpgpos).
  destruct Hlimit as (lm & Hlm & Hlmint & Hlmlo & Hlmhi).
  assert (Search.page_ rq = Search.toZ pg) as Epage
    by (unfold Search.page_; by rewrite Hpg).
  assert (Search.limit_ rq = Search.toZ lm) as Elimit
    by (unfold Search.limit_; by rewrite Hlm).
  pose proof (toZ_positive pg Hpgint Hpgpos) as Hpage1.
  pose proof (toZ_bounds lm 1 50 Hlmint Hlmlo Hlmhi) as Hlimit1.
  split.
  { pose proof (parse_lookup raw rq Search.K_sort_by Hp) as Hf.
    unfold Search.checkField, Search.propertySchema, Search.withDefault in Hf.
    unfold Search.sort_by_, Search.getString.
    destruct (Search.rawGet raw _) as [t|].
    - unfold Search.enum in Hf.
      destruct (Search.member t Search.sortModes) eqn:Hm; [|done].
      rewrite Hf. simpl. unfold Search.member in Hm.
      apply existsb_exists in Hm as (u & Hu & ->%String.eqb_eq).
      by apply list_elem_of_In.
    - rewrite Hf. simpl. by left. }
  split; [exists pg; split; [done|]; rewrite Epage; by apply isInt_ofZ|].
  split; [exists lm; split; [done|]; rewrite Elimit; by apply isInt_ofZ|].
  split; [lia|]. split; [lia|]. split; [unfold Search.offset_; nia|].
  split.
  { intros c Hc%getString_inv.
    pose proof (parse_lookup raw rq Search.K_cuisine Hp) as Hf.
    unfold Search.checkField, Search.propertySchema, Search.optional in Hf.
    destruct (Search.rawGet raw _) as [t|]; [|congruence].
    unfold Search.enum in Hf.
    destruct (Search.member t Search.cuisines) eqn:Hm; [|done].
    rewrite Hf in Hc. injection Hc as <-. unfold Search.member in Hm.
    apply existsb_exists in Hm as (u & Hu & ->%String.eqb_eq).
    by apply list_elem_of_In. }
  split.
  { intros d Hd%getString_inv.
    pose proof (parse_lookup raw rq Search.K_district Hp) as Hf.
    unfold Search.checkField, Search.propertySchema, Search.optional in Hf.
    destruct (Search.rawGet raw _) as [t|]; [|congruence].
    unfold Search.stringBetween in Hf. simpl in Hf.
    destruct (100 <? String.length t)%nat eqn:Hlen; [done|].
    rewrite Hf in Hd. injection Hd as <-. by apply Nat.ltb_ge in Hlen. }
  split.
  { intros p Hpr.
    pose proof (parse_optional_number raw rq Search.K_price_range _ p Hp
                  eq_refl Hpr) as Hc.
    apply checks_cons in Hc as [Hi Hc]. apply checks_cons in Hc as [Hlo Hc].
    apply checks_cons in Hc as [Hhi _]. apply intCheck_None in Hi.
    split; [by apply isInt_ofZ|].
    apply toZ_bounds; [done|by apply minCheck_None|by apply maxCheck_None]. }
  split.
  { intros m Hm.
    pose proof (parse_optional_number raw rq Search.K_min_score _ m Hp
                  eq_refl Hm) as Hc.
    apply checks_cons in Hc as [Hlo Hc]. apply checks_cons in Hc as [Hhi _].
    split; [by apply (minCheck_None 1)|by apply (maxCheck_None 10)]. }
  split.
  - intros la Hla.
    pose proof (parse_optional_number raw rq Search.K_lat _ la Hp
                  eq_refl Hla) as Hc.
    apply checks_cons in Hc as [Hlo Hc]. apply checks_cons in Hc as [Hhi _].
    split; [by apply (minCheck_None (-90))|by apply (maxCheck_None 90)].
  - intros ln Hln.
    pose proof (parse_optional_number raw rq Search.K_lng _ ln Hp
                  eq_refl Hln) as Hc.
    apply checks_cons in Hc as [Hlo Hc]. apply checks_cons in Hc as [Hhi _].
    split; [by apply (minCheck_None (-180))|by apply (maxCheck_None 180)].
Qed.

(** ** Pagination *)

Section Pagination.
Context {rt : JsRuntime} {pg : Sql.Postgres}.
Implicit Types (db : Sql.Database) (rq : Search.QueryObject)
  (raw : Search.RawQuery).

Lemma parse_page_limit raw rq :
  Search.parse raw = inr rq ->
  (1 <= Search.page_ rq)%Z /\ (1 <= Search.limit_ rq <= 50)%Z.
Proof.
  intros Hp.
  destruct (parse_default_number raw rq Search.K_page 1 _ Hp eq_refl)
    as (x & Hx & Hpage).
  destruct (parse_default_number raw rq Search.K_limit 20 _ Hp eq_refl)
    as (y & Hy & Hlimit).
  unfold Search.page_, Search.limit_. rewrite Hx, Hy. simpl. split.
  - destruct Hpage as [->|Hc]; [by vm_compute|].
    apply checks_cons in Hc as [Hi Hc]. apply checks_cons in Hc as [Hpos _].
    apply toZ_positive; [by apply intCheck_None|by apply positiveCheck_None].
  - destruct Hlimit as [->|Hc]; [by vm_compute|].
    apply checks_cons in Hc as [Hi Hc]. apply checks_cons in Hc as [Hlo Hc].
    apply checks_cons in Hc as [Hhi _].
    apply toZ_bounds;
      [by apply intCheck_None|by apply minCheck_None|by apply maxCheck_None].
Qed.

(** The page query and the count query see the same rows. *)
Lemma results_length db rq :
  (0 <= Search.offset_ rq)%Z -> (0 <= Search.limit_ rq)%Z ->
  Z.of_nat (length (Search.results db rq))
  = Z.min (Search.limit_ rq)
      (Z.max 0 (Sql.countRestaurants db (Search.whereClause rq)
                - Search.offset_ rq)).
Proof.
  intros Ho Hl. unfold Search.results, Sql.selectRestaurants, Sql.limitOffset,
    Sql.countRestaurants.
  rewrite length_take, length_drop.
  rewrite (Permutation_length (orderBy_Permutation _ _ _)). lia.
Qed.

(** [Math.ceil(total / limit)] is the least number of pages that hold
    [total] rows. *)
Lemma ceilDiv_spec (total limit : Z) :
  (0 < limit)%Z ->
  ((Search.ceilDiv total limit - 1) * limit < total
   <= Search.ceilDiv total limit * limit)%Z.
Proof.
  intros Hl. unfold Search.ceilDiv.
  pose proof (Z.div_mod (- total) limit ltac:(lia)) as Hdm.
  pose proof (Z.mod_pos_bound (- total) limit Hl) as Hm. nia.
Qed.
End Pagination.

(** X6. The pagination block of a search response agrees with the page
    it comes with. For a validated request, [total] is the number of
    venues that satisfy the conjunction, the page holds
    [min(limit, max(0, total - offset))] items, [totalPages] is the least
    number of pages of [limit] items that hold [total] venues, [hasNext]
    is true exactly when venues remain after this page and [hasPrev]
    exactly when the page is not the first. *)
Theorem pagination_agrees_with_page (rt : JsRuntime) (pg : Sql.Postgres)
    (db : Sql.Database) (raw : Search.RawQuery) (rq : Search.QueryObject) :
  Search.parse raw = inr rq ->
  let response := Search.respond db rq in
  let p := Search.pagination response in
  let matching :=
    filter (fun r => Sql.whereAll (Search.whereClause rq) r = true)
           (Sql.restaurants db) in
  Search.total p = Z.of_nat (length matching)
  /\ Z.of_nat (length (Search.data response))
     = Z.min (Search.limit_ rq)
         (Z.max 0 (Search.total p - Search.offset_ rq))
  /\ ((Search.totalPages p - 1) * Search.limit_ rq < Search.total p
      <= Search.totalPages p * Search.limit_ rq)%Z
  /\ (Search.hasNext p = true
      <-> (Search.offset_ rq + Search.limit_ rq < Search.total p)%Z)
  /\ (Search.hasPrev p = true <-> (1 < Search.page_ rq)%Z).
Proof.
  intros Hp response p matching.
  destruct (parse_page_limit raw rq Hp) as [Hpage Hlimit].
  subst response p. unfold Search.respond, Search.assemble. simpl.
  pose proof (ceilDiv_spec (Sql.countRestaurants db (Search.whereClause rq))
                (Search.limit_ rq) ltac:(lia)) as Hceil.
  split; [done|]. split.
  { rewrite length_fmap. apply results_length; [|lia].
    unfold Search.offset_. nia. }
  split; [exact Hceil|]. split.
  - rewrite Z.ltb_lt. unfold Search.offset_. nia.
  - by rewrite Z.ltb_lt.
Qed.

Lemma parsed_second_page :
  Search.parse (rt:=Demo.runtime) Demo.secondPageRaw = inr Demo.secondPage.
Proof. by vm_compute. Qed.

(** ** The page of a search *)

Section PageFacts.
Context {rt : JsRuntime} {pg : Sql.Postgres}.
Implicit Types (db : Sql.Database) (rq : Search.QueryObject)
  (raw : Search.RawQuery).

Lemma truthy_validated_number (x : Qc) :
  (1 <= this x)%Q -> Search.truthyNumber (Some x) = Some x.
Proof.
  intros Hx. unfold Search.truthyNumber, Js.truthy_number.
  destruct (Qeq_bool (this x) 0) eqn:E; [|done].
  apply Qeq_bool_iff in E. rewrite E in Hx. by vm_compute in Hx.
Qed.

Lemma truthy_cuisine (c : string) :
  c ∈ Search.cuisines -> Search.truthyString (Some c) = Some c.
Proof.
  intros Hc. unfold Search.truthyString.
  destruct c; [|done]. apply (bool_decide_pack _) in Hc. by vm_compute in Hc.
Qed.

Lemma truthy_nonempty (d : string) :
  d <> "" -> Search.truthyString (Some d) = Some d.
Proof. unfold Search.truthyString. by destruct d. Qed.
End PageFacts.

(** X7. With no sort mode, or with [sort_by=score], the page is in
    order of overall score, best first, and the venues without a score
    come after those that have one. *)
Theorem default_order_is_best_first (rt : JsRuntime) (pg : Sql.Postgres)
    (db : Sql.Database) (rq : Search.QueryObject) :
  Search.sort_by_ rq <> "distance" -> Search.sort_by_ rq <> "newest" ->
  StronglySorted Search.betterFirst (Search.results db rq).
Proof.
  intros Hd Hn.
  eapply StronglySorted_impl; [|apply results_sorted].
  intros a b _ _. unfold Search.orderOf, Search.orderClause.
  apply String.eqb_neq in Hd, Hn. rewrite Hd, Hn.
  unfold inOrder, Search.betterFirst. simpl. unfold Sql.term_before. simpl.
  destruct (Sql.overallScore a) as [x|], (Sql.overallScore b) as [y|];
    simpl; try done.
  rewrite andb_false_r, orb_false_r, Qltb_ge. unfold Qle. simpl. lia.
Qed.

(** X8. Every venue on the page of a validated request satisfies every
    filter the request carries: it is switched on, it matches the text,
    its district is the one asked for (compared in lower case), its
    cuisines contain the one asked for, its price range is the one asked
    for, its score is at least the minimum, and with both coordinates it
    lies within 10000 metres. The one filter that is dropped is an empty
    district. *)
Theorem page_satisfies_filters (rt : JsRuntime) (pg : Sql.Postgres)
    (db : Sql.Database) (raw : Search.RawQuery) (rq : Search.QueryObject)
    (r : Sql.Restaurant) :
  Search.parse raw = inr rq ->
  r ∈ Search.results db rq ->
  Sql.isActive r = true
  /\ Sql.holds (Sql.TextMatch (Search.q_ rq)) r = true
  /\ (forall d, Search.district_ rq = Some d -> d <> "" ->
        exists x, Sql.district r = Some x /\ Sql.lower x = Sql.lower d)
  /\ (forall c, Search.cuisine_ rq = Some c ->
        exists tags, Sql.cuisineType r = Some tags /\ c ∈ tags)
  /\ (forall p, Search.price_range_ rq = Some p ->
        Sql.priceRange r = Some (Search.toZ p))
  /\ (forall m, Search.min_score_ rq = Some m ->
        exists score, Sql.overallScore r = Some score
                      /\ (this m <= score # 100)%Q)
  /\ (forall la ln, Search.lat_ rq = Some la -> Search.lng_ rq = Some ln ->
        exists pt, Sql.location r = Some pt
                   /\ Sql.ST_DWithin pt (Sql.makePoint ln la) 10000 = true)
  /\ (Search.district_ rq = Some "" ->
      forall d, Sql.DistrictIs d ∉ Search.whereClause rq).
Proof.
  intros Hp Hr.
  assert (forall c, c ∈ Search.whereClause rq -> Sql.holds c r = true) as Hall
    by (intros c; by apply (results_where db rq)).
  unfold Search.whereClause, Search.conditions in Hall.
  split; [apply (Hall Sql.IsActive); by left|].
  split; [apply (Hall (Sql.TextMatch _)); right; by left|].
  split.
  { intros d Hd Hne.
    assert (Sql.holds (Sql.DistrictIs d) r = true) as Hh.
    { apply Hall. rewrite Hd, (truthy_nonempty d Hne). simpl.
      do 2 right. by left. }
    simpl in Hh. destruct (Sql.district r) as [x|]; [|done].
    exists x. split; [done|]. by apply String.eqb_eq. }
  split.
  { intros c Hc.
    assert (c ∈ Search.cuisines) as Hin.
    { pose proof (parse_lookup raw rq Search.K_cuisine Hp) as Hf.
      apply getString_inv in Hc.
      unfold Search.checkField, Search.propertySchema, Search.optional in Hf.
      destruct (Search.rawGet raw _) as [t|]; [|congruence].
      unfold Search.enum in Hf.
      destruct (Search.member t Search.cuisines) eqn:Hm; [|done].
      rewrite Hf in Hc. injection Hc as <-. unfold Search.member in Hm.
      apply existsb_exists in Hm as (u & Hu & ->%String.eqb_eq).
      by apply list_elem_of_In. }
    assert (Sql.holds (Sql.CuisineIs c) r = true) as Hh.
    { apply Hall. rewrite Hc, (truthy_cuisine c Hin).
      rewrite !elem_of_app. do 2 right. left. simpl. by left. }
    simpl in Hh. destruct (Sql.cuisineType r) as [tags|]; [|done].
    exists tags. split; [done|].
    apply existsb_exists in Hh as (u & Hu & ->%String.eqb_eq).
    by apply list_elem_of_In. }
  split.
  { intros p Hpr.
    pose proof (parse_optional_number raw rq Search.K_price_range _ p Hp
                  eq_refl Hpr) as Hc.
    apply checks_cons in Hc as [Hi Hc]. apply checks_cons in Hc as [Hlo _].
    apply intCheck_None in Hi. apply minCheck_None in Hlo.
    assert (Sql.holds (Sql.PriceRangeIs p) r = true) as Hh.
    { apply Hall. rewrite Hpr, (truthy_validated_number p Hlo).
      rewrite !elem_of_app. do 3 right. left. simpl. by left. }
    simpl in Hh. destruct (Sql.priceRange r) as [x|]; [|done].
    apply Qeq_bool_iff in Hh.
    assert (this p = inject_Z (Search.toZ p)) as Ep.
    { rewrite (isInt_ofZ p Hi) at 1. apply this_ofZ. }
    rewrite Ep in Hh. unfold Qeq in Hh. simpl in Hh.
    f_equal. lia. }
  split.
  { intros m Hm.
    pose proof (parse_optional_number raw rq Search.K_min_score _ m Hp
                  eq_refl Hm) as Hc.
    apply checks_cons in Hc as [Hlo _]. apply minCheck_None in Hlo.
    assert (Sql.holds (Sql.MinScore m) r = true) as Hh.
    { apply Hall. rewrite Hm, (truthy_validated_number m Hlo).
      rewrite !elem_of_app. do 4 right. left. simpl. by left. }
    simpl in Hh. destruct (Sql.overallScore r) as [score|]; [|done].
    exists score. split; [done|]. by apply Qle_bool_iff. }
  split.
  { intros la ln Hla Hln.
    assert (Sql.holds (Sql.WithinRadius ln la 10000) r = true) as Hh.
    { apply Hall. rewrite Hla, Hln. rewrite !elem_of_app. do 5 right.
      by left. }
    simpl in Hh. destruct (Sql.location r) as [pt|]; [|done]. by exists pt. }
  intros Hd d. unfold Search.whereClause, Search.conditions. rewrite Hd.
  simpl. intros Hin.
  do 2 (apply elem_of_cons in Hin as [?|Hin]; [done|]).
  repeat (apply elem_of_app in Hin as [Hin|Hin]).
  - destruct (Search.truthyString (Search.cuisine_ rq)); simpl in Hin;
      [apply elem_of_cons in Hin as [?|Hin]; [done|]|];
      by apply elem_of_nil in Hin.
  - destruct (Search.truthyNumber (Search.price_range_ rq)); simpl in Hin;
      [apply elem_of_cons in Hin as [?|Hin]; [done|]|];
      by apply elem_of_nil in Hin.
  - destruct (Search.truthyNumber (Search.min_score_ rq)); simpl in Hin;
      [apply elem_of_cons in Hin as [?|Hin]; [done|]|];
      by apply elem_of_nil in Hin.
  - destruct (Search.lat_ rq), (Search.lng_ rq); simpl in Hin;
      try (by apply elem_of_nil in Hin).
    apply elem_of_cons in Hin as [?|Hin]; [done|]. by apply elem_of_nil in Hin.
Qed.

(** ** A miss fills the cache, the next request is a hit *)

Section HitAfterMiss.
Context {Q T : Type}.
Implicit Types (w : World Q T) (key : string).

Lemma up_afterGet w key :
  Invalidation.up (redis w) -> Invalidation.up (redis (Cache.afterGet w key)).
Proof. intros Hup. simpl. by apply up_tick. Qed.

Lemma found_afterSet w key (data : T) (ttl : Z) :
  Invalidation.up (redis w) ->
  Cache.found (redis (Cache.afterSet w key data ttl)) key = Some data
  /\ Redis.store (redis (Cache.afterSet w key data ttl)) !! key
     = Some {| Redis.value := Redis.Json data; Redis.ex := ttl |}.
Proof.
  intros Hup. unfold Cache.found. simpl.
  rewrite (Hup (S (Redis.served (redis w)))) by lia.
  rewrite (up_now _ Hup). by rewrite lookup_insert_eq.
Qed.
End HitAfterMiss.

(** X9. A search answered from the database is answered from the cache
    the next time. When Redis answers its commands and the key of a
    validated request is not stored, the response computed from the
    database is stored under the key with a TTL of 300 seconds, and the
    next request that validates to the same object is a [HIT] with that
    same body: the route sends one [GET] and no statement, whatever the
    database has become. *)
Theorem search_hit_after_miss (rt : JsRuntime) (pg : Sql.Postgres)
    (db db' : Sql.Database) (raw raw' : Search.RawQuery)
    (rq : Search.QueryObject) (s : Redis.Server Search.Response) :
  Search.parse raw = inr rq -> Search.parse raw' = inr rq ->
  Search.distanceWithoutCoordinates rq = false ->
  Invalidation.up s ->
  Cache.found s (Search.cacheKey rq) = None ->
  let first := Search.route db raw (arrival s) in
  let second := Search.route db' raw' (arrival (redis first.2)) in
  first.1 = Returned (Sent "MISS" (Search.respond db rq))
  /\ Redis.store (redis first.2) !! Search.cacheKey rq
     = Some {| Redis.value := Redis.Json (Search.respond db rq);
               Redis.ex := 300 |}
  /\ second.1 = Returned (Sent "HIT" (Search.respond db rq))
  /\ log second.2 = [ToRedis (Redis.GET (Search.cacheKey rq))].
Proof.
  intros Hp Hp' Hd Hup Hmiss first second. subst first second.
  rewrite !route_run, Hp, Hp'. rewrite (handler_run db rq). simpl.
  rewrite Hmiss, Hd. simpl. split; [done|].
  set (w1 := logged (Cache.afterGet (arrival s) (Search.cacheKey rq))
               (Search.statements db rq)).
  destruct (found_afterSet w1 (Search.cacheKey rq) (Search.respond db rq) 300)
    as [Hfound Hstored]; [by apply up_tick|].
  split; [exact Hstored|].
  rewrite handler_run. simpl. simpl in Hfound. by rewrite Hfound.
Qed.

(** X10. The restaurant detail route caches what it found and nothing
    else. When Redis answers and the key is not stored: for a slug the
    query finds, the details are stored with a TTL of 900 seconds and the
    next request for the slug is a [HIT] with the same body and no
    statement; for a slug the query does not find, the answer is 404 and
    the store is left as it was, so that the next request asks the
    database again. *)
Theorem detail_hit_after_miss (pg : Sql.Postgres) (db db' : Sql.Database)
    (slug : string) (s : Redis.Server RestaurantDetail.Response) :
  RestaurantDetail.checkSlug slug = None ->
  Invalidation.up s ->
  Cache.found s (RestaurantDetail.cacheKey slug) = None ->
  let first := RestaurantDetail.route db slug (arrival s) in
  let second := RestaurantDetail.route db' slug (arrival (redis first.2)) in
  match RestaurantDetail.restaurantResult db slug with
  | rest :: _ =>
      first.1 = Returned (Sent "MISS" (RestaurantDetail.details db rest))
      /\ Redis.store (redis first.2) !! RestaurantDetail.cacheKey slug
         = Some {| Redis.value := Redis.Json (RestaurantDetail.details db rest);
                   Redis.ex := 900 |}
      /\ second.1 = Returned (Sent "HIT" (RestaurantDetail.details db rest))
      /\ log second.2
         = [ToRedis (Redis.GET (RestaurantDetail.cacheKey slug))]
  | [] =>
      first.1 = Returned (Failed 404 "Not Found"
                                 (RestaurantDetail.notFoundMessage slug))
      /\ Redis.store (redis first.2) = Redis.store s
      /\ ToDb (RestaurantDetail.SelectRestaurant
                 (RestaurantDetail.detailConditions slug) 1) ∈ log second.2
  end.
Proof.
  intros Hslug Hup Hmiss first second. subst first second.
  rewrite !detail_route_run, Hslug. rewrite (detail_handler_run db slug).
  simpl. rewrite Hmiss.
  destruct (RestaurantDetail.restaurantResult db slug) as [|rest more] eqn:Hres.
  - simpl. split; [done|]. split; [done|].
    rewrite detail_handler_run. simpl.
    assert (Cache.found (Redis.tick s (Redis.store s))
              (RestaurantDetail.cacheKey slug) = None) as Hmiss'.
    { unfold Cache.found in *. simpl.
      rewrite (Hup (S (Redis.served s))) by lia.
      by rewrite (up_now s Hup) in Hmiss. }
    rewrite Hmiss'.
    destruct (RestaurantDetail.restaurantResult db' slug); simpl;
      right; by left.
  - simpl. split; [done|].
    set (w1 := logged
                 (logged (Cache.afterGet (arrival s)
                            (RestaurantDetail.cacheKey slug))
                    [RestaurantDetail.SelectRestaurant
                       (RestaurantDetail.detailConditions slug) 1])
                 (RestaurantDetail.statements db rest)).
    destruct (found_afterSet w1 (RestaurantDetail.cacheKey slug)
                (RestaurantDetail.details db rest) 900)
      as [Hfound Hstored]; [by apply up_tick|].
    split; [exact Hstored|].
    rewrite detail_handler_run. simpl. simpl in Hfound. by rewrite Hfound.
Qed.

(** X11. The autocomplete route keys its cache by the trimmed query in
    lower case. Two valid queries have the same key exactly when they
    agree after trimming and lowering the case; when Redis answers and
    the key is not stored, the first is answered from the database for
    its own trimmed text, stored with a TTL of 3600 seconds, and the
    second is then a [HIT] with the body computed for the first. *)
Theorem suggestions_shared_across_case (pg : Sql.Postgres)
    (db db' : Sql.Database) (input input' : option string) (q q' : string)
    (s : Redis.Server Autocomplete.Response) :
  Autocomplete.checkQ input = inl q -> Autocomplete.checkQ input' = inl q' ->
  (Autocomplete.cacheKey (Js.trim q) = Autocomplete.cacheKey (Js.trim q')
   <-> Js.toLowerCase (Js.trim q) = Js.toLowerCase (Js.trim q'))
  /\ (Js.toLowerCase (Js.trim q) = Js.toLowerCase (Js.trim q') ->
      Invalidation.up s ->
      Cache.found s (Autocomplete.cacheKey (Js.trim q)) = None ->
      let first := Autocomplete.route db input (arrival s) in
      let second := Autocomplete.route db' input' (arrival (redis first.2)) in
      first.1 = Returned (Sent "MISS" (Autocomplete.respond db (Js.trim q)))
      /\ Redis.store (redis first.2) !! Autocomplete.cacheKey (Js.trim q)
         = Some {| Redis.value :=
                     Redis.Json (Autocomplete.respond db (Js.trim q));
                   Redis.ex := 3600 |}
      /\ second.1
         = Returned (Sent "HIT" (Autocomplete.respond db (Js.trim q)))
      /\ log second.2
         = [ToRedis (Redis.GET (Autocomplete.cacheKey (Js.trim q)))]).
Proof.
  intros Hq Hq'.
  assert (Autocomplete.cacheKey (Js.trim q) = Autocomplete.cacheKey (Js.trim q')
          <-> Js.toLowerCase (Js.trim q) = Js.toLowerCase (Js.trim q'))
    as Hkey.
  { split.
    - apply suggest_cacheKey_case; apply trim_trim.
    - intros Heq. unfold Autocomplete.cacheKey. by rewrite Heq. }
  split; [exact Hkey|].
  intros Hcase Hup Hmiss first second. subst first second.
  rewrite !suggest_route_run, Hq, Hq'.
  rewrite (suggest_handler_run db q). simpl. rewrite Hmiss. simpl.
  split; [done|].
  set (w1 := logged (Cache.afterGet (arrival s)
                       (Autocomplete.cacheKey (Js.trim q)))
               (Autocomplete.statements (Js.trim q))).
  destruct (found_afterSet w1 (Autocomplete.cacheKey (Js.trim q))
              (Autocomplete.respond db (Js.trim q)) 3600)
    as [Hfound Hstored]; [by apply up_tick|].
  split; [exact Hstored|].
  rewrite suggest_handler_run. simpl.
  rewrite <- (proj2 Hkey Hcase). simpl in Hfound. by rewrite Hfound.
Qed.

(** ** The autocomplete route beyond its order *)

Section SuggestionFacts.
Context {pg : Sql.Postgres}.
Implicit Types (db : Sql.Database) (q : string).

Lemma trimStart_blank (t : string) : Js.blank t = true -> Js.trimStart t = "".
Proof.
  induction t as [|c t IH]; [done|]. simpl.
  intros [Hc Ht]%andb_true_iff. rewrite Hc. by apply IH.
Qed.

Lemma trim_blank (t : string) : Js.blank t = true -> Js.trim t = "".
Proof.
  intros Ht. unfold Js.trim, Js.trimEnd. by rewrite (trimStart_blank t Ht).
Qed.

Lemma dishResults_elem_of db q (d : Sql.Dish) :
  d ∈ Autocomplete.dishResults db q ->
  d ∈ Sql.dishes db /\ Autocomplete.dishMatches q d = true.
Proof.
  unfold Autocomplete.dishResults, Sql.orderBy.
  intros Hd%limitOffset_elem_of. rewrite stable_sort_elem_of in Hd.
  apply list_elem_of_filter in Hd. tauto.
Qed.

(** [LIMIT 5] drops nothing when at most five rows are there. *)
Lemma limitOffset_all {R} (n : Z) (rows : list R) :
  (Z.of_nat (length rows) <= n)%Z -> Sql.limitOffset (Some n) 0 rows = rows.
Proof.
  intros Hn. unfold Sql.limitOffset. simpl. rewrite drop_0.
  apply take_ge. lia.
Qed.
End SuggestionFacts.

(** X12. The autocomplete route checks the length of [q] as received
    and searches with the trimmed text. A query of fewer than 2 or more
    than 50 code units is refused before any command or statement is
    sent; any other is accepted, and on a miss the answer is computed
    for the trimmed query, which may be shorter than 2 code units: a
    query of white space only searches with the empty text under the
    key ["autocomplete:"]. *)
Theorem suggestions_trim_after_length_check (pg : Sql.Postgres)
    (db : Sql.Database) (input : string) :
  ((String.length input < 2)%nat ->
   forall w, Autocomplete.route db (Some input) w
             = (Returned (Rejected [{| path := "q"; issue := too_small |}]), w))
  /\ ((50 < String.length input)%nat ->
      forall w, Autocomplete.route db (Some input) w
                = (Returned (Rejected [{| path := "q"; issue := too_big |}]), w))
  /\ ((2 <= String.length input <= 50)%nat ->
      forall s, Cache.found s (Autocomplete.cacheKey (Js.trim input)) = None ->
        (Autocomplete.route db (Some input) (arrival s)).1
        = Returned (Sent "MISS" (Autocomplete.respond db (Js.trim input)))
        /\ (Js.blank input = true ->
            Js.trim input = ""
            /\ Autocomplete.cacheKey (Js.trim input) = "autocomplete:")).
Proof.
  split; [|split].
  - intros Hlen w. rewrite suggest_route_run. unfold Autocomplete.checkQ.
    apply Nat.ltb_lt in Hlen. by rewrite Hlen.
  - intros Hlen w. rewrite suggest_route_run. unfold Autocomplete.checkQ.
    destruct (String.length input <? 2)%nat eqn:E;
      [apply Nat.ltb_lt in E; lia|].
    apply Nat.ltb_lt in Hlen. by rewrite Hlen.
  - intros [Hlo Hhi] s Hmiss. rewrite suggest_route_run.
    unfold Autocomplete.checkQ.
    destruct (String.length input <? 2)%nat eqn:E1;
      [apply Nat.ltb_lt in E1; lia|].
    destruct (50 <? String.length input)%nat eqn:E2;
      [apply Nat.ltb_lt in E2; lia|].
    rewrite suggest_handler_run. simpl. rewrite Hmiss. simpl.
    split; [done|]. intros Hblank. rewrite (trim_blank input Hblank).
    by split.
Qed.

(** X13. The suggestions computed for a query are matches of it. Every
    restaurant row is switched on and has a name whose similarity to
    the query exceeds 0.2 or that matches it as full text; every dish
    row passes the same test on its label or its search vector; and when
    at most five venues (dishes) match, each of them is suggested. *)
Theorem suggestions_are_matches (pg : Sql.Postgres) (db : Sql.Database)
    (q : string) :
  (forall r, r ∈ Autocomplete.restaurantResults db q ->
     r ∈ Sql.restaurants db /\ Sql.isActive r = true
     /\ ((2 # 10 < Sql.similarity (Sql.name r) q)%Q
         \/ Sql.fts_match (Sql.name r) (Sql.unaccent q) = true))
  /\ (forall d, d ∈ Autocomplete.dishResults db q ->
        d ∈ Sql.dishes db
        /\ ((2 # 10 < Sql.similarity (Sql.dishLabel d) q)%Q
            \/ exists doc, Sql.d_searchVector d = Some doc
                           /\ Sql.fts_match doc (Sql.unaccent q) = true))
  /\ (let matching :=
        filter (fun r => Sql.whereAll (Autocomplete.restaurantConditions q) r
                         = true) (Sql.restaurants db) in
      (length matching <= 5)%nat ->
      Autocomplete.restaurantResults db q ≡ₚ matching)
  /\ (let matching :=
        filter (fun d => Autocomplete.dishMatches q d = true) (Sql.dishes db) in
      (length matching <= 5)%nat ->
      Autocomplete.dishResults db q ≡ₚ matching).
Proof.
  split; [|split; [|split]].
  - intros r Hr. destruct (restaurantResults_active db q r Hr) as [Hin Hon].
    split; [done|]. split; [done|].
    unfold Autocomplete.restaurantResults in Hr.
    apply selectRestaurants_elem_of in Hr as [_ Hc].
    assert (Sql.holds (Sql.NameMatch q) r = true) as Hm
      by (apply Hc; by left).
    simpl in Hm. apply orb_true_iff in Hm as [Hm|Hm]; [left|by right].
    by apply Qltb_lt.
  - intros d Hd. apply dishResults_elem_of in Hd as [Hin Hm].
    split; [done|]. unfold Autocomplete.dishMatches in Hm.
    apply orb_true_iff in Hm as [Hm|Hm]; [left; by apply Qltb_lt|right].
    destruct (Sql.d_searchVector d) as [doc|]; [|done]. by exists doc.
  - intros matching Hlen. unfold Autocomplete.restaurantResults,
      Sql.selectRestaurants.
    rewrite limitOffset_all.
    + apply orderBy_Permutation.
    + rewrite (Permutation_length (orderBy_Permutation _ _ _)).
      subst matching. lia.
  - intros matching Hlen. unfold Autocomplete.dishResults.
    rewrite limitOffset_all.
    + apply orderBy_Permutation.
    + rewrite (Permutation_length (orderBy_Permutation _ _ _)).
      subst matching. lia.
Qed.

(** ** The slug pattern *)

Section SlugFacts.
Implicit Types (s t w : string) (c : ascii) (ws : list string).

Lemma isWord_cons c w :
  RestaurantDetail.isWord (String c w) = true <->
  RestaurantDetail.isSlugChar c = true
  /\ (w = "" \/ RestaurantDetail.isWord w = true).
Proof.
  destruct w as [|a w]; simpl.
  - split; [by auto|tauto].
  - rewrite andb_true_iff. split; [by intros []; auto|].
    intros [? [?|?]]; done.
Qed.

Lemma hyphen_not_slugChar : RestaurantDetail.isSlugChar "-" = false.
Proof. reflexivity. Qed.

Lemma slugTail_word w t (afterWord : bool) :
  RestaurantDetail.isWord w = true ->
  RestaurantDetail.slugTail afterWord (w +:+ t)
  = RestaurantDetail.slugTail true t.
Proof.
  revert afterWord. induction w as [|c w IH]; intros afterWord; [done|].
  intros [Hc Hw]%isWord_cons.
  change (String c w +:+ t) with (String c (w +:+ t)). simpl. rewrite Hc.
  destruct Hw as [->|Hw]; [done|]. by apply IH.
Qed.

Lemma app_empty_r s : s +:+ "" = s.
Proof.
  unfold String.app. induction s as [|c s IH]; simpl; [done|]. by rewrite IH.
Qed.

Lemma hyphenated_cons w ws :
  ws <> [] ->
  RestaurantDetail.hyphenated (w :: ws)
  = w +:+ "-" +:+ RestaurantDetail.hyphenated ws.
Proof. by destruct ws. Qed.

(** Words joined by hyphens match the pattern. *)
Lemma slugTail_hyphenated ws :
  ws <> [] -> Forall (fun w => RestaurantDetail.isWord w = true) ws ->
  RestaurantDetail.slugTail false (RestaurantDetail.hyphenated ws) = true.
Proof.
  induction ws as [|w ws IH]; [done|]. intros _ Hall.
  apply Forall_cons in Hall as [Hw Hall].
  destruct ws as [|w' ws].
  - simpl. rewrite <- (app_empty_r w). by rewrite slugTail_word.
  - rewrite hyphenated_cons by done. rewrite slugTail_word by done.
    change ("-" +:+ ?h) with (String "-" h). cbn [RestaurantDetail.slugTail].
    rewrite hyphen_not_slugChar. simpl. by apply IH.
Qed.

(** What matches the pattern is made of words joined by hyphens. *)
Lemma slugTail_words s :
  (RestaurantDetail.slugTail false s = true ->
   exists ws, ws <> []
              /\ Forall (fun w => RestaurantDetail.isWord w = true) ws
              /\ s = RestaurantDetail.hyphenated ws)
  /\ (RestaurantDetail.slugTail true s = true ->
      forall c, RestaurantDetail.isSlugChar c = true ->
        exists ws, ws <> []
                   /\ Forall (fun w => RestaurantDetail.isWord w = true) ws
                   /\ String c s = RestaurantDetail.hyphenated ws).
Proof.
  induction s as [|a s [IHstart IHin]].
  - split; [done|]. intros _ c Hc. exists [String c ""].
    split; [done|]. split; [|done]. by repeat constructor.
  - split.
    + simpl. destruct (RestaurantDetail.isSlugChar a) eqn:Ha.
      * intros Hs. by apply IHin.
      * destruct (Js.code a =? 45)%N; done.
    + simpl. destruct (RestaurantDetail.isSlugChar a) eqn:Ha.
      * intros Hs c Hc. destruct (IHin Hs a Ha) as (ws & Hne & Hall & Heq).
        destruct ws as [|w ws]; [done|].
        apply Forall_cons in Hall as [Hw Hall].
        exists (String c w :: ws). split; [done|]. split.
        -- constructor; [|done]. apply isWord_cons. by auto.
        -- rewrite Heq. by destruct ws.
      * destruct (Js.code a =? 45)%N eqn:Hh; [|done]. simpl.
        intros Hs c Hc. destruct (IHstart Hs) as (ws & Hne & Hall & Heq).
        exists (String c "" :: ws). split; [done|]. split.
        -- constructor; [|done]. simpl. done.
        -- rewrite hyphenated_cons by done. rewrite <- Heq.
           apply N.eqb_eq in Hh.
           assert (a = "-"%char) as ->; [|done].
           rewrite <- (ascii_N_embedding a). unfold Js.code in Hh.
           by rewrite Hh.
Qed.
End SlugFacts.

(** X14. The slug pattern of the detail routes accepts exactly the
    texts made of one or more words of lower-case letters and digits,
    joined by single hyphens, and the schema accepts those of them that
    have at most 255 code units. *)
Theorem slug_is_hyphenated_words (s : string) :
  (RestaurantDetail.slugFormat s = true <->
   exists ws, ws <> []
              /\ Forall (fun w => RestaurantDetail.isWord w = true) ws
              /\ s = RestaurantDetail.hyphenated ws)
  /\ (RestaurantDetail.checkSlug s = None <->
      (String.length s <= 255)%nat /\ RestaurantDetail.slugFormat s = true).
Proof.
  split.
  - unfold RestaurantDetail.slugFormat. split.
    + apply slugTail_words.
    + intros (ws & Hne & Hall & ->). by apply slugTail_hyphenated.
  - unfold RestaurantDetail.checkSlug.
    destruct (String.length s <? 1)%nat eqn:E1.
    { apply Nat.ltb_lt in E1. destruct s; [|simpl in E1; lia].
      split; [done|]. by intros [_ ?]. }
    destruct (255 <? String.length s)%nat eqn:E2.
    { apply Nat.ltb_lt in E2. split; [done|]. intros [? _]. lia. }
    apply Nat.ltb_ge in E2.
    destruct (RestaurantDetail.slugFormat s); split; try done.
    by intros [_ ?].
Qed.

(** ** The lists of the restaurant detail *)

Section DetailLists.
Context {pg : Sql.Postgres}.
Implicit Types (db : Sql.Database) (rid k : Z)
  (byReview : gmap Z (list RestaurantDetail.Mention)).

Lemma addMention_lookup byReview (m : Sql.FoodMention) k :
  default [] (RestaurantDetail.addMention byReview m !! k)
  = default [] (byReview !! k)
    ++ (RestaurantDetail.mentionOf
          <$> filter (fun m => Sql.m_reviewId m = k) [m]).
Proof.
  unfold RestaurantDetail.addMention. rewrite filter_cons, filter_nil.
  destruct (decide (Sql.m_reviewId m = k)) as [->|Hne].
  - by rewrite lookup_insert_eq.
  - rewrite lookup_insert_ne by done. simpl. by rewrite app_nil_r.
Qed.

(** The grouping loop gives each review its mentions, in the order of
    the rows. *)
Lemma fold_addMention_lookup (ms : list Sql.FoodMention) byReview k :
  default [] (fold_left RestaurantDetail.addMention ms byReview !! k)
  = default [] (byReview !! k)
    ++ (RestaurantDetail.mentionOf
          <$> filter (fun m => Sql.m_reviewId m = k) ms).
Proof.
  revert byReview. induction ms as [|m ms IH]; intros byReview; simpl.
  - rewrite ?filter_nil. simpl. by rewrite app_nil_r.
  - rewrite IH, addMention_lookup, <- app_assoc, <- fmap_app.
    by rewrite <- filter_app.
Qed.

Lemma elem_of_reviewsOf db rid (r : Sql.Review) (p : Sql.Platform) :
  (r, p) ∈ RestaurantDetail.reviewsOf db rid <->
  r ∈ Sql.reviews db /\ p ∈ Sql.restaurantPlatforms db
  /\ Sql.r_restaurantPlatformId r = Sql.p_id p
  /\ Sql.p_restaurantId p = rid.
Proof.
  unfold RestaurantDetail.reviewsOf. rewrite list_elem_of_bind. split.
  - intros (r' & Hin & Hr). apply list_elem_of_bind in Hin as (p' & Hin & Hp).
    destruct (decide _) as [[? ?]|]; [|by apply elem_of_nil in Hin].
    apply elem_of_cons in Hin as [[= -> ->]|Hin]; [done|].
    by apply elem_of_nil in Hin.
  - intros (Hr & Hp & H1 & H2). exists r. split; [|done].
    apply list_elem_of_bind. exists p. split; [|done].
    rewrite decide_True by done. by left.
Qed.

Lemma recentReviewsOf_elem_of db rid (rp : Sql.Review * Sql.Platform) :
  rp ∈ RestaurantDetail.recentReviewsOf db rid ->
  rp ∈ RestaurantDetail.reviewsOf db rid.
Proof.
  unfold RestaurantDetail.recentReviewsOf, Sql.orderBy.
  intros Hin%limitOffset_elem_of. by rewrite stable_sort_elem_of in Hin.
Qed.

(** The mentions fetched for the reviews shown hold all the mentions of
    each of them. *)
Lemma dishMentionsOf_review db (ids : list Z) k :
  k ∈ ids ->
  filter (fun m => Sql.m_reviewId m = k) (RestaurantDetail.dishMentionsOf db ids)
  = filter (fun m => Sql.m_reviewId m = k) (Sql.foodMentions db).
Proof.
  intros Hk. unfold RestaurantDetail.dishMentionsOf.
  induction (Sql.foodMentions db) as [|m ms IH]; [done|].
  rewrite (filter_cons (fun m => Sql.m_reviewId m ∈ ids)).
  destruct (decide (Sql.m_reviewId m ∈ ids)) as [Hin|Hout].
  - rewrite !filter_cons. by rewrite IH.
  - rewrite IH, filter_cons. rewrite decide_False; [done|].
    intros Heq. apply Hout. by rewrite Heq.
Qed.
End DetailLists.

(** X15. The lists of a restaurant detail. The dish scores are all the
    rows of [food_scores] of the venue, best score first. The reviews
    are at most ten reviews written on a platform of the venue, latest
    first; each comes with the platform it was written on and with all
    the mentions of that review and no other, in the order of the table,
    a mention without a canonical name shown as ["Bilinmeyen"]. *)
Theorem detail_lists_belong_to_the_venue (pg : Sql.Postgres)
    (db : Sql.Database) (rest : Sql.Restaurant) :
  let body := RestaurantDetail.details db rest in
  RestaurantDetail.foodScores body
  ≡ₚ (RestaurantDetail.scoreInfoOf
        <$> filter (fun d => Sql.fs_restaurantId d = Sql.id rest)
                   (Sql.foodScores db))
  /\ StronglySorted RestaurantDetail.bestScoreFirst
       (RestaurantDetail.foodScores body)
  /\ (length (RestaurantDetail.recentReviews body) <= 10)%nat
  /\ StronglySorted RestaurantDetail.latestFirst
       (RestaurantDetail.recentReviews body)
  /\ (forall review, review ∈ RestaurantDetail.recentReviews body ->
        exists r p,
          r ∈ Sql.reviews db /\ p ∈ Sql.restaurantPlatforms db
          /\ Sql.r_restaurantPlatformId r = Sql.p_id p
          /\ Sql.p_restaurantId p = Sql.id rest
          /\ RestaurantDetail.rv_id review = Sql.r_id r
          /\ RestaurantDetail.text review = Sql.r_text r
          /\ RestaurantDetail.rv_platform review = Sql.p_platform p
          /\ RestaurantDetail.mentionedDishes review
             = (RestaurantDetail.mentionOf
                  <$> filter (fun m => Sql.m_reviewId m = Sql.r_id r)
                             (Sql.foodMentions db))).
Proof.
  intros body. subst body.
  unfold RestaurantDetail.details, RestaurantDetail.assemble. simpl.
  split; [|split; [|split; [|split]]].
  - unfold RestaurantDetail.scoresOf. by rewrite orderBy_Permutation.
  - apply (StronglySorted_fmap _
             (fun a b => RestaurantDetail.bestScoreFirst
                           (RestaurantDetail.scoreInfoOf a)
                           (RestaurantDetail.scoreInfoOf b))); [done|].
    unfold RestaurantDetail.scoresOf.
    eapply StronglySorted_impl; [|apply orderBy_sorted].
    intros a b _ _. unfold inOrder, RestaurantDetail.bestScoreFirst. simpl.
    unfold Sql.term_before. simpl.
    destruct (Sql.fs_score a) as [x|], (Sql.fs_score b) as [y|];
      simpl; try done.
    rewrite andb_false_r, orb_false_r, Qltb_ge. unfold Qle. simpl. lia.
  - rewrite length_fmap. apply (limitOffset_length 10).
  - match goal with
    | |- StronglySorted _ (?f <$> _) =>
        apply (StronglySorted_fmap _
                 (fun a b => RestaurantDetail.latestFirst (f a) (f b)));
          [done|]
    end.
    unfold RestaurantDetail.recentReviewsOf. apply limitOffset_sorted.
    eapply StronglySorted_impl; [|apply orderBy_sorted].
    intros a b _ _. unfold inOrder, RestaurantDetail.latestFirst. simpl.
    unfold Sql.term_before. simpl.
    destruct (Sql.r_reviewDate a.1) as [x|], (Sql.r_reviewDate b.1) as [y|];
      simpl; try done.
    rewrite andb_false_r, orb_false_r, Qltb_ge. unfold Qle. simpl. lia.
  - intros review Hin. apply list_elem_of_fmap in Hin as ([r p] & -> & Hin).
    pose proof (recentReviewsOf_elem_of db _ _ Hin) as Hrp.
    apply elem_of_reviewsOf in Hrp as (Hr & Hp & H1 & H2).
    exists r, p. simpl. repeat (split; [done|]).
    rewrite fold_addMention_lookup, lookup_empty. simpl.
    rewrite dishMentionsOf_review; [done|].
    apply list_elem_of_fmap. by exists (r, p).
Qed.

(** ** The dish detail route *)

Section DishRuns.
Context {pg : Sql.Postgres} {fp : DishDetail.Doubles} {T : Type}.
Implicit Types (db : Sql.Database) (slug : string)
  (w : World DishDetail.Statement T).

Lemma dish_handler_run db slug w :
  DishDetail.handler db slug w =
  match DishDetail.dishResult db slug with
  | [] =>
      (Returned (DishDetail.Failure 404 "Not Found"
                   (DishDetail.notFoundMessage slug)),
       logged w [DishDetail.SelectDish slug 1])
  | dish :: _ =>
      (Returned (DishDetail.Body (DishDetail.respond db dish)),
       logged w [DishDetail.SelectDish slug 1;
                 DishDetail.SelectRestaurantScores (Sql.dishLabel dish);
                 DishDetail.SelectSentiment (Sql.dishLabel dish)])
  end.
Proof.
  unfold DishDetail.handler, bind, emit, ret, logged. simpl.
  destruct (DishDetail.dishResult db slug) as [|dish more]; simpl; [done|].
  by rewrite <- !app_assoc.
Qed.

Lemma dishResult_head db slug (dish : Sql.Dish) more :
  DishDetail.dishResult db slug = dish :: more ->
  dish ∈ Sql.dishes db /\ Sql.d_slug dish = slug.
Proof.
  intros Hres.
  assert (dish ∈ DishDetail.dishResult db slug) as Hin
    by (rewrite Hres; by left).
  unfold DishDetail.dishResult in Hin. apply limitOffset_elem_of in Hin.
  apply list_elem_of_filter in Hin. tauto.
Qed.

Lemma dishResult_nil db slug :
  (forall d, d ∈ Sql.dishes db -> Sql.d_slug d <> slug) ->
  DishDetail.dishResult db slug = [].
Proof.
  intros Hnone.
  destruct (DishDetail.dishResult db slug) as [|dish more] eqn:E; [done|].
  apply dishResult_head in E as [Hin Hslug]. by destruct (Hnone dish Hin).
Qed.

Lemma prefix_refl (t : string) : String.prefix t t = true.
Proof.
  induction t as [|c t IH]; [done|]. simpl.
  by destruct (ascii_dec c c).
Qed.

Lemma includes_suffix (a b : string) : Js.includes (a +:+ b) b = true.
Proof.
  induction a as [|c a IH].
  - change ("" +:+ b) with b. destruct b as [|c b]; [done|].
    cbn [Js.includes]. by rewrite prefix_refl.
  - change (String c a +:+ b) with (String c (a +:+ b)). simpl.
    rewrite IH. apply orb_true_r.
Qed.

Lemma elem_of_restaurantScoresOf db (label : string)
    (fs : Sql.FoodScore) (r : Sql.Restaurant) :
  (fs, r) ∈ DishDetail.restaurantScoresOf db label <->
  fs ∈ Sql.foodScores db /\ r ∈ Sql.restaurants db
  /\ Sql.fs_restaurantId fs = Sql.id r
  /\ Sql.lower (Sql.unaccent (Sql.fs_foodName fs))
     = Sql.lower (Sql.unaccent label)
  /\ Sql.isActive r = true.
Proof.
  unfold DishDetail.restaurantScoresOf, Sql.orderBy, DishDetail.sameFood.
  rewrite stable_sort_elem_of, list_elem_of_bind. split.
  - intros (fs' & Hin & Hfs). apply list_elem_of_bind in Hin as (r' & Hin & Hr).
    destruct (decide _) as [(? & Hn & ?)|]; [|by apply elem_of_nil in Hin].
    apply elem_of_cons in Hin as [[= -> ->]|Hin];
      [|by apply elem_of_nil in Hin].
    apply String.eqb_eq in Hn. done.
  - intros (Hfs & Hr & Hid & Hn & Hon). exists fs. split; [|done].
    apply list_elem_of_bind. exists r. split; [|done].
    rewrite decide_True; [by left|].
    split; [done|]. split; [by apply String.eqb_eq|done].
Qed.

Lemma restaurantScoresOf_sorted db (label : string) :
  StronglySorted DishDetail.bestRowFirst
                 (DishDetail.restaurantScoresOf db label).
Proof.
  unfold DishDetail.restaurantScoresOf.
  eapply StronglySorted_impl; [|apply orderBy_sorted].
  intros a b _ _. unfold inOrder, DishDetail.bestRowFirst. simpl.
  unfold Sql.term_before. simpl.
  destruct (Sql.fs_score a.1) as [x|], (Sql.fs_score b.1) as [y|];
    simpl; try done.
  rewrite andb_false_r, orb_false_r, Qltb_ge. unfold Qle. simpl. lia.
Qed.

Lemma maxOf_spec (x : Z) (l : list Z) :
  DishDetail.maxOf x l ∈ x :: l
  /\ forall y, y ∈ x :: l -> (y <= DishDetail.maxOf x l)%Z.
Proof.
  unfold DishDetail.maxOf.
  induction l as [|a l [IHin IHle]]; simpl.
  - split; [by left|]. intros y [->|Hy]%elem_of_cons; [done|].
    by apply elem_of_nil in Hy.
  - split.
    + destruct (Z.max_spec a (foldr Z.max x l)) as [[_ ->]|[_ ->]].
      * apply elem_of_cons in IHin as [Hx|Hl]; [rewrite Hx; by left|].
        right. by right.
      * right. by left.
    + intros y Hy. apply elem_of_cons in Hy as [->|Hy].
      * specialize (IHle x ltac:(by left)). lia.
      * apply elem_of_cons in Hy as [->|Hy]; [lia|].
        specialize (IHle y ltac:(by right)). lia.
Qed.

Lemma minOf_spec (x : Z) (l : list Z) :
  DishDetail.minOf x l ∈ x :: l
  /\ forall y, y ∈ x :: l -> (DishDetail.minOf x l <= y)%Z.
Proof.
  unfold DishDetail.minOf.
  induction l as [|a l [IHin IHle]]; simpl.
  - split; [by left|]. intros y [->|Hy]%elem_of_cons; [done|].
    by apply elem_of_nil in Hy.
  - split.
    + destruct (Z.min_spec a (foldr Z.min x l)) as [[_ ->]|[_ ->]].
      * right. by left.
      * apply elem_of_cons in IHin as [Hx|Hl]; [rewrite Hx; by left|].
        right. by right.
    + intros y Hy. apply elem_of_cons in Hy as [->|Hy].
      * specialize (IHle x ltac:(by left)). lia.
      * apply elem_of_cons in Hy as [->|Hy]; [lia|].
        specialize (IHle y ltac:(by right)). lia.
Qed.

Lemma fold_reviewCount (rows : list (Sql.FoodScore * Sql.Restaurant)) (z : Z) :
  fold_left (fun sum r => (sum + Sql.fs_reviewCount r.1)%Z) rows z
  = (z + foldr Z.add 0
           (DishDetail.reviewCount <$> (DishDetail.toRestaurantScore <$> rows)))%Z.
Proof.
  revert z. induction rows as [|r rows IH]; intros z; [simpl; lia|].
  rewrite !fmap_cons. cbn [foldr fold_left]. rewrite IH. simpl. lia.
Qed.

(** A mention carries at most one of the three labels. *)
Lemma sentiment_counts (l : list Sql.FoodMention) :
  (0 <= RestaurantDetail.countZ (RestaurantDetail.sentimentIs "positive") l
   /\ 0 <= RestaurantDetail.countZ (RestaurantDetail.sentimentIs "negative") l
   /\ 0 <= RestaurantDetail.countZ (RestaurantDetail.sentimentIs "neutral") l
   /\ RestaurantDetail.countZ (RestaurantDetail.sentimentIs "positive") l
      + RestaurantDetail.countZ (RestaurantDetail.sentimentIs "negative") l
      + RestaurantDetail.countZ (RestaurantDetail.sentimentIs "neutral") l
      <= Z.of_nat (length l))%Z.
Proof.
  unfold RestaurantDetail.countZ. repeat (split; [lia|]).
  induction l as [|m l IH]; simpl; [lia|].
  unfold RestaurantDetail.sentimentIs at 1 4 7.
  destruct (Sql.m_sentiment m) as [t|]; [|lia].
  destruct (String.eqb_spec t "positive") as [->|_]; simpl; [lia|].
  destruct (String.eqb_spec t "negative") as [->|_]; simpl; [lia|].
  destruct (String.eqb t "neutral"); simpl; lia.
Qed.
End DishRuns.

Section DishFacts.
Context {pg : Sql.Postgres} {fp : DishDetail.Doubles} {T : Type}.
Implicit Types (db : Sql.Database) (slug : string)
  (w : World DishDetail.Statement T).

Lemma dishResult_found db slug (d0 : Sql.Dish) :
  d0 ∈ Sql.dishes db -> Sql.d_slug d0 = slug ->
  exists dish more, DishDetail.dishResult db slug = dish :: more.
Proof.
  intros Hin Hslug. unfold DishDetail.dishResult, Sql.limitOffset.
  assert (d0 ∈ filter (fun d => Sql.d_slug d = slug) (Sql.dishes db)) as Hf
    by (by apply list_elem_of_filter).
  simpl. rewrite drop_0.
  destruct (filter _ (Sql.dishes db)) as [|dish rest];
    [by apply elem_of_nil in Hf|].
  by exists dish, [].
Qed.

Lemma scores_of_restaurants (rows : list (Sql.FoodScore * Sql.Restaurant)) :
  (fun r => DishDetail.numberOfScore (Sql.fs_score r.1)) <$> rows
  = DishDetail.score <$> (DishDetail.toRestaurantScore <$> rows).
Proof. rewrite <- list_fmap_compose. by apply list_fmap_ext. Qed.

(** X16. A well-formed slug that no dish carries is answered with 404
    "Not Found" and a message that contains the slug, after the one
    statement that looks the dish up; Redis is not asked. *)
Theorem dish_unknown_slug_is_not_found db slug w :
  DishDetail.DishDetailParamsSchema slug = true ->
  (forall d, d ∈ Sql.dishes db -> Sql.d_slug d <> slug) ->
  exists message,
    DishDetail.route db slug w
    = (Returned (DishDetail.Failure 404 "Not Found" message),
       {| redis := redis w;
          log := log w ++ [ToDb (DishDetail.SelectDish slug 1)] |})
    /\ Js.includes message slug = true.
Proof.
  intros Hok Hnone. exists (DishDetail.notFoundMessage slug).
  unfold DishDetail.route. rewrite Hok, dish_handler_run.
  rewrite (dishResult_nil db slug Hnone). split; [done|].
  apply includes_suffix.
Qed.

(** X17. A well-formed slug that a dish carries is answered with the
    body built from a dish of that slug, after three statements: the
    look-up, the scores and the sentiment of its name; Redis is not
    asked and the body names the slug of the request. *)
Theorem dish_found_by_slug db slug w (d0 : Sql.Dish) :
  DishDetail.DishDetailParamsSchema slug = true ->
  d0 ∈ Sql.dishes db -> Sql.d_slug d0 = slug ->
  exists dish,
    dish ∈ Sql.dishes db /\ Sql.d_slug dish = slug
    /\ DishDetail.route db slug w
       = (Returned (DishDetail.Body (DishDetail.respond db dish)),
          {| redis := redis w;
             log := log w ++
               [ToDb (DishDetail.SelectDish slug 1);
                ToDb (DishDetail.SelectRestaurantScores (Sql.dishLabel dish));
                ToDb (DishDetail.SelectSentiment (Sql.dishLabel dish))] |})
    /\ DishDetail.slug (DishDetail.dish (DishDetail.respond db dish)) = slug
    /\ DishDetail.name (DishDetail.dish (DishDetail.respond db dish))
       = Sql.d_name dish.
Proof.
  intros Hok Hin Hslug.
  destruct (dishResult_found db slug d0 Hin Hslug) as (dish & more & Hres).
  destruct (dishResult_head db slug dish more Hres) as [Hd Hs].
  exists dish. split; [done|]. split; [done|]. split; [|done].
  unfold DishDetail.route. by rewrite Hok, dish_handler_run, Hres.
Qed.

(** X18. The restaurants of a dish body are exactly the score rows
    whose food name equals the name of the dish up to case and accents,
    joined to their venue when it is active; when every such row has a
    score they stand best score first. *)
Theorem dish_restaurants_are_active_matches db (dish : Sql.Dish) :
  (forall rs,
     rs ∈ DishDetail.restaurants (DishDetail.respond db dish) <->
     exists fs r,
       fs ∈ Sql.foodScores db /\ r ∈ Sql.restaurants db
       /\ Sql.fs_restaurantId fs = Sql.id r
       /\ Sql.lower (Sql.unaccent (Sql.fs_foodName fs))
          = Sql.lower (Sql.unaccent (Sql.dishLabel dish))
       /\ Sql.isActive r = true
       /\ rs = DishDetail.toRestaurantScore (fs, r))
  /\ ((forall fs, fs ∈ Sql.foodScores db -> is_Some (Sql.fs_score fs)) ->
      StronglySorted (fun a b => (DishDetail.score b <= DishDetail.score a)%Z)
        (DishDetail.restaurants (DishDetail.respond db dish))).
Proof.
  split.
  - intros rs. simpl. rewrite list_elem_of_fmap. split.
    + intros ([fs r] & -> & Hin).
      apply elem_of_restaurantScoresOf in Hin. exists fs, r. tauto.
    + intros (fs & r & Hfs & Hr & Hid & Hn & Hon & ->). exists (fs, r).
      split; [done|]. apply elem_of_restaurantScoresOf. tauto.
  - intros Hscored. simpl.
    assert (Forall (fun row => is_Some (Sql.fs_score row.1))
              (DishDetail.restaurantScoresOf db (Sql.dishLabel dish))) as Hall.
    { apply Forall_forall. intros [fs r] Hin.
      apply elem_of_restaurantScoresOf in Hin. apply Hscored. tauto. }
    pose proof (restaurantScoresOf_sorted db (Sql.dishLabel dish)) as Hsorted.
    induction Hsorted as [|a l Hl IH Ha]; [constructor|].
    rewrite fmap_cons. apply Forall_cons in Hall as [Hsa Hall].
    constructor; [by apply IH|].
    apply Forall_fmap, Forall_forall. intros b Hb. simpl.
    rewrite Forall_forall in Ha, Hall. specialize (Ha b Hb).
    specialize (Hall b Hb). unfold DishDetail.bestRowFirst in Ha.
    destruct Hsa as [x Hx], Hall as [y Hy]. by rewrite Hx, Hy in *.
Qed.

(** X19. The statistics of a dish body summarise its restaurants:
    without restaurants the three scores are null and the reviews are
    zero; otherwise the maximum and the minimum are scores of listed
    restaurants that bound every listed score, and the average is a
    number. The reviews are the sum of the listed review counts. *)
Theorem dish_stats_summarise_restaurants db (dish : Sql.Dish) :
  let body := DishDetail.respond db dish in
  let scores := DishDetail.score <$> DishDetail.restaurants body in
  DishDetail.totalReviews (DishDetail.stats body)
  = foldr Z.add 0%Z (DishDetail.reviewCount <$> DishDetail.restaurants body)
  /\ (DishDetail.restaurants body = [] ->
      DishDetail.stats body
      = {| DishDetail.avgScore := None; DishDetail.maxScore := None;
           DishDetail.minScore := None; DishDetail.totalReviews := 0 |})
  /\ (DishDetail.restaurants body <> [] ->
      exists hi lo : Z,
        DishDetail.maxScore (DishDetail.stats body) = Some hi
        /\ DishDetail.minScore (DishDetail.stats body) = Some lo
        /\ hi ∈ scores /\ lo ∈ scores
        /\ (forall x, x ∈ scores -> (lo <= x <= hi)%Z)
        /\ is_Some (DishDetail.avgScore (DishDetail.stats body))).
Proof.
  simpl.
  set (rows := DishDetail.restaurantScoresOf db (Sql.dishLabel dish)).
  unfold DishDetail.statsOf. simpl. rewrite scores_of_restaurants.
  split; [by rewrite fold_reviewCount|]. split.
  - intros Hnil. apply fmap_nil_inv in Hnil. by rewrite Hnil.
  - intros Hsome.
    destruct (DishDetail.score <$> (DishDetail.toRestaurantScore <$> rows))
      as [|x l] eqn:E.
    { apply fmap_nil_inv in E. done. }
    destruct (maxOf_spec x l) as [Hmax Hle], (minOf_spec x l) as [Hmin Hge].
    exists (DishDetail.maxOf x l), (DishDetail.minOf x l).
    repeat (split; [done|]). split; [|by eexists].
    intros y Hy. split; [by apply Hge|by apply Hle].
Qed.

(** X20. In the sentiment summary of a dish body no count is
    negative, the three labelled counts together do not exceed the
    total, and the total does not exceed the number of stored mentions;
    the total is zero when no mention has a canonical name equal to the
    name of the dish up to case and accents. *)
Theorem dish_sentiment_counts_bounded db (dish : Sql.Dish) :
  let s := DishDetail.sentimentSummary (DishDetail.respond db dish) in
  (0 <= DishDetail.positive s /\ 0 <= DishDetail.negative s
   /\ 0 <= DishDetail.neutral s
   /\ DishDetail.positive s + DishDetail.negative s + DishDetail.neutral s
      <= DishDetail.total s
   /\ DishDetail.total s <= Z.of_nat (length (Sql.foodMentions db)))%Z
  /\ ((forall m c, m ∈ Sql.foodMentions db ->
         Sql.m_canonicalName m = Some c ->
         Sql.lower (Sql.unaccent c)
         <> Sql.lower (Sql.unaccent (Sql.dishLabel dish))) ->
      DishDetail.total s = 0%Z).
Proof.
  simpl.
  pose proof (sentiment_counts
                (DishDetail.mentionsNamed db (Sql.dishLabel dish)))
    as (Hp & Hn & Hu & Hsum).
  split.
  - repeat (split; [done|]). unfold DishDetail.mentionsNamed.
    pose proof (length_filter
                  (fun m => DishDetail.namedLike (Sql.dishLabel dish) m = true)
                  (Sql.foodMentions db)). lia.
  - intros Hnone.
    assert (DishDetail.mentionsNamed db (Sql.dishLabel dish) = []) as ->;
      [|done].
    unfold DishDetail.mentionsNamed.
    destruct (filter _ (Sql.foodMentions db)) as [|m l] eqn:E; [done|].
    assert (m ∈ filter
              (fun m => DishDetail.namedLike (Sql.dishLabel dish) m = true)
              (Sql.foodMentions db)) as Hm by (rewrite E; by left).
    apply list_elem_of_filter in Hm as [Hlike Hin].
    unfold DishDetail.namedLike in Hlike.
    destruct (Sql.m_canonicalName m) as [c|] eqn:Hc; [|done].
    apply String.eqb_eq in Hlike. by destruct (Hnone m c Hin Hc).
Qed.
End DishFacts.

(** ** The client's reconnection policy *)

(** X21. The client tries to reconnect ten times and then gives up;
    the n-th wait is 200 n milliseconds, so the waits grow and the
    ceiling of five seconds is never reached. *)
Theorem reconnect_gives_up_after_ten (times : Z) :
  (((RedisClient.retryStrategy times).2 = None <-> 10 < times)
   /\ (times <= 10 ->
       RedisClient.retryStrategy times
       = (RedisClient.warn times (200 * times), Some (200 * times))
       /\ 200 * times < 5000))%Z.
Proof.
  unfold RedisClient.retryStrategy.
  destruct (Z.ltb_spec 10 times) as [Hgt|Hle]; simpl.
  - split; [done|lia].
  - split; [split; [done|lia]|]. intros _.
    rewrite Z.min_l by lia. split; [|lia]. do 2 f_equal; lia.
Qed.

(** ** The sentiment summary of a venue *)

Section DoubleFacts.
Local Open Scope Q_scope.

Lemma nearestEven_bounds (y : Q) :
  y - (1 # 2) <= inject_Z (Double.nearestEven y) <= y + (1 # 2).
Proof.
  unfold Double.nearestEven.
  pose proof (Qfloor_le y) as Hlo. pose proof (Qlt_floor y) as Hhi.
  rewrite inject_Z_plus in Hhi. change (inject_Z 1) with 1 in Hhi.
  destruct (Qcompare_spec (y - inject_Z (Qfloor y)) (1 # 2)) as [He|Hl|Hg].
  - destruct (Z.even (Qfloor y));
      rewrite ?inject_Z_plus; change (inject_Z 1) with 1; lra.
  - lra.
  - rewrite inject_Z_plus. change (inject_Z 1) with 1. lra.
Qed.

Lemma log2_bounds (n : Z) :
  (0 < n)%Z -> 2 ^ Z.log2 n <= inject_Z n /\ inject_Z n < 2 * 2 ^ Z.log2 n.
Proof.
  intros Hn. destruct (Z.log2_spec n Hn) as [Hl Hu].
  pose proof (Z.log2_nonneg n) as Ha.
  rewrite Z.pow_succ_r in Hu by exact Ha.
  rewrite Zle_Qle in Hl. rewrite Zlt_Qlt in Hu.
  rewrite inject_Z_mult in Hu.
  rewrite Zpower_Qpower in Hl, Hu by exact Ha.
  split; [exact Hl|exact Hu].
Qed.

Lemma two_nonzero : ~ 2 == 0.
Proof. intros H. discriminate H. Qed.

(** The exponent leaves 53 significant bits. *)
Lemma exponent_spec (x : Q) :
  0 < x ->
  2 ^ 52 <= x / 2 ^ Double.exponent x /\ x / 2 ^ Double.exponent x < 2 ^ 53.
Proof.
  intros Hx. unfold Double.exponent. destruct x as [n d].
  assert (0 < n)%Z as Hn by (unfold Qlt in Hx; simpl in Hx; lia).
  cbn [Qnum Qden].
  set (a := Z.log2 n). set (b := Z.log2 (Zpos d)).
  destruct (log2_bounds n Hn) as [HA1 HA2].
  destruct (log2_bounds (Zpos d) eq_refl) as [HB1 HB2].
  fold a in HA1, HA2. fold b in HB1, HB2.
  pose proof (Qpower_0_lt 2 a eq_refl) as HA0.
  pose proof (Qpower_0_lt 2 b eq_refl) as HB0.
  assert (2 ^ (a - b - 52) == 2 ^ a / 2 ^ b / 2 ^ 52) as Hk.
  { rewrite !Qpower_minus by apply two_nonzero. reflexivity. }
  assert (2 ^ (a - b - 52 - 1) == 2 ^ (a - b - 52) / 2) as Hk1.
  { rewrite (Qpower_minus 2 (a - b - 52) 1) by apply two_nonzero.
    reflexivity. }
  set (r := (n # d) / 2 ^ (a - b - 52)).
  assert (r * (inject_Z (Zpos d) * 2 ^ a) == 2 ^ 52 * inject_Z n * 2 ^ b)
    as Hr.
  { unfold r. rewrite Hk, (Qmake_Qdiv n d). field. repeat split; try lra. }
  assert (2 ^ 51 < r /\ r < 2 ^ 53) as [Hr1 Hr2].
  { set (N := inject_Z n) in *. set (D := inject_Z (Zpos d)) in *.
    set (A := 2 ^ a) in *. set (B := 2 ^ b) in *.
    assert (0 < D * A) as HDA by nra.
    split.
    - apply (Qmult_lt_r _ _ (D * A) HDA). rewrite Hr. nra.
    - apply (Qmult_lt_r _ _ (D * A) HDA). rewrite Hr. nra. }
  destruct (Qle_bool (2 ^ 52) r) eqn:Htest.
  - apply Qle_bool_iff in Htest. split; [exact Htest|exact Hr2].
  - assert (r < 2 ^ 52) as Hlt.
    { apply Qnot_le_lt. intros H. apply Qle_bool_iff in H. congruence. }
    assert ((n # d) / 2 ^ (a - b - 52 - 1) == 2 * r) as ->.
    { unfold r. rewrite Hk1. field.
      pose proof (Qpower_0_lt 2 (a - b - 52) eq_refl). lra. }
    lra.
Qed.

(** Rounding moves a positive number by at most one part in [2^53]. *)
Lemma nearest_bounds (x : Q) :
  0 < x ->
  x * (1 - (1 # 9007199254740992)) <= Double.nearest x
  /\ Double.nearest x <= x * (1 + (1 # 9007199254740992)).
Proof.
  intros Hx. unfold Double.nearest.
  destruct (exponent_spec x Hx) as [Hs1 _].
  pose proof (Qpower_0_lt 2 (Double.exponent x) eq_refl) as He.
  assert (x == x / 2 ^ Double.exponent x * 2 ^ Double.exponent x) as Hxs
    by (field; lra).
  destruct (nearestEven_bounds (x / 2 ^ Double.exponent x)) as [Hm1 Hm2].
  revert Hs1 He Hxs Hm1 Hm2.
  generalize (inject_Z (Double.nearestEven (x / 2 ^ Double.exponent x))).
  generalize (x / 2 ^ Double.exponent x).
  generalize (2 ^ Double.exponent x).
  intros P s m Hs1 He Hxs Hm1 Hm2.
  assert (2 ^ 52 == 4503599627370496) as H52 by reflexivity.
  rewrite H52 in Hs1.
  split; rewrite Hxs; nra.
Qed.

Lemma ofQ_bounds (x : Q) :
  0 <= x ->
  0 <= Double.ofQ x /\ Double.ofQ x <= x * (1 + (1 # 9007199254740992)).
Proof.
  intros Hx. unfold Double.ofQ. destruct x as [[|n|n] d]; cbn [Qnum].
  - assert (0 # d == 0) as -> by reflexivity. lra.
  - assert (0 < Z.pos n # d) as Hpos by reflexivity.
    destruct (nearest_bounds (Z.pos n # d) Hpos) as [Hlo Hhi].
    split; [nra|exact Hhi].
  - exfalso. unfold Qle in Hx. simpl in Hx. lia.
Qed.

Lemma Math_round_bounds (y : Q) :
  inject_Z (Double.Math_round y) <= y + (1 # 2)
  /\ y - (1 # 2) < inject_Z (Double.Math_round y).
Proof.
  unfold Double.Math_round.
  pose proof (Qfloor_le (y + (1 # 2))) as Hlo.
  pose proof (Qlt_floor (y + (1 # 2))) as Hhi.
  rewrite inject_Z_plus in Hhi. change (inject_Z 1) with 1 in Hhi.
  split; lra.
Qed.

Lemma ratio_bounds (count total : Z) :
  (0 <= count)%Z -> (0 < total)%Z ->
  0 <= inject_Z count / inject_Z total
  /\ inject_Z count / inject_Z total * inject_Z total == inject_Z count.
Proof.
  intros Hc Ht. rewrite Zle_Qle in Hc. rewrite Zlt_Qlt in Ht.
  change (inject_Z 0) with 0 in Hc, Ht. split.
  - apply Qle_shift_div_l; [exact Ht|lra].
  - field. lra.
Qed.

(** The double [(count / total) * 100] before [Math.round]. *)
Lemma product_bounds (count total : Z) :
  (0 <= count)%Z -> (0 < total)%Z ->
  let y := Double.mul (Double.div (inject_Z count) (inject_Z total)) 100 in
  0 <= y
  /\ y <= 100 * (inject_Z count / inject_Z total)
          * (1 + (1 # 9007199254740992)) * (1 + (1 # 9007199254740992)).
Proof.
  intros Hc Ht. destruct (ratio_bounds count total Hc Ht) as [Hr _].
  unfold Double.mul, Double.div.
  destruct (ofQ_bounds (inject_Z count / inject_Z total) Hr) as [Hd0 Hd1].
  revert Hd0 Hd1. generalize (Double.ofQ (inject_Z count / inject_Z total)).
  revert Hr. generalize (inject_Z count / inject_Z total).
  intros r Hr dv Hd0 Hd1.
  destruct (ofQ_bounds (dv * 100) ltac:(lra)) as [Hm0 Hm1].
  split; [exact Hm0|lra].
Qed.

Lemma percent_bounds (count total : Z) :
  (0 <= count <= total -> 0 < total ->
   0 <= RestaurantDetail.percent count total <= 100)%Z.
Proof.
  intros [Hc Hct] Ht. unfold RestaurantDetail.percent.
  destruct (product_bounds count total Hc Ht) as [Hy0 Hy1].
  destruct (ratio_bounds count total Hc Ht) as [Hr Hrt].
  destruct (Math_round_bounds
              (Double.mul (Double.div (inject_Z count) (inject_Z total)) 100))
    as [Hm1 Hm2].
  rewrite Zle_Qle in Hct. rewrite Zlt_Qlt in Ht.
  change (inject_Z 0) with 0 in Ht.
  assert (inject_Z count / inject_Z total <= 1) as Hr1.
  { apply Qle_shift_div_r; [exact Ht|lra]. }
  assert (inject_Z (-1)
          < inject_Z (Double.Math_round
                        (Double.mul (Double.div (inject_Z count)
                                                (inject_Z total)) 100)))
    as Hlo by (change (inject_Z (-1)) with (-1); lra).
  assert (inject_Z (Double.Math_round
                      (Double.mul (Double.div (inject_Z count)
                                              (inject_Z total)) 100))
          < inject_Z 101)
    as Hhi by (change (inject_Z 101) with 101; lra).
  rewrite <- Zlt_Qlt in Hlo, Hhi. lia.
Qed.

Lemma percent_pair (a b total : Z) :
  (0 <= a -> 0 <= b -> a + b <= total -> 0 < total ->
   RestaurantDetail.percent a total + RestaurantDetail.percent b total
   <= 101)%Z.
Proof.
  intros Ha Hb Hab Ht. unfold RestaurantDetail.percent.
  destruct (product_bounds a total Ha Ht) as [_ Hya].
  destruct (product_bounds b total Hb Ht) as [_ Hyb].
  destruct (ratio_bounds a total Ha Ht) as [_ Hra].
  destruct (ratio_bounds b total Hb Ht) as [_ Hrb].
  destruct (Math_round_bounds
              (Double.mul (Double.div (inject_Z a) (inject_Z total)) 100))
    as [Hma _].
  destruct (Math_round_bounds
              (Double.mul (Double.div (inject_Z b) (inject_Z total)) 100))
    as [Hmb _].
  rewrite Zle_Qle, inject_Z_plus in Hab. rewrite Zlt_Qlt in Ht.
  change (inject_Z 0) with 0 in Ht.
  assert (inject_Z a / inject_Z total + inject_Z b / inject_Z total <= 1)
    as Hsum.
  { apply (Qmult_le_r _ _ (inject_Z total) Ht).
    rewrite Qmult_plus_distr_l, Hra, Hrb. lra. }
  assert (inject_Z
            (Double.Math_round
               (Double.mul (Double.div (inject_Z a) (inject_Z total)) 100)
             + Double.Math_round
                 (Double.mul (Double.div (inject_Z b) (inject_Z total)) 100))
          < inject_Z 102) as Hlt.
  { rewrite inject_Z_plus. change (inject_Z 102) with 102. lra. }
  rewrite <- Zlt_Qlt in Hlt. lia.
Qed.

(** The double rounds where the exact quotient would not: 23 of 40 is
    57.49999999999999 and 29 of 200 is 14.499999999999998; 1 and 7 of
    8 are 12.5 and 87.5, which leaves -1 for the third percentage. *)
Lemma percent_of_doubles :
  RestaurantDetail.percent 23 40 = 57%Z
  /\ RestaurantDetail.percent 29 200 = 14%Z
  /\ RestaurantDetail.percent 1 8 = 13%Z
  /\ RestaurantDetail.percent 7 8 = 88%Z.
Proof. by vm_compute. Qed.
End DoubleFacts.

(** X22. The sentiment summary of a restaurant detail. With no mention
    analysed the verdict is "neutral" and the three percentages are 0.
    With mentions the verdict is never "neutral" (a venue whose mentions
    are all neutral is "mixed"), the percentages add up to 100, the
    positive and the negative one lie between 0 and 100 and the neutral
    one, the remainder, between -1 and 100. The verdict is "positive"
    exactly from 60 percent of positive mentions on, and "negative"
    exactly from 40 percent of negative ones on when it is not
    "positive". *)
Theorem venue_sentiment_verdict (pg : Sql.Postgres) (db : Sql.Database)
    (rest : Sql.Restaurant) :
  let s := RestaurantDetail.sentimentSummary (RestaurantDetail.details db rest) in
  let d := RestaurantDetail.distribution s in
  (RestaurantDetail.totalAnalyzed s = 0 ->
   RestaurantDetail.overallSentiment s = "neutral"
   /\ RestaurantDetail.positive d = 0 /\ RestaurantDetail.negative d = 0
   /\ RestaurantDetail.neutral d = 0)%Z
  /\ (RestaurantDetail.totalAnalyzed s <> 0 ->
      RestaurantDetail.overallSentiment s <> "neutral"
      /\ RestaurantDetail.positive d + RestaurantDetail.negative d
         + RestaurantDetail.neutral d = 100
      /\ 0 <= RestaurantDetail.positive d <= 100
      /\ 0 <= RestaurantDetail.negative d <= 100
      /\ -1 <= RestaurantDetail.neutral d <= 100)%Z
  /\ (RestaurantDetail.overallSentiment s = "positive"
      <-> 60 <= RestaurantDetail.positive d)%Z
  /\ (RestaurantDetail.overallSentiment s = "negative"
      <-> RestaurantDetail.positive d < 60
          /\ 40 <= RestaurantDetail.negative d)%Z.
Proof.
  simpl.
  set (analyzed := RestaurantDetail.mentionsOf db (Sql.id rest)).
  pose proof (sentiment_counts analyzed) as (Hp & Hn & Hu & Hsum).
  unfold RestaurantDetail.summarize. simpl.
  set (total := Z.of_nat (length analyzed)) in *.
  set (cp := RestaurantDetail.countZ
               (RestaurantDetail.sentimentIs "positive") analyzed) in *.
  set (cn := RestaurantDetail.countZ
               (RestaurantDetail.sentimentIs "negative") analyzed) in *.
  destruct (Z.ltb_spec 0 total) as [Hpos|Hzero].
  - pose proof (percent_bounds cp total ltac:(lia) Hpos) as Hbp.
    pose proof (percent_bounds cn total ltac:(lia) Hpos) as Hbn.
    pose proof (percent_pair cp cn total Hp Hn ltac:(lia) Hpos) as Hpair.
    destruct (Z.eqb_spec total 0) as [?|_]; [lia|].
    destruct (Z.leb_spec 60 (RestaurantDetail.percent cp total)) as [H60|H60];
      [|destruct (Z.leb_spec 40 (RestaurantDetail.percent cn total))
          as [H40|H40]];
      (split; [lia|]); (split; [intros _; repeat split; try done; lia|]);
      (split; split; try done; lia).
  - assert (total = 0%Z) as Hnone by lia. rewrite Hnone. simpl.
    split; [done|]. split; [done|]. split; split; try done; lia.
Qed.

(** ** The distance of an item *)

(** X23. The items of a search page carry a distance exactly when the
    request has both coordinates: then every item is a venue with a
    location and its distance is the distance from that location to the
    point of the request, in kilometres; with a coordinate missing
    every distance is null. *)
Theorem distance_follows_coordinates (rt : JsRuntime) (pg : Sql.Postgres)
    (db : Sql.Database) (rq : Search.QueryObject) :
  Forall
    (fun item =>
       match Search.lat_ rq, Search.lng_ rq with
       | Some la, Some ln =>
           exists r pt,
             r ∈ Sql.restaurants db /\ Search.id item = Sql.id r
             /\ Sql.location r = Some pt
             /\ Search.distance item
                = Some (Sql.ST_Distance pt (Sql.makePoint ln la) / 1000)%Q
       | _, _ => Search.distance item = None
       end)
    (Search.data (Search.respond db rq)).
Proof.
  unfold Search.respond, Search.assemble. simpl.
  apply Forall_fmap, Forall_forall. intros r Hr. simpl.
  destruct (Search.lat_ rq) as [la|] eqn:Hla; [|done].
  destruct (Search.lng_ rq) as [ln|] eqn:Hln; [|done].
  destruct (results_located db rq la ln r Hla Hln Hr) as [pt Hpt].
  exists r, pt. unfold Search.results in Hr.
  apply selectRestaurants_elem_of in Hr as [Hin _].
  repeat (split; [done|]). simpl. by rewrite Hpt.
Qed.

(** ** The properties on the demonstration installation *)

(** The second page of one item is within the bounds of the schema. *)
Lemma validated_request_in_bounds_demo :
  (1 <= Search.limit_ Demo.secondPage <= 50)%Z
  /\ (0 <= Search.offset_ Demo.secondPage)%Z.
Proof.
  destruct (validated_request_in_bounds Demo.runtime Demo.secondPageRaw
              Demo.secondPage parsed_second_page)
    as (_ & _ & _ & _ & Hlimit & Hoffset & _).
  by split.
Defined.

(** Two venues match "kebap": the second page of one item is the last
    and not the first. *)
Lemma pagination_agrees_with_page_demo :
  let p := Search.pagination
             (Search.respond (pg:=Demo.postgres)
                Demo.db Demo.secondPage) in
  (Search.hasNext p = true
   <-> (Search.offset_ Demo.secondPage + Search.limit_ Demo.secondPage
        < Search.total p)%Z)
  /\ (Search.hasPrev p = true <-> (1 < Search.page_ Demo.secondPage)%Z).
Proof.
  intros p.
  destruct (pagination_agrees_with_page Demo.runtime Demo.postgres Demo.db
              Demo.secondPageRaw Demo.secondPage parsed_second_page)
    as (_ & _ & _ & Hnext & Hprev).
  by split.
Defined.

(** With [sort_by] left out the page is in order of score. *)
Lemma default_order_is_best_first_demo :
  StronglySorted Search.betterFirst
    (Search.results (pg:=Demo.postgres)
       Demo.db Demo.secondPage).
Proof.
  apply (default_order_is_best_first Demo.runtime Demo.postgres Demo.db
           Demo.secondPage); by vm_compute.
Defined.

(** The venue on the second page is switched on and matches the text. *)
Lemma page_satisfies_filters_demo :
  let r := Demo.venue 1 "Kebapci Mehmet" "kebapci-mehmet" (Some 500%Z) true in
  Sql.isActive r = true
  /\ Sql.holds (pg:=Demo.postgres)
       (Sql.TextMatch (Search.q_ Demo.secondPage)) r = true.
Proof.
  intros r.
  destruct (page_satisfies_filters Demo.runtime Demo.postgres Demo.db
              Demo.secondPageRaw Demo.secondPage r parsed_second_page)
    as (Hon & Htext & _).
  - vm_compute. by left.
  - by split.
Defined.

(** The second page is a [MISS] on an empty Redis and then a [HIT] with
    the same body, also when the tables have changed in between. *)
Lemma search_hit_after_miss_demo :
  let first :=
    Search.route (rt:=Demo.runtime) (pg:=Demo.postgres) Demo.db
      Demo.secondPageRaw (arrival Demo.emptyRedis) in
  (Search.route (rt:=Demo.runtime) (pg:=Demo.postgres) Demo.menu
     Demo.secondPageRaw (arrival (redis first.2))).1
  = Returned (Sent "HIT" (Search.respond
                            (pg:=Demo.postgres) Demo.db Demo.secondPage)).
Proof.
  intros first.
  destruct (search_hit_after_miss Demo.runtime Demo.postgres Demo.db Demo.menu
              Demo.secondPageRaw Demo.secondPageRaw Demo.secondPage
              Demo.emptyRedis parsed_second_page parsed_second_page)
    as (_ & _ & Hhit & _).
  - reflexivity.
  - intros n _. reflexivity.
  - reflexivity.
  - exact Hhit.
Defined.

(** The detail of "kebap-evi" is a [MISS] on an empty Redis and then a
    [HIT], also when the tables have changed in between. *)
Lemma detail_hit_after_miss_demo :
  let first :=
    RestaurantDetail.route (pg:=Demo.postgres) Demo.db "kebap-evi"
      (arrival Demo.emptyRedis) in
  exists body,
    (RestaurantDetail.route (pg:=Demo.postgres) Demo.menu "kebap-evi"
       (arrival (redis first.2))).1
    = Returned (Sent "HIT" body).
Proof.
  intros first.
  pose proof (detail_hit_after_miss Demo.postgres Demo.db Demo.menu
                "kebap-evi" Demo.emptyRedis) as H.
  assert (RestaurantDetail.restaurantResult (pg:=Demo.postgres) Demo.db
            "kebap-evi"
          = [Demo.venue 2 "Kebap Evi" "kebap-evi" (Some 900%Z) true]) as E
    by reflexivity.
  cbv zeta in H. rewrite E in H.
  destruct H as (_ & _ & Hhit & _).
  - reflexivity.
  - intros n _. reflexivity.
  - reflexivity.
  - eexists. exact Hhit.
Defined.

(** "Ke" and "ke " share a key: the second is a [HIT] with the body
    computed for the first. *)
Lemma suggestions_shared_across_case_demo :
  let first :=
    Autocomplete.route (pg:=Demo.postgres) Demo.db (Some "Ke")
      (arrival Demo.emptyRedis) in
  (Autocomplete.route (pg:=Demo.postgres) Demo.menu (Some "ke ")
     (arrival (redis first.2))).1
  = Returned (Sent "HIT" (Autocomplete.respond (pg:=Demo.postgres)
                            Demo.db (Js.trim "Ke"))).
Proof.
  intros first.
  destruct (suggestions_shared_across_case Demo.postgres Demo.db Demo.menu
              (Some "Ke") (Some "ke ") "Ke" "ke " Demo.emptyRedis)
    as (_ & Hruns); [reflexivity..|].
  destruct Hruns as (_ & _ & Hhit & _).
  - reflexivity.
  - intros n _. reflexivity.
  - reflexivity.
  - exact Hhit.
Defined.

(** No dish of the demonstration tables has the slug "olmayan-yemek". *)
Lemma dish_unknown_slug_is_not_found_demo :
  exists message,
    (DishDetail.route (pg:=Demo.postgres) (fp:=Demo.doubles) Demo.menu
       "olmayan-yemek" (arrival (Demo.emptyRedis (T:=nat)))).1
    = Returned (DishDetail.Failure 404 "Not Found" message)
    /\ Js.includes message "olmayan-yemek" = true.
Proof.
  destruct (dish_unknown_slug_is_not_found (pg:=Demo.postgres)
              (fp:=Demo.doubles) Demo.menu "olmayan-yemek"
              (arrival (Demo.emptyRedis (T:=nat))))
    as (message & Hrun & Hincl).
  - reflexivity.
  - intros d Hd Hslug.
    do 2 (apply elem_of_cons in Hd as [->|Hd]; [by vm_compute in Hslug|]).
    by apply elem_of_nil in Hd.
  - exists message. by rewrite Hrun.
Defined.

(** The slug "urfa-kebap" is answered with the body of a dish. *)
Lemma dish_found_by_slug_demo :
  exists dish,
    Sql.d_slug dish = "urfa-kebap"
    /\ (DishDetail.route (pg:=Demo.postgres) (fp:=Demo.doubles) Demo.menu
          "urfa-kebap" (arrival (Demo.emptyRedis (T:=nat)))).1
       = Returned (DishDetail.Body
                     (DishDetail.respond (pg:=Demo.postgres)
                        (fp:=Demo.doubles) Demo.menu dish)).
Proof.
  destruct (dish_found_by_slug (pg:=Demo.postgres) (fp:=Demo.doubles)
              Demo.menu "urfa-kebap" (arrival (Demo.emptyRedis (T:=nat)))
              (Demo.dish 2 "Urfa Kebap" "urfa-kebap"))
    as (dish & _ & Hslug & Hrun & _).
  - reflexivity.
  - right. by left.
  - reflexivity.
  - exists dish. split; [exact Hslug|]. by rewrite Hrun.
Defined.
